(** * CatLearn / AtoML feature utilities: a shallow embedding

    This development embeds the two Python modules

    - [atoml/fpm_operations.py]  (pairwise feature expansion, sure
      independence screening driver, data set splitting), and
    - [atoml/fingerprint/setup.py]  (the [FeatureGenerator] class)

    as Rocq functions, and proves properties of them.  Python exceptions
    are values of a small error monad, NumPy arrays are records carrying
    their shape, Python's numeric tower (int / float) is spelled out where
    the code mixes the two, and the global random source as well as the
    external collaborators (the screening oracle, fingerprint callables,
    the builtin [float]) are explicit parameters. *)

From Stdlib Require Import ZArith QArith Floats Uint63.
From stdpp Require Import base list strings gmap numbers sorting.
Close Scope Q_scope.

(** ** Python exceptions and the error monad *)

Inductive exception :=
  | AssertionError | TypeError | IndexError | KeyError
  | ValueError | AttributeError | ZeroDivisionError | OverflowError.

Inductive result (T : Type) : Type :=
  | Ok (v : T)
  | Raise (e : exception).
Arguments Ok {T} v.
Arguments Raise {T} e.

#[global] Instance result_ret : MRet result := λ T v, Ok v.
#[global] Instance result_bind : MBind result := λ A B f m,
  match m with Ok v => f v | Raise e => Raise e end.
#[global] Instance result_fmap : FMap result := λ A B f m,
  match m with Ok v => Ok (f v) | Raise e => Raise e end.

(** [for x in xs: s = body(s, x)], stopping at the first exception. *)
Fixpoint for_each {St I : Type} (xs : list I) (body : St → I → result St)
    (s : St) : result St :=
  match xs with
  | [] => Ok s
  | x :: xs' => s' ← body s x; for_each xs' body s'
  end.

(** [range(lo, hi)] *)
Definition py_range (lo hi : nat) : list nat := seq lo (hi - lo).

(** [l[i]] on a sequence, for a non-negative index. *)
Definition py_getitem {T : Type} (l : list T) (i : nat) : result T :=
  match l !! i with Some x => Ok x | None => Raise IndexError end.

(** An integer index as NumPy reads it against an axis of length [len]:
    negative indices count from the end, anything outside raises. *)
Definition np_index (len : nat) (z : Z) : result nat :=
  let z' := if (z <? 0)%Z then (z + Z.of_nat len)%Z else z in
  if bool_decide (0 ≤ z' < Z.of_nat len)%Z then Ok (Z.to_nat z')
  else Raise IndexError.

(** One bound of a slice [l[a:b]] clamped the way Python clamps it. *)
Definition slice_bound (len : nat) (z : Z) : nat :=
  if (z <? 0)%Z then Z.to_nat (Z.max 0 (z + Z.of_nat len))
  else Z.to_nat (Z.min z (Z.of_nat len)).

(** [l[a:b]] *)
Definition py_slice {T : Type} (l : list T) (a b : Z) : list T :=
  let lo := slice_bound (length l) a in
  let hi := slice_bound (length l) b in
  take (hi - lo) (drop lo l).

(** ** Python numbers: int and float

    [fpmatrix_split] mixes ints and floats ([n = len(X) / nsplit] is a true
    division, the counters are ints), so the tower is modelled.  The float
    arithmetic is a parameter with two instances: the kernel's IEEE 754
    binary64, which is the arithmetic of Python's floats and the one the
    statements are about, and exact rationals, arithmetic without
    rounding, kept for comparison. *)

Record float_model := FloatModel {
  flt :> Type;
  float_of_int : Z → flt;
  float_add : flt → flt → flt;
  float_div : flt → flt → flt;
  (** [int(x)]: truncation toward zero; raises on nan and infinities *)
  float_trunc : flt → result Z;
}.

Definition exact_floats : float_model := {|
  flt := Q;
  float_of_int := inject_Z;
  float_add := Qplus;
  float_div := Qdiv;
  float_trunc := λ q, Ok (Z.quot (Qnum q) (Z.pos (Qden q)));
|}.

(** [float(z)] for an int below 2^63 in absolute value (exact up to 2^53,
    rounded to nearest beyond, as Python rounds). *)
Definition b64_of_int (z : Z) : float :=
  if (z <? 0)%Z then PrimFloat.opp (PrimFloat.of_uint63 (Uint63.of_Z (- z)))
  else PrimFloat.of_uint63 (Uint63.of_Z z).

Definition b64_trunc (x : float) : result Z :=
  match Prim2SF x with
  | S754_zero _ => Ok 0%Z
  | S754_infinity _ => Raise OverflowError
  | S754_nan => Raise ValueError
  | S754_finite s m e =>
      let mag := match e with
                 | Z.neg p => Z.shiftr (Z.pos m) (Z.pos p)
                 | _ => Z.shiftl (Z.pos m) e
                 end in
      Ok (if s then (- mag)%Z else mag)
  end.

Definition binary64 : float_model := {|
  flt := float;
  float_of_int := b64_of_int;
  float_add := PrimFloat.add;
  float_div := PrimFloat.div;
  float_trunc := b64_trunc;
|}.

Inductive pynum (F : float_model) :=
  | PyInt (z : Z)
  | PyFloat (x : F).
Arguments PyInt {F} z.
Arguments PyFloat {F} x.

Definition to_float {F : float_model} (a : pynum F) : F :=
  match a with PyInt z => float_of_int F z | PyFloat x => x end.

(** [a + b] *)
Definition py_add {F : float_model} (a b : pynum F) : pynum F :=
  match a, b with
  | PyInt x, PyInt y => PyInt (x + y)
  | _, _ => PyFloat (float_add F (to_float a) (to_float b))
  end.

(** [a / b] on two ints: Python 3's true division.  Python rounds the
    exact quotient once; dividing the two converted operands gives the same
    float as long as both are exactly representable (below 2^53). *)
Definition py_truediv {F : float_model} (a b : Z) : result (pynum F) :=
  if bool_decide (b = 0%Z) then Raise ZeroDivisionError
  else Ok (PyFloat (float_div F (float_of_int F a) (float_of_int F b))).

(** [int(a)] *)
Definition py_int {F : float_model} (a : pynum F) : result Z :=
  match a with PyInt z => Ok z | PyFloat x => float_trunc F x end.

(** ** NumPy arrays of rank 2

    An array carries its shape, so that a matrix without rows still has
    columns; [data] holds the rows. *)

Record ndarray (T : Type) := NdArray {
  shape0 : nat;
  shape1 : nat;
  data : list (list T);
}.
Arguments NdArray {T} shape0 shape1 data.
Arguments shape0 {T} _.
Arguments shape1 {T} _.
Arguments data {T} _.

Definition wf_ndarray {T : Type} (X : ndarray T) : Prop :=
  length (data X) = shape0 X ∧ Forall (λ row, length row = shape1 X) (data X).

Section numpy.
Context {T : Type}.

(** [np.shape(X)] *)
Definition np_shape (X : ndarray T) : nat * nat := (shape0 X, shape1 X).

(** [np.zeros([n, m])] *)
Definition np_zeros (zero : T) (n m : nat) : ndarray T :=
  NdArray n m (replicate n (replicate m zero)).

(** [X[:, f]] *)
Definition col (X : ndarray T) (f : nat) : result (list T) :=
  if bool_decide (f < shape1 X) then
    match mapM (λ row : list T, row !! f) (data X) with
    | Some c => Ok c
    | None => Raise IndexError
    end
  else Raise IndexError.

(** [X[:, k] = v] *)
Definition set_col (X : ndarray T) (k : nat) (v : list T) : result (ndarray T) :=
  if bool_decide (k < shape1 X) then
    if bool_decide (length v = shape0 X) then
      Ok (NdArray (shape0 X) (shape1 X)
            (zip_with (λ row x, <[k:=x]> row) (data X) v))
    else Raise ValueError
  else Raise IndexError.

(** [v[sel]] for an integer index list [sel] on a rank 1 array *)
Definition take_items {U : Type} (v : list U) (sel : list Z) : result (list U) :=
  mapM (λ z, i ← np_index (length v) z; py_getitem v i) sel.

(** [X[:, sel]] *)
Definition take_cols (X : ndarray T) (sel : list Z) : result (ndarray T) :=
  idx ← mapM (np_index (shape1 X)) sel;
  rows ← mapM (λ row : list T, mapM (py_getitem row) idx) (data X);
  Ok (NdArray (shape0 X) (length sel) rows).

(** [X[idx]] for a list of row numbers *)
Definition take_rows (X : ndarray T) (idx : list nat) : result (ndarray T) :=
  rows ← mapM (py_getitem (data X)) idx;
  Ok (NdArray (length idx) (shape1 X) rows).

(** [np.hstack] of rank 1 arrays: their concatenation *)
Definition np_hstack (vs : list (list T)) : list T := concat vs.

(** [np.asarray] of a list of rank 1 arrays: the rows must agree in
    length (an empty list gives an array without rows). *)
Definition np_asarray (rows : list (list T)) : result (ndarray T) :=
  let m := match rows with [] => 0 | r :: _ => length r end in
  if bool_decide (Forall (λ r, length r = m) rows)
  then Ok (NdArray (length rows) m rows)
  else Raise ValueError.
End numpy.

(** ** [atoml/fpm_operations.py] *)

(** [sum(range(n+1))] *)
Definition triangular (n : nat) : nat := foldr Nat.add 0 (py_range 0 (n + 1)).

Section do_sis.
Context {T : Type}.
(** [sure_independence_screening(y, X, size=k)['accepted']]: the external
    screening oracle, imported from another module. *)
Variable sure_independence_screening : list T → ndarray T → Z → list Z.

(** [len(l)] where [l] may be [None] *)
Definition len_labels (l : option (list string)) : result nat :=
  match l with Some v => Ok (length v) | None => Raise TypeError end.

(** The [while shape[1] > size] loop.  The state is [shape], [X] and [l];
    [calls] records the [size] argument of every oracle call made.  The
    result is [None] only when [fuel] iterations did not suffice. *)
Fixpoint do_sis_while (fuel : nat) (y : list T) (size increment : Z)
    (shape : nat * nat) (X : ndarray T) (l : option (list string))
    (calls : list Z)
  : option (result (ndarray T * option (list string)) * list Z) :=
  if bool_decide (Z.of_nat shape.2 > size)%Z then
    match fuel with
    | 0 => None
    | S fuel' =>
        let shape := np_shape X in
        let request := (Z.of_nat shape.2 - increment)%Z in
        let select := sure_independence_screening y X request in
        let calls := calls ++ [request] in
        match take_cols X select with
        | Raise e => Some (Raise e, calls)
        | Ok X' =>
            match l with
            | None =>
                do_sis_while fuel' y size increment shape X' None calls
            | Some lv =>
                match take_items lv select with
                | Raise e => Some (Raise e, calls)
                | Ok l' =>
                    do_sis_while fuel' y size increment shape X' (Some l') calls
                end
            end
        end
    end
  else Some (Ok (X, l), calls).

Definition do_sis (fuel : nat) (X : ndarray T) (y : list T)
    (l : option (list string)) (size : option Z) (increment : Z)
  : option (result (ndarray T * option (list string)) * list Z) :=
  let shape := np_shape X in
  match len_labels l with
  | Raise e => Some (Raise e, [])
  | Ok len_l =>
      if bool_decide (shape.2 = len_l) then
        let size := match size with
                    | None => Z.of_nat shape.1
                    | Some s => s
                    end in
        do_sis_while fuel y size increment shape X l []
      else Some (Raise AssertionError, [])
  end.
End do_sis.

Section fpm_operations.
Context {T : Type}.
(** The arithmetic of the array elements. *)
Variables (zero : T) (mul add : T → T → T) (pow : T → T → T) (log : T → T).

Definition get_order_2 (self_X : ndarray T) : result (ndarray T) :=
  let A := self_X in
  let shapeA := np_shape A in
  let nfi := 0 in
  let new_features := np_zeros zero shapeA.1 (triangular shapeA.2) in
  st ← for_each (py_range 0 shapeA.2) (λ st f1,
         for_each (py_range f1 shapeA.2) (λ '(new_features, nfi) f2,
           c1 ← col A f1;
           c2 ← col A f2;
           let new_feature := zip_with mul c1 c2 in
           new_features ← set_col new_features nfi new_feature;
           Ok (new_features, nfi + 1)) st) (new_features, nfi);
  Ok st.1.

Definition get_labels_order_2 (self_x : list string) : result (list string) :=
  let L := length self_x in
  let new_features := [] in
  for_each (py_range 0 L) (λ new_features f1,
    for_each (py_range f1 L) (λ new_features f2,
      x1 ← py_getitem self_x f1;
      x2 ← py_getitem self_x f2;
      Ok (new_features ++ [x1 +:+ "_x_" +:+ x2])) new_features) new_features.

Definition get_order_2ab (self_X : ndarray T) (a b : T) : result (ndarray T) :=
  let A := self_X in
  let shapeA := np_shape A in
  let nfi := 0 in
  let new_features := np_zeros zero shapeA.1 (triangular shapeA.2) in
  st ← for_each (py_range 0 shapeA.2) (λ st f1,
         for_each (py_range f1 shapeA.2) (λ '(new_features, nfi) f2,
           c1 ← col A f1;
           c2 ← col A f2;
           let new_feature :=
             zip_with mul ((λ x, pow x a) <$> c1) ((λ x, pow x b) <$> c2) in
           new_features ← set_col new_features nfi new_feature;
           Ok (new_features, nfi + 1)) st) (new_features, nfi);
  Ok st.1.

Definition get_ablog (self_X : ndarray T) (a b : T) : result (ndarray T) :=
  let A := self_X in
  let shapeA := np_shape A in
  let nfi := 0 in
  let new_features := np_zeros zero shapeA.1 (triangular shapeA.2) in
  st ← for_each (py_range 0 shapeA.2) (λ st f1,
         for_each (py_range f1 shapeA.2) (λ '(new_features, nfi) f2,
           c1 ← col A f1;
           c2 ← col A f2;
           let new_feature :=
             zip_with add ((λ x, mul a (log x)) <$> c1)
                          ((λ x, mul b (log x)) <$> c2) in
           new_features ← set_col new_features nfi new_feature;
           Ok (new_features, nfi + 1)) st) (new_features, nfi);
  Ok st.1.
End fpm_operations.

Section fpmatrix_split.
Context {T : Type} {F : float_model} {rng : Type}.
(** [random.shuffle]: permutes the list, advancing the random source. *)
Variable shuffle : rng → list nat → list nat * rng.

(** The [for _ in range(nsplit)] loop.  [n] and [r] are only bound (and
    only read) when [fix_size] is [None]. *)
Fixpoint fpmatrix_split_for (count : nat) (X : ndarray T)
    (fix_size : option Z) (replacement : bool) (n : pynum F) (r : Z)
    (s1 s2 : pynum F) (index : list nat) (g : rng)
    (dataset : list (ndarray T)) : result (list (ndarray T)) * rng :=
  match count with
  | 0 => (Ok dataset, g)
  | S count' =>
      let '(index, g) := if replacement then shuffle g index else (index, g) in
      match (lo ← py_int s1; hi ← py_int s2;
             take_rows X (py_slice index lo hi)) with
      | Raise e => (Raise e, g)
      | Ok group =>
          let dataset := dataset ++ [group] in
          let s1 := s2 in
          match fix_size with
          | None =>
              let r := Z.max 0 (r - 1) in
              let s2 := py_add (py_add s2 n) (PyInt (Z.min 1 r)) in
              fpmatrix_split_for count' X fix_size replacement n r s1 s2
                index g dataset
          | Some fs =>
              let s2 := py_add s2 (PyInt fs) in
              fpmatrix_split_for count' X fix_size replacement n r s1 s2
                index g dataset
          end
      end
  end.

Definition fpmatrix_split (self_X : ndarray T) (nsplit : Z)
    (fix_size : option Z) (replacement : bool) (g : rng)
  : result (list (ndarray T)) * rng :=
  let len_X := Z.of_nat (shape0 self_X) in
  if match fix_size with
     | Some fs => bool_decide (len_X >= nsplit * fs)%Z
     | None => true
     end then
    let dataset := [] in
    let index := py_range 0 (shape0 self_X) in
    let '(index, g) := shuffle g index in
    let s1 : pynum F := PyInt 0 in
    match fix_size with
    | None =>
        match py_truediv len_X nsplit with
        | Raise e => (Raise e, g)
        | Ok n =>
            let r := (len_X `mod` nsplit)%Z in
            let s2 := py_add n (PyInt (Z.min 1 r)) in
            fpmatrix_split_for (Z.to_nat nsplit) self_X fix_size replacement
              n r s1 s2 index g dataset
        end
    | Some fs =>
        let s2 := PyInt fs in
        fpmatrix_split_for (Z.to_nat nsplit) self_X fix_size replacement
          (PyInt 0) 0%Z s1 s2 index g dataset
    end
  else (Raise AssertionError, g).
End fpmatrix_split.

(** ** [atoml/fingerprint/setup.py] *)

Section get_combined_descriptors.
Context {T W : Type}.

(** A zero-argument callable returning a rank 1 array (a feature or label
    vector).  Calling it may have effects; [W] is the state of everything
    it can touch. *)
Definition callable : Type := W → list T * W.

Definition get_combined_descriptors (vec_list : list callable) (w : W)
  : result (list T * W) :=
  if bool_decide (2 ≤ length vec_list) then
    let labels := reverse vec_list in
    st ← for_each (py_range 0 (length labels)) (λ '(L_F, w) j,
           f ← py_getitem labels j;
           let '(v, w) := f w in
           Ok (L_F ++ [v], w)) ([], w);
    Ok (np_hstack st.1, st.2)
  else Raise AssertionError.
End get_combined_descriptors.

(** The exceptions the builtin [float] can raise. *)
Inductive float_failure :=
  | FloatValueError | FloatTypeError | FloatOverflowError.

Definition float_exception (e : float_failure) : exception :=
  match e with
  | FloatValueError => ValueError
  | FloatTypeError => TypeError
  | FloatOverflowError => OverflowError
  end.

Section FeatureGenerator.
Context {T scalar float : Type}.
(** Python's builtin [float] on a metadata value: the float, or the
    exception it raises on a value it cannot convert. *)
Variable py_float : scalar → float + float_failure.

(** A structure: what the code touches of an atoms object or data base
    row, namely [get_atomic_numbers()], [len()] and the subscript
    ['key_value_pairs']. *)
Record atoms := Atoms {
  atomic_numbers : list Z;
  key_value_pairs : option (gmap string scalar);
}.

(** The Python values that can turn up where a structure is expected:
    structures, and the strings or ints used as keys of a mapping. *)
Inductive pyobj :=
  | ObjAtoms (a : atoms)
  | ObjStr (s : string)
  | ObjInt (z : Z).

(** [a.get_atomic_numbers()] *)
Definition get_atomic_numbers (a : pyobj) : result (list Z) :=
  match a with
  | ObjAtoms a => Ok (atomic_numbers a)
  | _ => Raise AttributeError
  end.

(** [len(a)] *)
Definition obj_len (a : pyobj) : result nat :=
  match a with
  | ObjAtoms a => Ok (length (atomic_numbers a))
  | ObjStr s => Ok (String.length s)
  | ObjInt _ => Raise TypeError
  end.

(** The containers [return_vec] may be handed.  Mappings keep their
    items in insertion order. *)
Inductive container :=
  | PyList (l : list pyobj)
  | PyTuple (l : list pyobj)
  | PyDict (d : list (pyobj * pyobj))
  | PyDefaultDict (d : list (pyobj * pyobj)).

(** [isinstance(c, (list, defaultdict))] *)
Definition is_list_or_defaultdict (c : container) : bool :=
  match c with PyList _ | PyDefaultDict _ => true | _ => false end.

(** What [for a in c] and [list(c)] yield: the elements of a sequence,
    the keys of a mapping. *)
Definition py_iter (c : container) : list pyobj :=
  match c with
  | PyList l | PyTuple l => l
  | PyDict d | PyDefaultDict d => d.*1
  end.

(** [len(c)] *)
Definition py_len (c : container) : nat :=
  match c with
  | PyList l | PyTuple l => length l
  | PyDict d | PyDefaultDict d => length d
  end.

(** The two cached attributes of the generator object. *)
Record FeatureGenerator := {
  atom_types : option (list Z);
  atom_len : option nat;
}.

(** A fingerprint function: called on one structure, it may read the
    generator's cached attributes. *)
Definition fingerprint : Type := FeatureGenerator → pyobj → result (list T).

(** [vec_names] is a list of fingerprint functions or a single one. *)
Inductive vec_names_arg :=
  | VecList (fs : list fingerprint)
  | VecSingle (f : fingerprint).

Inductive kvp_output :=
  | KvpLabels (names : list string)
  | KvpValues (values : list float).

Definition get_keyvaluepair (c : list atoms) (vec_name : string)
  : result kvp_output :=
  if bool_decide (length c = 0) then Ok (KvpLabels ["kvp_" +:+ vec_name])
  else
    out ← for_each c (λ out atoms,
            kvp ← match key_value_pairs atoms with
                  | Some m => Ok m
                  | None => Raise KeyError
                  end;
            x ← match kvp !! vec_name with
                | Some x => Ok x
                | None => Raise KeyError
                end;
            field_value ← match py_float x with
                        | inl v => Ok v
                        | inr e => Raise (float_exception e)
                        end;
            Ok (out ++ [field_value])) [];
    Ok (KvpValues out).

Definition _concatenate_vec (self : FeatureGenerator) (atoms : pyobj)
    (vec_names : list fingerprint) : result (list T) :=
  for_each vec_names (λ fingerprint_vector name,
    v ← name self atoms;
    Ok (fingerprint_vector ++ v)) [].

Definition _get_vec (self : FeatureGenerator) (atoms : pyobj)
    (vec_names : list fingerprint) : result (list T) :=
  if bool_decide (length vec_names = 1) then
    f ← py_getitem vec_names 0;
    f self atoms
  else _concatenate_vec self atoms vec_names.

Definition _get_atom_types (self : FeatureGenerator)
    (train_candidates : container) (test_candidates : option container)
  : result FeatureGenerator :=
  let train_candidates := py_iter train_candidates in
  let train_candidates :=
    match test_candidates with
    | Some t => train_candidates ++ py_iter t
    | None => train_candidates
    end in
  atom_types ← for_each train_candidates (λ (atom_types : gset Z) a,
                  nums ← get_atomic_numbers a;
                  Ok (atom_types ∪ list_to_set nums)) ∅;
  let atom_types := merge_sort Z.le (elements atom_types) in
  Ok {| atom_types := Some atom_types; atom_len := atom_len self |}.

Definition _get_atom_length (self : FeatureGenerator)
    (train_candidates : container) (test_candidates : option container)
  : result FeatureGenerator :=
  let train_candidates := py_iter train_candidates in
  let train_candidates :=
    match test_candidates with
    | Some t => train_candidates ++ py_iter t
    | None => train_candidates
    end in
  max_len ← for_each train_candidates (λ max_len a,
               len_a ← obj_len a;
               Ok (if bool_decide (max_len < len_a) then len_a else max_len)) 0;
  Ok {| atom_types := atom_types self; atom_len := Some max_len |}.

Definition normalize_features (self : FeatureGenerator)
    (train_candidates : container) (test_candidates : option container)
  : result FeatureGenerator :=
  self ← _get_atom_types self train_candidates test_candidates;
  _get_atom_length self train_candidates test_candidates.

(** [return_vec] returns its result (or the exception) together with the
    generator object as the call leaves it. *)
Definition return_vec (self : FeatureGenerator) (candidates : container)
    (vec_names : vec_names_arg) : result (ndarray T) * FeatureGenerator :=
  if negb (is_list_or_defaultdict candidates) then (Raise TypeError, self)
  else
    let vec_names :=
      match vec_names with VecList fs => fs | VecSingle f => [f] end in
    match (match atom_types self with
           | None => _get_atom_types self candidates None
           | Some _ => Ok self
           end) with
    | Raise e => (Raise e, self)
    | Ok self =>
        match (match atom_len self with
               | None => _get_atom_length self candidates None
               | Some _ => Ok self
               end) with
        | Raise e => (Raise e, self)
        | Ok self =>
            (fingerprint_vector ← for_each (py_iter candidates)
               (λ fingerprint_vector atoms,
                  v ← _get_vec self atoms vec_names;
                  Ok (fingerprint_vector ++ [v])) [];
             np_asarray fingerprint_vector, self)
        end
    end.
End FeatureGenerator.


(** * Vocabulary of the statements

    Notions the theorems below are phrased in.  None of them is part of
    the Python code; each is defined from the code's own constructs. *)

(** The pairs [(f1, f2)] in the order the two nested loops
    [for f1 in range(m): for f2 in range(f1, m)] visit them. *)
Definition order2_pairs (m : nat) : list (nat * nat) :=
  f1 ← py_range 0 m; pair f1 <$> py_range f1 m.

(** Lexicographic order on pairs, first component first. *)
Definition lex_lt (p q : nat * nat) : Prop :=
  p.1 < q.1 ∨ (p.1 = q.1 ∧ p.2 < q.2).

(** One round of the inner loop shared by [get_order_2], [get_order_2ab]
    and [get_ablog]; [comb] builds the new column from the two old ones. *)
Definition pair_body {T : Type} (comb : list T → list T → list T)
    (A : ndarray T) (st : ndarray T * nat) (f1 f2 : nat)
  : result (ndarray T * nat) :=
  c1 ← col A f1;
  c2 ← col A f2;
  new_features ← set_col st.1 st.2 (comb c1 c2);
  Ok (new_features, st.2 + 1).

Definition keeps_length {T : Type} (comb : list T → list T → list T) : Prop :=
  ∀ c1 c2, length c1 = length c2 → length (comb c1 c2) = length c1.

(** An index list is a valid selection on an axis of length [m] when NumPy
    accepts each entry. *)
Definition valid_selection (m : nat) (sel : list Z) : Prop :=
  Forall (λ z, - Z.of_nat m ≤ z < Z.of_nat m)%Z sel.

(** The screening oracle's contract: asked for [k] of the columns of [X],
    it accepts exactly [k] column indices of [X]. *)
Definition honours_contract {T : Type}
    (sis : list T → ndarray T → Z → list Z) : Prop :=
  ∀ y X k, (0 ≤ k ≤ Z.of_nat (shape1 X))%Z →
    length (sis y X k) = Z.to_nat k ∧ valid_selection (shape1 X) (sis y X k).

(** The sizes requested from [c] columns on: [c - 1], [c - 2], ... *)
Definition requests_from (c d : nat) : list Z :=
  (λ t, Z.of_nat c - 1 - Z.of_nat t)%Z <$> seq 0 d.

(** An oracle that keeps the first [k] columns. *)
Definition accept_first {T : Type} (y : list T) (X : ndarray T) (k : Z)
  : list Z :=
  Z.of_nat <$> seq 0 (Z.to_nat k).

(** The cut points of a split: each slice starts where the previous one
    ended. *)
Fixpoint is_chain (lo : Z) (bs : list (Z * Z)) : Prop :=
  match bs with
  | [] => True
  | b :: bs' => b.1 = lo ∧ (lo ≤ b.2)%Z ∧ is_chain b.2 bs'
  end.

Fixpoint is_chainb (lo : Z) (bs : list (Z * Z)) : bool :=
  match bs with
  | [] => true
  | b :: bs' => (b.1 =? lo)%Z && (lo <=? b.2)%Z && is_chainb b.2 bs'
  end.

Fixpoint chain_end (lo : Z) (bs : list (Z * Z)) : Z :=
  match bs with
  | [] => lo
  | b :: bs' => chain_end b.2 bs'
  end.

(** The numbers of the [for] loop of [fpmatrix_split] alone: the slice
    bounds [int(s1)], [int(s2)] of every round. *)
Fixpoint split_bounds {F : float_model} (count : nat) (fix_size : option Z)
    (n : pynum F) (r : Z) (s1 s2 : pynum F) : result (list (Z * Z)) :=
  match count with
  | 0 => Ok []
  | S count' =>
      lo ← py_int s1;
      hi ← py_int s2;
      bs ← match fix_size with
           | None =>
               let r := Z.max 0 (r - 1) in
               split_bounds count' fix_size n r s2
                 (py_add (py_add s2 n) (PyInt (Z.min 1 r)))
           | Some fs =>
               split_bounds count' fix_size n r s2 (py_add s2 (PyInt fs))
           end;
      Ok ((lo, hi) :: bs)
  end.

(** The slice bounds of [fpmatrix_split(nsplit)] on [len] rows for
    [fix_size=None], computed in binary64. *)
Definition b64_bounds (len nsplit : Z) : result (list (Z * Z)) :=
  n ← py_truediv (F:=binary64) len nsplit;
  split_bounds (Z.to_nat nsplit) None n (len `mod` nsplit)%Z (PyInt 0)
    (py_add n (PyInt (Z.min 1 (len `mod` nsplit)))).

Definition b64_covers (len nsplit : Z) : bool :=
  match b64_bounds len nsplit with
  | Ok bs => is_chainb 0 bs && (len <=? chain_end 0 bs)%Z
  | Raise _ => false
  end.

(** [random.shuffle] rearranges the list it is given. *)
Definition shuffle_permutes {rng : Type}
    (shuffle : rng → list nat → list nat * rng) : Prop :=
  ∀ g l, (shuffle g l).1 ≡ₚ l.

(** A deterministic stand-in for [random.shuffle]: it reverses the list. *)
Definition reverse_shuffle (g : unit) (l : list nat) : list nat * unit :=
  (reverse l, g).

(** Calling the callables one after the other, first to last, threading
    the state: the results in call order, and the final state. *)
Fixpoint invoke_all {T W : Type} (fs : list (@callable T W)) (w : W)
  : list (list T) * W :=
  match fs with
  | [] => ([], w)
  | f :: fs' =>
      let '(v, w1) := f w in
      let '(vs, w2) := invoke_all fs' w1 in
      (v :: vs, w2)
  end.

(** A callable that returns [v] and leaves its number [i] in a call log. *)
Definition probe {T : Type} (i : nat) (v : list T) : @callable T (list nat) :=
  λ log, (v, log ++ [i]).

(** The value a structure's metadata holds under a field name, if any. *)
Definition field {scalar : Type} (a : @atoms scalar) (name : string)
  : option scalar :=
  m ← key_value_pairs a; m !! name.

(** Every value stored under [name] in [c] is one [float] converts. *)
Definition numeric_field {scalar float : Type}
    (py_float : scalar → float + float_failure) (c : list (@atoms scalar))
    (name : string) : Prop :=
  ∀ a x, a ∈ c → field a name = Some x → ∃ v, py_float x = inl v.

(** [float(atoms['key_value_pairs'][vec_name])] *)
Definition read_field {scalar float : Type}
    (py_float : scalar → float + float_failure) (name : string)
    (a : @atoms scalar) : result float :=
  match field a name with
  | None => Raise KeyError
  | Some x =>
      match py_float x with
      | inl v => Ok v
      | inr e => Raise (float_exception e)
      end
  end.

(** [X], [l] hold a selection of the columns of [X0] and of the labels
    [l0], label k of [l] being the label of column k of [X]. *)
Definition selects {T : Type} (X0 : ndarray T) (l0 : list string)
    (X : ndarray T) (l : list string) : Prop :=
  ∃ idx : list nat,
    length idx = shape1 X ∧ length l = shape1 X
    ∧ ∀ k i, idx !! k = Some i →
        ∃ c s, col X0 i = Ok c ∧ col X k = Ok c
               ∧ l0 !! i = Some s ∧ l !! k = Some s.

(** The oracle returns, for the size [do_sis] asks with a given
    [increment], as many columns as it was handed. *)
Definition drops_nothing {T : Type} (sis : list T → ndarray T → Z → list Z)
    (increment : Z) : Prop :=
  ∀ y X, length (sis y X (Z.of_nat (shape1 X) - increment)%Z) = shape1 X
         ∧ valid_selection (shape1 X)
             (sis y X (Z.of_nat (shape1 X) - increment)%Z).

(** An oracle that accepts every column. *)
Definition accept_all {T : Type} (y : list T) (X : ndarray T) (k : Z) : list Z :=
  Z.of_nat <$> seq 0 (shape1 X).

(** [G] is made of rows of [X]: it is a matrix of the same width, and each
    of its rows is a row of [X]. *)
Definition drawn_from {T : Type} (X G : ndarray T) : Prop :=
  wf_ndarray G ∧ shape1 G = shape1 X ∧ ∀ row, row ∈ data G → row ∈ data X.

(** The expansion of one row of [m] entries: [f] applied to its entries
    [i] and [j], for the pairs (i, j) in the order of the nested loops.
    ([zero] only fills in for entries a row of fewer than [m] entries
    lacks.) *)
Definition expand_row {T : Type} (zero : T) (f : T → T → T) (m : nat)
    (row : list T) : list T :=
  (λ p, f (default zero (row !! p.1)) (default zero (row !! p.2)))
    <$> order2_pairs m.

(** The value of a non-negative finite binary64 number, counted in units
    of [2^-1074], the grain of the format: an integer. *)
Definition sf_scaled (f : spec_float) : option Z :=
  match f with
  | S754_zero _ => Some 0%Z
  | S754_finite false m e => Some (Z.pos m * 2 ^ (e + 1074))%Z
  | _ => None
  end.

Definition b64_scaled (x : float) : option Z := sf_scaled (Prim2SF x).

(** The same for a Python number that is a non-negative int or float. *)
Definition py_scaled (s : pynum binary64) : option Z :=
  match s with
  | PyInt z => if (0 <=? z)%Z then Some (z * 2 ^ 1074)%Z else None
  | PyFloat x => b64_scaled x
  end.

(** The numbers with a mantissa of at most 53 bits, in the same units. *)
Definition b64_grid (v : Z) : Prop :=
  ∃ mc j, (0 ≤ mc < 2 ^ 53)%Z ∧ (0 ≤ j)%Z ∧ v = (mc * 2 ^ j)%Z.

(** Bounds on the k-th cut point of [fpmatrix_split] for [fix_size=None]:
    k shares of [len // nsplit], respectively of that rounded up, plus one
    for each of the first [len % nsplit] rounds. *)
Definition cut_low (len nsplit k : Z) : Z :=
  (k * (len `div` nsplit) + Z.min k (len `mod` nsplit))%Z.

Definition cut_high (len nsplit k : Z) : Z :=
  (k * (if (len `mod` nsplit =? 0)%Z then len `div` nsplit
        else len `div` nsplit + 1)
   + Z.min k (len `mod` nsplit))%Z.

(** Well-formedness of a literal array, by computation. *)
Ltac wf_by_computation := split; [reflexivity | repeat constructor].

(** * Properties *)

(** ** The error monad and loops *)

Lemma bind_Ok {A B : Type} (f : A → result B) (v : A) : Ok v ≫= f = f v.
Proof. reflexivity. Qed.

Lemma bind_Raise {A B : Type} (f : A → result B) (e : exception) :
  Raise e ≫= f = Raise e.
Proof. reflexivity. Qed.

Lemma bind_Ok_inv {A B : Type} (f : A → result B) (m : result A) (b : B) :
  m ≫= f = Ok b → ∃ a, m = Ok a ∧ f a = Ok b.
Proof. destruct m as [a|e]; [eauto | discriminate]. Qed.

Lemma for_each_app {S I : Type} (xs ys : list I) (body : S → I → result S) s :
  for_each (xs ++ ys) body s = for_each xs body s ≫= for_each ys body.
Proof.
  revert s. induction xs as [|x xs IH]; intros s; simpl; [done|].
  destruct (body s x) as [s'|e]; simpl; [apply IH | done].
Qed.

(** Two nested [for] loops run the inner body once per pair, outer index
    first. *)
Lemma for_each_nested {S I J : Type} (xs : list I) (inner : I → list J)
    (body : S → I → J → result S) s :
  for_each xs (λ st x, for_each (inner x) (λ st' y, body st' x y) st) s =
  for_each (x ← xs; pair x <$> inner x) (λ st p, body st p.1 p.2) s.
Proof.
  revert s. induction xs as [|x xs IH]; intros s; [done|].
  cbn [for_each mbind list_bind]. rewrite for_each_app.
  assert (Hin : ∀ ys st, for_each ys (λ st' y, body st' x y) st =
                         for_each (pair x <$> ys) (λ st p, body st p.1 p.2) st).
  { induction ys as [|y ys IHy]; intros st; simpl; [done|].
    destruct (body st x y); simpl; [apply IHy | done]. }
  rewrite Hin. destruct (for_each _ _ s); simpl; [apply IH | done].
Qed.

(** A loop that only appends one computed item per round is a [mapM]. *)
Lemma for_each_append {I B : Type} (f : I → result B) (xs : list I) acc :
  for_each xs (λ acc x, y ← f x; Ok (acc ++ [y])) acc =
  ys ← mapM f xs; Ok (acc ++ ys).
Proof.
  revert acc. induction xs as [|x xs IH]; intros acc; simpl.
  - by rewrite app_nil_r.
  - destruct (f x) as [y|e]; simpl; [|done].
    rewrite IH. destruct (mapM f xs); simpl; [|done].
    by rewrite <- app_assoc.
Qed.

Lemma mapM_result_Ok {A B : Type} (f : A → result B) (g : A → B) (l : list A) :
  Forall (λ x, f x = Ok (g x)) l → mapM f l = Ok (g <$> l).
Proof. induction 1 as [|x l Hx _ IH]; simpl; [done|]. by rewrite Hx, IH. Qed.

Lemma mapM_result_length {A B : Type} (f : A → result B) (l : list A) k :
  mapM f l = Ok k → length k = length l.
Proof.
  revert k. induction l as [|x l IH]; intros k; simpl.
  - by intros [= <-].
  - destruct (f x); simpl; [|done]. destruct (mapM f l); simpl; [|done].
    intros [= <-]. simpl. f_equal. by apply IH.
Qed.

(** ** The enumeration of column pairs *)

Lemma triangular_S n : triangular (S n) = triangular n + S n.
Proof.
  unfold triangular, py_range.
  replace (S n + 1 - 0) with (S (n + 1 - 0)) by lia.
  rewrite seq_S, foldr_app. simpl.
  replace (n + 1 - 0 + 0) with (S n) by lia.
  generalize (seq 0 (n + 1 - 0)). intros l.
  induction l as [|x l IH]; simpl; lia.
Qed.

Lemma triangular_closed n : triangular n = n * (n + 1) / 2.
Proof.
  induction n as [|n IH]; [done|].
  rewrite triangular_S, IH.
  replace (S n * (S n + 1)) with (n * (n + 1) + S n * 2) by lia.
  by rewrite Nat.div_add by lia.
Qed.

(** The rows of the enumeration from outer index [a] on. *)
Lemma order2_pairs_from_length (m a c : nat) :
  a + c = m →
  length (f1 ← seq a c; pair f1 <$> py_range f1 m) + triangular a + a * c
  = triangular m.
Proof.
  revert a. induction c as [|c IH]; intros a Hac.
  - simpl. replace a with m by lia. lia.
  - cbn [seq mbind list_bind]. rewrite length_app, length_fmap.
    unfold py_range at 1. rewrite length_seq.
    specialize (IH (S a) ltac:(lia)). rewrite triangular_S in IH. lia.
Qed.

Lemma order2_pairs_length m : length (order2_pairs m) = triangular m.
Proof.
  pose proof (order2_pairs_from_length m 0 m ltac:(lia)) as H.
  change (triangular 0) with 0 in H.
  unfold order2_pairs. change (py_range 0 m) with (seq 0 (m - 0)).
  rewrite Nat.sub_0_r. lia.
Qed.

Lemma elem_of_order2_pairs m i j : (i, j) ∈ order2_pairs m ↔ i ≤ j < m.
Proof.
  unfold order2_pairs, py_range. rewrite list_elem_of_bind. split.
  - intros (f1 & Hin & Hf1). apply list_elem_of_fmap in Hin as (f2 & [= -> ->] & Hf2).
    apply elem_of_seq in Hf1, Hf2. lia.
  - intros Hij. exists i. split.
    + apply list_elem_of_fmap. exists j. split; [done|]. apply elem_of_seq. lia.
    + apply elem_of_seq. lia.
Qed.

Lemma seq_sorted (a c : nat) : StronglySorted lt (seq a c).
Proof.
  revert a. induction c as [|c IH]; intros a; simpl; constructor; [apply IH|].
  apply Forall_forall. intros x Hx. apply elem_of_seq in Hx. lia.
Qed.

Lemma order2_pairs_from_sorted (m a c : nat) :
  StronglySorted lex_lt (f1 ← seq a c; pair f1 <$> py_range f1 m).
Proof.
  revert a. induction c as [|c IH]; intros a; [constructor|].
  cbn [seq mbind list_bind]. apply StronglySorted_app_2.
  - intros [x1 y1] [x2 y2] H1 H2.
    apply list_elem_of_fmap in H1 as (z & [= -> ->] & _).
    apply list_elem_of_bind in H2 as (f1 & Hin & Hf1).
    apply list_elem_of_fmap in Hin as (f2 & [= -> ->] & _).
    apply elem_of_seq in Hf1. left. simpl. lia.
  - apply (StronglySorted_fmap _ lt); [|apply seq_sorted].
    intros x y Hxy. right. simpl. lia.
  - apply IH.
Qed.

(** The enumeration lists the pairs [i ≤ j < m] in increasing
    lexicographic order. *)
Lemma order2_pairs_sorted m : StronglySorted lex_lt (order2_pairs m).
Proof. apply order2_pairs_from_sorted. Qed.

Lemma order2_pairs_lookup_lt m k i j :
  order2_pairs m !! k = Some (i, j) → i ≤ j < m ∧ k < triangular m.
Proof.
  intros H. split.
  - apply elem_of_order2_pairs, list_elem_of_lookup. eauto.
  - rewrite <- order2_pairs_length. by eapply lookup_lt_Some.
Qed.

(** ** Columns of well-formed arrays *)

Lemma for_each_ext {S I : Type} (xs : list I) (f g : S → I → result S) s :
  (∀ st x, x ∈ xs → f st x = g st x) → for_each xs f s = for_each xs g s.
Proof.
  revert s. induction xs as [|x xs IH]; intros s Hfg; simpl; [done|].
  rewrite Hfg by left. destruct (g s x); simpl; [|done].
  apply IH. intros st y Hy. apply Hfg. by right.
Qed.

Section columns.
Context {T : Type}.
Implicit Types (X M : ndarray T) (v c : list T).

Lemma col_rows (rows : list (list T)) (m f : nat) :
  Forall (λ row, length row = m) rows → f < m →
  ∃ c, mapM (λ row : list T, row !! f) rows = Some c ∧ length c = length rows.
Proof.
  intros Hrows Hf. induction Hrows as [|row rows Hrow _ (c & Hc & Hlen)].
  - by exists [].
  - destruct (lookup_lt_is_Some_2 row f) as [x Hx]; [lia|].
    exists (x :: c). simpl. rewrite Hx, Hc. simpl. by rewrite Hlen.
Qed.

Lemma col_Ok X f :
  wf_ndarray X → f < shape1 X → ∃ c, col X f = Ok c ∧ length c = shape0 X.
Proof.
  intros [Hn Hrows] Hf. unfold col. rewrite bool_decide_true by done.
  destruct (col_rows _ _ f Hrows Hf) as (c & -> & Hlen).
  exists c. split; [done | congruence].
Qed.

Lemma set_col_Ok M k v :
  k < shape1 M → length v = shape0 M →
  set_col M k v =
    Ok (NdArray (shape0 M) (shape1 M)
          (zip_with (λ row x, <[k:=x]> row) (data M) v)).
Proof.
  intros Hk Hv. unfold set_col. by rewrite !bool_decide_true.
Qed.

Lemma wf_set_col M k v :
  wf_ndarray M → length v = shape0 M →
  wf_ndarray (NdArray (shape0 M) (shape1 M)
                (zip_with (λ row x, <[k:=x]> row) (data M) v)).
Proof.
  intros [Hn Hrows] Hv. split; simpl.
  - rewrite length_zip_with. lia.
  - clear Hn Hv. revert v.
    induction Hrows as [|row rows Hrow _ IH]; intros [|x v]; simpl;
      constructor; [by rewrite length_insert | apply IH].
Qed.

Lemma mapM_lookup_set_eq (rows : list (list T)) (m k : nat) v :
  Forall (λ row, length row = m) rows → k < m → length v = length rows →
  mapM (λ row : list T, row !! k) (zip_with (λ row x, <[k:=x]> row) rows v)
  = Some v.
Proof.
  intros Hrows Hk. revert v.
  induction Hrows as [|row rows Hrow _ IH]; intros [|x v] Hv;
    simpl in *; try done.
  rewrite list_lookup_insert_eq by lia. simpl.
  rewrite IH by lia. done.
Qed.

Lemma mapM_lookup_set_ne (rows : list (list T)) (k k' : nat) v :
  k' ≠ k → length v = length rows →
  mapM (λ row : list T, row !! k') (zip_with (λ row x, <[k:=x]> row) rows v)
  = mapM (λ row : list T, row !! k') rows.
Proof.
  intros Hk. revert v.
  induction rows as [|row rows IH]; intros [|x v] Hv; simpl in *; try done.
  rewrite list_lookup_insert_ne by done.
  rewrite IH by lia. done.
Qed.

Lemma col_set_col_eq M k v :
  wf_ndarray M → k < shape1 M → length v = shape0 M →
  col (NdArray (shape0 M) (shape1 M)
         (zip_with (λ row x, <[k:=x]> row) (data M) v)) k = Ok v.
Proof.
  intros [Hn Hrows] Hk Hv. unfold col. simpl.
  rewrite bool_decide_true by done.
  by rewrite (mapM_lookup_set_eq _ (shape1 M)) by (done || lia).
Qed.

Lemma col_set_col_ne M k k' v :
  wf_ndarray M → k' ≠ k → length v = shape0 M →
  col (NdArray (shape0 M) (shape1 M)
         (zip_with (λ row x, <[k:=x]> row) (data M) v)) k' = col M k'.
Proof.
  intros [Hn Hrows] Hk Hv. unfold col. simpl.
  by rewrite mapM_lookup_set_ne by (done || lia).
Qed.

Lemma wf_np_zeros (zero : T) n m : wf_ndarray (np_zeros zero n m).
Proof.
  split; simpl; [by rewrite length_replicate|].
  apply Forall_replicate. by rewrite length_replicate.
Qed.
End columns.

(** ** The pairwise expansions *)

Section expansion.
Context {T : Type}.
Implicit Types (X M : ndarray T).

Lemma pair_loop_inv comb X (ps : list (nat * nat)) M k :
  keeps_length comb →
  wf_ndarray X → wf_ndarray M → shape0 M = shape0 X →
  Forall (λ p, p.1 < shape1 X ∧ p.2 < shape1 X) ps →
  k + length ps ≤ shape1 M →
  ∃ M', for_each ps (λ st p, pair_body comb X st p.1 p.2) (M, k)
          = Ok (M', k + length ps)
      ∧ wf_ndarray M' ∧ shape0 M' = shape0 M ∧ shape1 M' = shape1 M
      ∧ (∀ k', k' < k → col M' k' = col M k')
      ∧ (∀ t i j, ps !! t = Some (i, j) →
           ∃ ci cj, col X i = Ok ci ∧ col X j = Ok cj
                    ∧ col M' (k + t) = Ok (comb ci cj)).
Proof.
  intros Hcomb HX. revert M k.
  induction ps as [|[i j] ps IH]; intros M k HM Hn Hps Hk.
  - exists M. simpl. rewrite Nat.add_0_r. repeat split; try done.
    all: apply HM.
  - apply Forall_cons in Hps as [[Hi Hj] Hps]. simpl in Hi, Hj, Hk.
    destruct (col_Ok X i HX Hi) as (ci & Hci & Hleni).
    destruct (col_Ok X j HX Hj) as (cj & Hcj & Hlenj).
    assert (Hlen : length (comb ci cj) = shape0 M)
      by (rewrite Hcomb; congruence).
    set (M1 := NdArray (shape0 M) (shape1 M)
                 (zip_with (λ row x, <[k:=x]> row) (data M) (comb ci cj))).
    destruct (IH M1 (k + 1)) as (M' & Hrun & HM' & Hn' & Hm' & Hold & Hnew).
    { by apply wf_set_col. }
    { done. }
    { done. }
    { simpl. lia. }
    exists M'. split; [|split; [done|split; [done|split; [done|split]]]].
    + assert (Hstep : pair_body comb X (M, k) i j = Ok (M1, k + 1)).
      { unfold pair_body. cbn [fst snd].
        rewrite Hci, bind_Ok, Hcj, bind_Ok, set_col_Ok by (done || lia).
        done. }
      cbn [for_each fst snd]. rewrite Hstep, bind_Ok, Hrun.
      f_equal. f_equal. simpl. lia.
    + intros k' Hk'. rewrite Hold by lia.
      apply col_set_col_ne; [done | lia | done].
    + intros [|t] i' j' Ht; simpl in Ht.
      * injection Ht as <- <-. exists ci, cj. split; [done|split; [done|]].
        rewrite Nat.add_0_r, Hold by lia.
        apply col_set_col_eq; [done | lia | done].
      * destruct (Hnew t i' j' Ht) as (ci' & cj' & ? & ? & Hc).
        exists ci', cj'. split; [done|split; [done|]].
        by replace (k + S t) with (k + 1 + t) by lia.
Qed.

(** What the two nested loops compute, for any column combinator. *)
Lemma pair_loop_spec comb X zero :
  keeps_length comb → wf_ndarray X →
  ∃ R, for_each (py_range 0 (shape1 X)) (λ st f1,
         for_each (py_range f1 (shape1 X)) (λ st' f2,
           pair_body comb X st' f1 f2) st)
         (np_zeros zero (shape0 X) (triangular (shape1 X)), 0)
       = Ok (R, triangular (shape1 X))
     ∧ wf_ndarray R ∧ shape0 R = shape0 X
     ∧ shape1 R = triangular (shape1 X)
     ∧ (∀ k i j, order2_pairs (shape1 X) !! k = Some (i, j) →
          ∃ ci cj, col X i = Ok ci ∧ col X j = Ok cj
                   ∧ col R k = Ok (comb ci cj)).
Proof.
  intros Hcomb HX.
  rewrite (for_each_nested _ (λ f1, py_range f1 (shape1 X))
             (λ st f1 f2, pair_body comb X st f1 f2)).
  fold (order2_pairs (shape1 X)).
  destruct (pair_loop_inv comb X (order2_pairs (shape1 X))
              (np_zeros zero (shape0 X) (triangular (shape1 X))) 0)
    as (R & Hrun & HR & Hn & Hm & _ & Hcols); try done.
  - apply wf_np_zeros.
  - apply Forall_forall. intros [i j] Hin.
    apply elem_of_order2_pairs in Hin. simpl. lia.
  - rewrite order2_pairs_length. simpl. lia.
  - exists R. rewrite Hrun, order2_pairs_length. done.
Qed.
End expansion.

Section expansion_functions.
Context {T : Type}.
Variables (zero : T) (mul add pow : T → T → T) (log : T → T).
Implicit Types (X R : ndarray T).

Lemma zip_with_keeps_length (f : T → T → T) :
  keeps_length (zip_with f).
Proof. intros c1 c2 H. rewrite length_zip_with. lia. Qed.

Lemma power_keeps_length (a b : T) :
  keeps_length (λ c1 c2,
    zip_with mul ((λ x, pow x a) <$> c1) ((λ x, pow x b) <$> c2)).
Proof. intros c1 c2 H. rewrite length_zip_with, !length_fmap. lia. Qed.

Lemma ablog_keeps_length (a b : T) :
  keeps_length (λ c1 c2,
    zip_with add ((λ x, mul a (log x)) <$> c1) ((λ x, mul b (log x)) <$> c2)).
Proof. intros c1 c2 H. rewrite length_zip_with, !length_fmap. lia. Qed.

(** Each expansion is the shared loop with its own column combinator. *)
Lemma get_order_2_unfold X :
  get_order_2 zero mul X =
  st ← for_each (py_range 0 (shape1 X)) (λ st f1,
         for_each (py_range f1 (shape1 X)) (λ st' f2,
           pair_body (zip_with mul) X st' f1 f2) st)
         (np_zeros zero (shape0 X) (triangular (shape1 X)), 0);
  Ok st.1.
Proof.
  unfold get_order_2. cbn [np_shape fst snd]. f_equal.
  apply for_each_ext. intros st f1 _. apply for_each_ext. by intros [M k] f2 _.
Qed.

Lemma get_order_2ab_unfold X a b :
  get_order_2ab zero mul pow X a b =
  st ← for_each (py_range 0 (shape1 X)) (λ st f1,
         for_each (py_range f1 (shape1 X)) (λ st' f2,
           pair_body (λ c1 c2, zip_with mul ((λ x, pow x a) <$> c1)
                                            ((λ x, pow x b) <$> c2))
             X st' f1 f2) st)
         (np_zeros zero (shape0 X) (triangular (shape1 X)), 0);
  Ok st.1.
Proof.
  unfold get_order_2ab. cbn [np_shape fst snd]. f_equal.
  apply for_each_ext. intros st f1 _. apply for_each_ext. by intros [M k] f2 _.
Qed.

Lemma get_ablog_unfold X a b :
  get_ablog zero mul add log X a b =
  st ← for_each (py_range 0 (shape1 X)) (λ st f1,
         for_each (py_range f1 (shape1 X)) (λ st' f2,
           pair_body (λ c1 c2, zip_with add ((λ x, mul a (log x)) <$> c1)
                                            ((λ x, mul b (log x)) <$> c2))
             X st' f1 f2) st)
         (np_zeros zero (shape0 X) (triangular (shape1 X)), 0);
  Ok st.1.
Proof.
  unfold get_ablog. cbn [np_shape fst snd]. f_equal.
  apply for_each_ext. intros st f1 _. apply for_each_ext. by intros [M k] f2 _.
Qed.

Lemma get_order_2_columns X :
  wf_ndarray X →
  ∃ R, get_order_2 zero mul X = Ok R
     ∧ wf_ndarray R ∧ shape0 R = shape0 X
     ∧ shape1 R = triangular (shape1 X)
     ∧ (∀ k i j, order2_pairs (shape1 X) !! k = Some (i, j) →
          ∃ ci cj, col X i = Ok ci ∧ col X j = Ok cj
                   ∧ col R k = Ok (zip_with mul ci cj)).
Proof.
  intros HX.
  destruct (pair_loop_spec (zip_with mul) X zero) as (R & Hrun & HR);
    [apply zip_with_keeps_length | done |].
  exists R. by rewrite get_order_2_unfold, Hrun.
Qed.

Lemma get_order_2ab_columns X a b :
  wf_ndarray X →
  ∃ R, get_order_2ab zero mul pow X a b = Ok R
     ∧ wf_ndarray R ∧ shape0 R = shape0 X
     ∧ shape1 R = triangular (shape1 X)
     ∧ (∀ k i j, order2_pairs (shape1 X) !! k = Some (i, j) →
          ∃ ci cj, col X i = Ok ci ∧ col X j = Ok cj
                   ∧ col R k = Ok (zip_with mul ((λ x, pow x a) <$> ci)
                                                ((λ x, pow x b) <$> cj))).
Proof.
  intros HX.
  destruct (pair_loop_spec
              (λ c1 c2, zip_with mul ((λ x, pow x a) <$> c1)
                                     ((λ x, pow x b) <$> c2)) X zero)
    as (R & Hrun & HR); [apply power_keeps_length | done |].
  exists R. by rewrite get_order_2ab_unfold, Hrun.
Qed.

Lemma get_ablog_columns X a b :
  wf_ndarray X →
  ∃ R, get_ablog zero mul add log X a b = Ok R
     ∧ wf_ndarray R ∧ shape0 R = shape0 X
     ∧ shape1 R = triangular (shape1 X)
     ∧ (∀ k i j, order2_pairs (shape1 X) !! k = Some (i, j) →
          ∃ ci cj, col X i = Ok ci ∧ col X j = Ok cj
                   ∧ col R k = Ok (zip_with add ((λ x, mul a (log x)) <$> ci)
                                                ((λ x, mul b (log x)) <$> cj))).
Proof.
  intros HX.
  destruct (pair_loop_spec
              (λ c1 c2, zip_with add ((λ x, mul a (log x)) <$> c1)
                                     ((λ x, mul b (log x)) <$> c2)) X zero)
    as (R & Hrun & HR); [apply ablog_keeps_length | done |].
  exists R. by rewrite get_ablog_unfold, Hrun.
Qed.

(** With both exponents equal to an exponent [one] that leaves every
    element unchanged, the power expansion is the plain one. *)
Lemma get_order_2ab_one X (one : T) :
  (∀ x, pow x one = x) →
  get_order_2ab zero mul pow X one one = get_order_2 zero mul X.
Proof.
  intros Hone. rewrite get_order_2ab_unfold, get_order_2_unfold. f_equal.
  apply for_each_ext. intros st f1 _. apply for_each_ext. intros st' f2 _.
  unfold pair_body. destruct (col X f1) as [c1|]; [|done].
  destruct (col X f2) as [c2|]; [|done]. cbn [mbind result_bind].
  assert (Hid : ∀ c : list T, (λ x, pow x one) <$> c = c).
  { intros c. rewrite <- (list_fmap_id c) at 2. apply list_fmap_ext. auto. }
  by rewrite !Hid.
Qed.

Lemma get_labels_order_2_eq (x : list string) :
  get_labels_order_2 x =
  Ok ((λ p, (x !!! p.1) +:+ "_x_" +:+ (x !!! p.2)) <$> order2_pairs (length x)).
Proof.
  unfold get_labels_order_2.
  rewrite (for_each_nested _ (λ f1, py_range f1 (length x))
             (λ acc f1 f2, x1 ← py_getitem x f1; x2 ← py_getitem x f2;
                           Ok (acc ++ [x1 +:+ "_x_" +:+ x2]))).
  fold (order2_pairs (length x)).
  rewrite (for_each_ext _ _
             (λ acc p, y ← (x1 ← py_getitem x p.1; x2 ← py_getitem x p.2;
                            Ok (x1 +:+ "_x_" +:+ x2));
                       Ok (acc ++ [y]))).
  - rewrite for_each_append.
    rewrite (mapM_result_Ok _ (λ p, (x !!! p.1) +:+ "_x_" +:+ (x !!! p.2))).
    + done.
    + apply Forall_forall. intros [i j] Hin.
      apply elem_of_order2_pairs in Hin. unfold py_getitem. simpl.
      rewrite !list_lookup_lookup_total_lt by lia. done.
  - intros acc [i j] _. simpl.
    destruct (py_getitem x i); [|done]. by destruct (py_getitem x j).
Qed.
End expansion_functions.

(** ** InteractionExpander: the statements *)

(** C4.  For every n x m matrix [X], [get_order_2] returns a matrix with n
    rows and m(m+1)/2 columns whose column k is the elementwise product of
    columns i and j of [X], where (i, j) is the k-th entry of
    [order2_pairs m]; that enumeration lists exactly the pairs i <= j < m in
    increasing lexicographic order (i outer, j inner).  On [[1,2],[3,4]] the
    result is [[1,2,4],[9,12,16]]. *)
Theorem get_order_2_triangular_products :
  (∀ (T : Type) (zero : T) (mul : T → T → T) (X : ndarray T),
     wf_ndarray X →
     ∃ R, get_order_2 zero mul X = Ok R
        ∧ wf_ndarray R
        ∧ shape0 R = shape0 X
        ∧ shape1 R = shape1 X * (shape1 X + 1) / 2
        ∧ length (order2_pairs (shape1 X)) = shape1 R
        ∧ (∀ k i j, order2_pairs (shape1 X) !! k = Some (i, j) →
             ∃ ci cj, col X i = Ok ci ∧ col X j = Ok cj
                      ∧ col R k = Ok (zip_with mul ci cj)))
  ∧ (∀ m, StronglySorted lex_lt (order2_pairs m)
          ∧ ∀ i j, (i, j) ∈ order2_pairs m ↔ i ≤ j < m)
  ∧ get_order_2 0%Z Z.mul (NdArray 2 2 [[1; 2]; [3; 4]]%Z)
    = Ok (NdArray 2 3 [[1; 2; 4]; [9; 12; 16]]%Z).
Proof.
  split; [|split].
  - intros T zero mul X HX.
    destruct (get_order_2_columns zero mul X HX)
      as (R & Hrun & HR & Hn & Hm & Hcols).
    exists R. rewrite order2_pairs_length, <- triangular_closed. done.
  - intros m. split; [apply order2_pairs_sorted|].
    intros i j. apply elem_of_order2_pairs.
  - reflexivity.
Qed.

Lemma get_order_2_triangular_products_witness :
  wf_ndarray (NdArray 2 2 [[1; 2]; [3; 4]]%Z)
  ∧ ∃ R, get_order_2 0%Z Z.mul (NdArray 2 2 [[1; 2]; [3; 4]]%Z) = Ok R
       ∧ shape0 R = 2 ∧ shape1 R = 3.
Proof.
  assert (H : wf_ndarray (NdArray 2 2 [[1; 2]; [3; 4]]%Z))
    by wf_by_computation.
  split; [exact H|].
  destruct (proj1 get_order_2_triangular_products Z 0%Z Z.mul _ H)
    as (R & Hrun & _ & Hn & Hm & _).
  exists R. split; [exact Hrun | split; [exact Hn | exact Hm]].
Defined.

(** C5.  For every label vector [x] of length m, [get_labels_order_2]
    returns a vector with one entry per column of [get_order_2] on an
    m-column matrix; its k-th entry is [x[i] + '_x_' + x[j]] for the k-th
    pair (i, j) of the very enumeration [get_order_2] uses, so label k names
    column k. *)
Theorem get_labels_order_2_aligned (x : list string) :
  ∃ L, get_labels_order_2 x = Ok L
     ∧ length L = triangular (length x)
     ∧ (∀ k i j, order2_pairs (length x) !! k = Some (i, j) →
          ∃ li lj, x !! i = Some li ∧ x !! j = Some lj
                   ∧ L !! k = Some (li +:+ "_x_" +:+ lj))
     ∧ (∀ (T : Type) (zero : T) (mul : T → T → T) (X : ndarray T),
          wf_ndarray X → shape1 X = length x →
          ∃ R, get_order_2 zero mul X = Ok R
             ∧ shape1 R = length L
             ∧ ∀ k, k < length L →
                 ∃ i j li lj ci cj,
                   i ≤ j < length x
                   ∧ x !! i = Some li ∧ x !! j = Some lj
                   ∧ L !! k = Some (li +:+ "_x_" +:+ lj)
                   ∧ col X i = Ok ci ∧ col X j = Ok cj
                   ∧ col R k = Ok (zip_with mul ci cj)).
Proof.
  set (L := (λ p : nat * nat, (x !!! p.1) +:+ "_x_" +:+ (x !!! p.2))
              <$> order2_pairs (length x)).
  assert (HlenL : length L = triangular (length x)).
  { unfold L. by rewrite length_fmap, order2_pairs_length. }
  assert (Hlab : ∀ k i j, order2_pairs (length x) !! k = Some (i, j) →
            ∃ li lj, x !! i = Some li ∧ x !! j = Some lj
                     ∧ L !! k = Some (li +:+ "_x_" +:+ lj)).
  { intros k i j Hk. pose proof (order2_pairs_lookup_lt _ _ _ _ Hk) as [Hij _].
    exists (x !!! i), (x !!! j).
    rewrite !list_lookup_lookup_total_lt by lia.
    unfold L. rewrite list_lookup_fmap, Hk. done. }
  exists L. split; [apply get_labels_order_2_eq|].
  split; [done|]. split; [done|].
  intros T zero mul X HX Hm.
  destruct (get_order_2_columns zero mul X HX)
    as (R & Hrun & HR & Hn & HmR & Hcols).
  exists R. split; [done|]. split; [rewrite HlenL; congruence|].
  intros k Hk.
  destruct (lookup_lt_is_Some_2 (order2_pairs (length x)) k) as [[i j] Hp].
  { rewrite order2_pairs_length. lia. }
  destruct (Hlab k i j Hp) as (li & lj & Hli & Hlj & HL).
  rewrite <- Hm in Hp. destruct (Hcols k i j Hp) as (ci & cj & Hci & Hcj & Hc).
  rewrite Hm in Hp. pose proof (order2_pairs_lookup_lt _ _ _ _ Hp) as [Hij _].
  exists i, j, li, lj, ci, cj. done.
Qed.

(** C6.  [get_order_2ab] enumerates the column pairs exactly as
    [get_order_2] does: column k of [get_order_2ab X a b] is
    [X[:, i]**a * X[:, j]**b] for the pair (i, j) whose product is column k
    of [get_order_2 X]; and when raising to the exponent [one] leaves every
    element unchanged, [get_order_2ab X one one] is [get_order_2 X]. *)
Theorem get_order_2ab_same_enumeration {T : Type} (zero : T)
    (mul pow : T → T → T) (X : ndarray T) (a b : T) :
  wf_ndarray X →
  ∃ R R2, get_order_2ab zero mul pow X a b = Ok R
        ∧ get_order_2 zero mul X = Ok R2
        ∧ wf_ndarray R
        ∧ shape0 R = shape0 R2 ∧ shape1 R = shape1 R2
        ∧ (∀ k, k < shape1 R →
             ∃ i j ci cj,
               order2_pairs (shape1 X) !! k = Some (i, j)
               ∧ col X i = Ok ci ∧ col X j = Ok cj
               ∧ col R2 k = Ok (zip_with mul ci cj)
               ∧ col R k = Ok (zip_with mul ((λ x, pow x a) <$> ci)
                                            ((λ x, pow x b) <$> cj)))
        ∧ (∀ one, (∀ x, pow x one = x) →
             get_order_2ab zero mul pow X one one = get_order_2 zero mul X).
Proof.
  intros HX.
  destruct (get_order_2ab_columns zero mul pow X a b HX)
    as (R & Hrun & HR & Hn & Hm & Hcols).
  destruct (get_order_2_columns zero mul X HX)
    as (R2 & Hrun2 & HR2 & Hn2 & Hm2 & Hcols2).
  exists R, R2. split; [done|]. split; [done|]. split; [done|].
  split; [congruence|]. split; [congruence|]. split.
  - intros k Hk.
    destruct (lookup_lt_is_Some_2 (order2_pairs (shape1 X)) k) as [[i j] Hp].
    { rewrite order2_pairs_length. lia. }
    destruct (Hcols k i j Hp) as (ci & cj & Hci & Hcj & Hc).
    destruct (Hcols2 k i j Hp) as (ci' & cj' & Hci' & Hcj' & Hc2).
    exists i, j, ci, cj. rewrite Hci in Hci'. rewrite Hcj in Hcj'.
    injection Hci' as <-. injection Hcj' as <-. done.
  - intros one Hone. by apply get_order_2ab_one.
Qed.

Lemma get_order_2ab_same_enumeration_witness :
  wf_ndarray (NdArray 2 2 [[1; 2]; [3; 4]]%Z)
  ∧ ∃ R, get_order_2ab 0%Z Z.mul Z.pow (NdArray 2 2 [[1; 2]; [3; 4]]%Z) 2%Z 3%Z
         = Ok R ∧ shape1 R = 3.
Proof.
  assert (H : wf_ndarray (NdArray 2 2 [[1; 2]; [3; 4]]%Z))
    by wf_by_computation.
  split; [exact H|].
  destruct (get_order_2ab_same_enumeration 0%Z Z.mul Z.pow _ 2%Z 3%Z H)
    as (R & R2 & Hrun & Hrun2 & _ & _ & Hm & _).
  exists R. split; [exact Hrun|].
  rewrite Hm. injection Hrun2 as <-. reflexivity.
Defined.

(** [get_ablog] fills the same columns in the same order as [get_order_2]:
    column k is [a*log(X[:, i]) + b*log(X[:, j])] for the k-th pair of
    [order2_pairs]. *)
Lemma get_ablog_same_enumeration {T : Type} (zero : T) (mul add : T → T → T)
    (log : T → T) (X : ndarray T) (a b : T) :
  wf_ndarray X →
  ∃ R, get_ablog zero mul add log X a b = Ok R
     ∧ wf_ndarray R ∧ shape0 R = shape0 X
     ∧ shape1 R = shape1 X * (shape1 X + 1) / 2
     ∧ (∀ k i j, order2_pairs (shape1 X) !! k = Some (i, j) →
          ∃ ci cj, col X i = Ok ci ∧ col X j = Ok cj
                   ∧ col R k = Ok (zip_with add ((λ x, mul a (log x)) <$> ci)
                                                ((λ x, mul b (log x)) <$> cj))).
Proof.
  intros HX.
  destruct (get_ablog_columns zero mul add log X a b HX)
    as (R & Hrun & HR & Hn & Hm & Hcols).
  exists R. by rewrite <- triangular_closed.
Qed.

Lemma get_ablog_same_enumeration_witness :
  ∃ R, get_ablog 0%Z Z.mul Z.add Z.log2 (NdArray 2 2 [[1; 2]; [4; 8]]%Z) 1%Z 1%Z
       = Ok R ∧ shape1 R = 3.
Proof.
  assert (HX : wf_ndarray (NdArray 2 2 [[1; 2]; [4; 8]]%Z))
    by wf_by_computation.
  destruct (get_ablog_same_enumeration 0%Z Z.mul Z.add Z.log2
              (NdArray 2 2 [[1; 2]; [4; 8]]%Z) 1%Z 1%Z HX)
    as (R & Hrun & _ & _ & Hm & _).
  exists R. split; [exact Hrun | exact Hm].
Defined.

(** ** Index selections *)

Lemma mapM_result_Forall {A B : Type} (f : A → result B) (P : B → Prop)
    (l : list A) :
  Forall (λ x, ∃ y, f x = Ok y ∧ P y) l →
  ∃ k, mapM f l = Ok k ∧ Forall P k ∧ length k = length l.
Proof.
  induction 1 as [|x l (y & Hy & HP) _ (k & Hk & HPk & Hlen)].
  - exists []. by repeat constructor.
  - exists (y :: k). simpl. rewrite Hy, Hk. simpl.
    split; [done|]. split; [by constructor | by rewrite Hlen].
Qed.

Lemma np_index_valid (m : nat) (z : Z) :
  (- Z.of_nat m ≤ z < Z.of_nat m)%Z → ∃ i, np_index m z = Ok i ∧ i < m.
Proof.
  intros Hz. unfold np_index. destruct (Z.ltb_spec z 0).
  - rewrite bool_decide_true by lia. eexists. split; [done | lia].
  - rewrite bool_decide_true by lia. eexists. split; [done | lia].
Qed.

Lemma py_getitem_lt {T : Type} (l : list T) (i : nat) :
  i < length l → ∃ x, py_getitem l i = Ok x.
Proof.
  intros Hi. unfold py_getitem.
  destruct (lookup_lt_is_Some_2 l i Hi) as [x ->]. eauto.
Qed.

Lemma take_items_valid {U : Type} (v : list U) (sel : list Z) :
  valid_selection (length v) sel →
  ∃ v', take_items v sel = Ok v' ∧ length v' = length sel.
Proof.
  intros Hsel. unfold take_items.
  destruct (mapM_result_Forall
              (λ z, i ← np_index (length v) z; py_getitem v i) (λ _, True) sel)
    as (v' & Hv' & _ & Hlen).
  - eapply Forall_impl; [exact Hsel|]. intros z Hz. simpl in Hz.
    destruct (np_index_valid _ _ Hz) as (i & -> & Hi).
    destruct (py_getitem_lt v i Hi) as [x Hx]. exists x. by rewrite bind_Ok.
  - by exists v'.
Qed.

Lemma take_cols_valid {T : Type} (X : ndarray T) (sel : list Z) :
  wf_ndarray X → valid_selection (shape1 X) sel →
  ∃ X', take_cols X sel = Ok X' ∧ wf_ndarray X'
      ∧ shape0 X' = shape0 X ∧ shape1 X' = length sel.
Proof.
  intros [Hn Hrows] Hsel. unfold take_cols.
  destruct (mapM_result_Forall (np_index (shape1 X)) (λ i, i < shape1 X) sel)
    as (idx & -> & Hidx & Hlen).
  { eapply Forall_impl; [exact Hsel|]. intros z Hz.
    by apply np_index_valid. }
  rewrite bind_Ok.
  destruct (mapM_result_Forall (λ row : list T, mapM (py_getitem row) idx)
              (λ row', length row' = length sel) (data X))
    as (rows & -> & Hrows' & Hlen').
  { eapply Forall_impl; [exact Hrows|]. intros row Hrow. simpl in Hrow.
    destruct (mapM_result_Forall (py_getitem row) (λ _, True) idx)
      as (row' & Hrow' & _ & Hl).
    - eapply Forall_impl; [exact Hidx|]. intros i Hi. simpl in Hi.
      destruct (py_getitem_lt row i) as [x Hx]; [lia|]. eauto.
    - exists row'. split; [done | congruence]. }
  rewrite bind_Ok. eexists. split; [done|].
  split; [|done]. split; simpl; [congruence | done].
Qed.

(** ** ScreeningReducer *)

Section do_sis_properties.
Context {T : Type}.
Variable sis : list T → ndarray T → Z → list Z.

Lemma requests_from_S c d :
  requests_from (S c) (S d) = Z.of_nat c :: requests_from c d.
Proof.
  unfold requests_from. cbn [seq fmap list_fmap]. f_equal; [lia|].
  rewrite <- fmap_S_seq, <- list_fmap_compose.
  apply list_fmap_ext. intros _ t _. simpl. lia.
Qed.

(** The loop from a state in which [shape] is one round behind [X]: [X]
    has [c] columns while [shape[1]] still reads [c + 1].  The test compares
    the old [shape] with [size], so the loop runs until [X] has [size - 1]
    columns. *)
Lemma do_sis_while_behind (d : nat) :
  honours_contract sis →
  ∀ fuel y size shape X lv calls,
    d ≤ fuel → wf_ndarray X → length lv = shape1 X →
    (1 ≤ size)%Z → shape.2 = shape1 X + 1 →
    (Z.of_nat shape.2 - size = Z.of_nat d)%Z →
    ∃ X' lv',
      do_sis_while sis fuel y size 1 shape X (Some lv) calls
        = Some (Ok (X', Some lv'), calls ++ requests_from (shape1 X) d)
      ∧ wf_ndarray X' ∧ shape0 X' = shape0 X
      ∧ Z.of_nat (shape1 X') = (size - 1)%Z ∧ length lv' = shape1 X'.
Proof.
  intros Hsis. induction d as [|d IH];
    intros fuel y size shape X lv calls Hfuel HX Hlv Hsize Hshape Hd.
  - exists X, lv. unfold requests_from. simpl. rewrite app_nil_r.
    assert (Hstop : do_sis_while sis fuel y size 1 shape X (Some lv) calls
                    = Some (Ok (X, Some lv), calls)).
    { destruct fuel; simpl; by rewrite bool_decide_false by lia. }
    rewrite Hstop. split; [done|]. split; [done|]. split; [done|].
    split; [lia | done].
  - destruct fuel as [|fuel]; [lia|]. cbn [do_sis_while].
    rewrite bool_decide_true by lia. cbn [np_shape snd].
    destruct (Hsis y X (Z.of_nat (shape1 X) - 1)%Z) as [Hlen Hvalid]; [lia|].
    destruct (take_cols_valid X _ HX Hvalid) as (X1 & -> & HX1 & Hn1 & Hm1).
    destruct (take_items_valid lv (sis y X (Z.of_nat (shape1 X) - 1)%Z))
      as (lv1 & -> & Hlv1); [by rewrite Hlv|].
    assert (Hc : shape1 X = S (shape1 X1)) by lia.
    destruct (IH fuel y size (shape0 X, shape1 X) X1 lv1
                (calls ++ [(Z.of_nat (shape1 X) - 1)%Z]))
      as (X' & lv' & Hrun & HX' & Hn' & Hm' & Hlv');
      [lia | done | lia | done | simpl; lia | simpl; lia |].
    exists X', lv'. change (np_shape X) with (shape0 X, shape1 X). rewrite Hrun.
    split; [|split; [done|split; [congruence|done]]].
    rewrite Hc, requests_from_S, <- app_assoc. simpl.
    do 4 f_equal. lia.
Qed.

(** From the first test on: nothing happens when [X] is already narrow
    enough; otherwise the loop makes one call more than the number of
    columns to drop, and returns one column fewer than asked for. *)
Lemma do_sis_step_one :
  honours_contract sis →
  ∀ fuel y size X lv,
    wf_ndarray X → length lv = shape1 X → (1 ≤ size)%Z →
    (size < Z.of_nat (shape1 X))%Z →
    Z.to_nat (Z.of_nat (shape1 X) - size + 1) ≤ fuel →
    ∃ X' lv',
      do_sis sis fuel X y (Some lv) (Some size) 1
        = Some (Ok (X', Some lv'),
                requests_from (shape1 X)
                  (Z.to_nat (Z.of_nat (shape1 X) - size + 1)))
      ∧ wf_ndarray X' ∧ shape0 X' = shape0 X
      ∧ Z.of_nat (shape1 X') = (size - 1)%Z ∧ length lv' = shape1 X'.
Proof.
  intros Hsis fuel y size X lv HX Hlv Hsize Hm Hfuel.
  unfold do_sis. cbn [len_labels np_shape snd fst].
  rewrite bool_decide_true by done.
  destruct fuel as [|fuel]; [lia|]. cbn [do_sis_while snd].
  unfold np_shape. cbn [fst snd]. rewrite bool_decide_true by lia.
  destruct (Hsis y X (Z.of_nat (shape1 X) - 1)%Z) as [Hlen Hvalid]; [lia|].
  destruct (take_cols_valid X _ HX Hvalid) as (X1 & -> & HX1 & Hn1 & Hm1).
  destruct (take_items_valid lv (sis y X (Z.of_nat (shape1 X) - 1)%Z))
    as (lv1 & -> & Hlv1); [by rewrite Hlv|].
  assert (Hc : shape1 X = S (shape1 X1)) by lia.
  destruct (do_sis_while_behind (Z.to_nat (Z.of_nat (shape1 X) - size)) Hsis
              fuel y size (shape0 X, shape1 X) X1 lv1
              ([] ++ [(Z.of_nat (shape1 X) - 1)%Z]))
    as (X' & lv' & Hrun & HX' & Hn' & Hm' & Hlv');
    [lia | done | lia | done | simpl; lia | simpl; lia |].
  exists X', lv'. rewrite Hrun.
  split; [|split; [done|split; [congruence|done]]].
  replace (Z.to_nat (Z.of_nat (shape1 X) - size + 1))
    with (S (Z.to_nat (Z.of_nat (shape1 X) - size))) by lia.
  rewrite Hc, requests_from_S. simpl. do 4 f_equal. lia.
Qed.
End do_sis_properties.

Lemma accept_first_honours_contract {T : Type} :
  honours_contract (@accept_first T).
Proof.
  intros y X k Hk. unfold accept_first. split.
  - by rewrite length_fmap, length_seq.
  - apply Forall_fmap, Forall_forall. intros i Hi.
    apply elem_of_seq in Hi. simpl. lia.
Qed.

(** [X] is already narrow enough: no oracle call, [X] and [l] come back
    unchanged. *)
Lemma do_sis_narrow_enough {T : Type} (sis : list T → ndarray T → Z → list Z)
    fuel (X : ndarray T) y lv (size : Z) increment :
  length lv = shape1 X → (Z.of_nat (shape1 X) ≤ size)%Z →
  do_sis sis fuel X y (Some lv) (Some size) increment
  = Some (Ok (X, Some lv), []).
Proof.
  intros Hlv Hsize. unfold do_sis. cbn [len_labels np_shape snd fst].
  rewrite bool_decide_true by done.
  destruct fuel; simpl; by rewrite bool_decide_false by lia.
Qed.

(** C1.  What [do_sis] does on a matrix with 6 columns and 6 labels for
    [size=2], [increment=1], with any oracle that returns exactly the
    requested number of column indices: the loop tests the shape taken
    before the previous reduction, so it calls the oracle 5 times (asking
    for 5, 4, 3, 2 and 1 columns) and returns 1 column with 1 label. *)
Theorem do_sis_six_columns {T : Type} (sis : list T → ndarray T → Z → list Z)
    (fuel : nat) (X : ndarray T) (y : list T) (lv : list string) :
  honours_contract sis →
  wf_ndarray X → shape1 X = 6 → length lv = 6 → 5 ≤ fuel →
  ∃ X' lv',
    do_sis sis fuel X y (Some lv) (Some 2%Z) 1
    = Some (Ok (X', Some lv'), [5; 4; 3; 2; 1]%Z)
    ∧ wf_ndarray X' ∧ shape0 X' = shape0 X
    ∧ shape1 X' = 1 ∧ length lv' = 1.
Proof.
  intros Hsis HX Hm Hlv Hfuel.
  destruct (do_sis_step_one sis Hsis fuel y 2%Z X lv)
    as (X' & lv' & Hrun & HX' & Hn' & Hm' & Hlv'); [done | lia | lia | lia | lia |].
  exists X', lv'. rewrite Hrun, Hm. split; [done|].
  split; [done|]. split; [done|]. split; lia.
Qed.

Lemma do_sis_six_columns_witness :
  ∃ X' lv',
    do_sis accept_first 5 (NdArray 1 6 [[10; 11; 12; 13; 14; 15]]%Z) [7%Z]
      (Some ["a"; "b"; "c"; "d"; "e"; "f"]) (Some 2%Z) 1
    = Some (Ok (X', Some lv'), [5; 4; 3; 2; 1]%Z)
    ∧ shape1 X' = 1 ∧ length lv' = 1.
Proof.
  destruct (do_sis_six_columns accept_first 5
              (NdArray 1 6 [[10; 11; 12; 13; 14; 15]]%Z) [7%Z]
              ["a"; "b"; "c"; "d"; "e"; "f"])
    as (X' & lv' & Hrun & _ & _ & Hm & Hlv).
  - apply accept_first_honours_contract.
  - wf_by_computation.
  - reflexivity.
  - reflexivity.
  - lia.
  - exists X', lv'. split; [exact Hrun | split; [exact Hm | exact Hlv]].
Defined.

(** C10.  With [l] left at [None], [do_sis] raises at the length check
    ([len(None)] is a [TypeError]) before any oracle call, whatever the
    other arguments; so a call that returns normally was given labels, one
    per column. *)
Theorem do_sis_labels_required {T : Type}
    (sis : list T → ndarray T → Z → list Z) (fuel : nat) (X : ndarray T)
    (y : list T) (size : option Z) (increment : Z) :
  do_sis sis fuel X y None size increment = Some (Raise TypeError, [])
  ∧ ∀ l r calls,
      do_sis sis fuel X y l size increment = Some (Ok r, calls) →
      ∃ lv, l = Some lv ∧ length lv = shape1 X.
Proof.
  split; [reflexivity|].
  intros [lv|] r calls; [|discriminate].
  unfold do_sis. cbn [len_labels np_shape snd].
  case_bool_decide as Hlen; [|discriminate]. eauto.
Qed.

(** [do_sis] in general, for [increment=1] and a target [size >= 1], with
    an oracle that honours its contract: a matrix that is already narrow
    enough comes back untouched without any call; a wider one is reduced
    to [size - 1] columns, one column and one call more than the target
    asks for. *)
Lemma do_sis_one_column_too_far {T : Type}
    (sis : list T → ndarray T → Z → list Z) (fuel : nat) (X : ndarray T)
    (y : list T) (lv : list string) (size : Z) :
  honours_contract sis → wf_ndarray X → length lv = shape1 X → (1 ≤ size)%Z →
  ((Z.of_nat (shape1 X) ≤ size)%Z →
     do_sis sis fuel X y (Some lv) (Some size) 1 = Some (Ok (X, Some lv), []))
  ∧ ((size < Z.of_nat (shape1 X))%Z →
     Z.to_nat (Z.of_nat (shape1 X) - size + 1) ≤ fuel →
     ∃ X' lv' calls,
       do_sis sis fuel X y (Some lv) (Some size) 1
       = Some (Ok (X', Some lv'), calls)
       ∧ length calls = Z.to_nat (Z.of_nat (shape1 X) - size + 1)
       ∧ wf_ndarray X' ∧ shape0 X' = shape0 X
       ∧ Z.of_nat (shape1 X') = (size - 1)%Z ∧ length lv' = shape1 X').
Proof.
  intros Hsis HX Hlv Hsize. split.
  - intros Hm. by apply do_sis_narrow_enough.
  - intros Hm Hfuel.
    destruct (do_sis_step_one sis Hsis fuel y size X lv HX Hlv Hsize Hm Hfuel)
      as (X' & lv' & Hrun & HX' & Hn' & Hm' & Hlv').
    exists X', lv', (requests_from (shape1 X)
                       (Z.to_nat (Z.of_nat (shape1 X) - size + 1))).
    split; [done|]. split; [|done].
    unfold requests_from. by rewrite length_fmap, length_seq.
Qed.

Lemma do_sis_one_column_too_far_witness :
  ∃ X' lv' calls,
    do_sis accept_first 3 (NdArray 1 4 [[10; 11; 12; 13]]%Z) [7%Z]
      (Some ["a"; "b"; "c"; "d"]) (Some 3%Z) 1
    = Some (Ok (X', Some lv'), calls)
    ∧ length calls = 2 ∧ Z.of_nat (shape1 X') = 2%Z.
Proof.
  assert (HX : wf_ndarray (NdArray 1 4 [[10; 11; 12; 13]]%Z))
    by wf_by_computation.
  destruct (do_sis_one_column_too_far accept_first 3
              (NdArray 1 4 [[10; 11; 12; 13]]%Z) [7%Z] ["a"; "b"; "c"; "d"] 3
              accept_first_honours_contract HX eq_refl) as [_ Hwide]; [lia|].
  destruct Hwide as (X' & lv' & calls & Hrun & Hcalls & _ & _ & Hm & _);
    [simpl; lia | simpl; lia |].
  exists X', lv', calls. split; [exact Hrun | split; [exact Hcalls | exact Hm]].
Defined.

(** ** DatasetPartitioner *)

Lemma mapM_result_Forall2 {A B : Type} (f : A → result B) (l : list A) k :
  mapM f l = Ok k → Forall2 (λ x y, f x = Ok y) l k.
Proof.
  revert k. induction l as [|x l IH]; intros k; simpl.
  - intros [= <-]. constructor.
  - destruct (f x) as [y|] eqn:Hy; simpl; [|done].
    destruct (mapM f l) as [k'|]; simpl; [|done].
    intros [= <-]. constructor; [done | by apply IH].
Qed.

Lemma take_rows_valid {T : Type} (X : ndarray T) (idx : list nat) :
  wf_ndarray X → Forall (λ i, i < shape0 X) idx →
  ∃ G, take_rows X idx = Ok G ∧ wf_ndarray G
     ∧ shape0 G = length idx ∧ shape1 G = shape1 X
     ∧ Forall2 (λ i row, data X !! i = Some row) idx (data G).
Proof.
  intros [Hn Hrows] Hidx. unfold take_rows.
  destruct (mapM_result_Forall (py_getitem (data X))
              (λ row, length row = shape1 X) idx) as (rows & Hrun & Hlen & Hl).
  { eapply Forall_impl; [exact Hidx|]. intros i Hi. simpl in Hi.
    destruct (lookup_lt_is_Some_2 (data X) i) as [row Hrow]; [lia|].
    exists row. unfold py_getitem. rewrite Hrow. split; [done|].
    eapply Forall_lookup_1 in Hrows; [|exact Hrow]. done. }
  rewrite Hrun, bind_Ok. eexists. split; [done|].
  split; [by split|]. split; [done|]. split; [done|]. simpl.
  apply mapM_result_Forall2 in Hrun.
  eapply Forall2_impl; [exact Hrun|]. intros i row. unfold py_getitem. simpl.
  destruct (data X !! i); [by intros [= ->] | done].
Qed.

Lemma Forall_py_slice {A : Type} (P : A → Prop) (l : list A) (a b : Z) :
  Forall P l → Forall P (py_slice l a b).
Proof. intros H. unfold py_slice. by apply Forall_take, Forall_drop. Qed.

Lemma length_py_slice {A : Type} (l : list A) (a b : Z) :
  length (py_slice l a b)
  = slice_bound (length l) b - slice_bound (length l) a.
Proof.
  unfold py_slice. rewrite length_take, length_drop.
  assert (slice_bound (length l) b ≤ length l); [|lia].
  unfold slice_bound. destruct (Z.ltb_spec b 0); lia.
Qed.

(** Consecutive slices glue together. *)
Lemma take_py_slice {A : Type} (l : list A) (lo hi : Z) :
  (0 ≤ lo ≤ hi)%Z →
  take (Z.to_nat lo) l ++ py_slice l lo hi = take (Z.to_nat hi) l.
Proof.
  intros Hlh. unfold py_slice, slice_bound.
  rewrite !(proj2 (Z.ltb_ge _ 0)) by lia.
  destruct (decide (Z.of_nat (length l) ≤ lo)%Z) as [Hge|Hlt].
  - rewrite !Z.min_r by lia. rewrite !Nat2Z.id, Nat.sub_diag, take_0, app_nil_r.
    rewrite !take_ge by lia. done.
  - rewrite (Z.min_l lo) by lia.
    rewrite take_take_drop. destruct (decide (hi ≤ Z.of_nat (length l))%Z).
    + rewrite Z.min_l by lia. f_equal. lia.
    + rewrite Z.min_r by lia. rewrite Nat2Z.id.
      rewrite !take_ge by lia. done.
Qed.

Lemma slices_of_chain {A : Type} (l : list A) (bs : list (Z * Z)) (lo : Z) :
  (0 ≤ lo)%Z → is_chain lo bs →
  take (Z.to_nat lo) l ++ concat ((λ b, py_slice l b.1 b.2) <$> bs)
  = take (Z.to_nat (chain_end lo bs)) l.
Proof.
  revert lo. induction bs as [|[a b] bs IH]; intros lo Hlo Hch; simpl.
  - by rewrite app_nil_r.
  - destruct Hch as (Ha & Hle & Hch). simpl in Ha, Hle, Hch. subst a.
    rewrite app_assoc, take_py_slice by lia. apply IH; [lia | done].
Qed.

Section split_properties.
Context {T : Type} {F : float_model} {rng : Type}.
Variable shuffle : rng → list nat → list nat * rng.

(** Without replacement, on valid row numbers, the loop appends one group
    per pair of bounds: the rows of [X] at that slice of [index]. *)
Lemma fpmatrix_split_for_bounds (X : ndarray T) (index : list nat) (g : rng)
    (count : nat) :
  wf_ndarray X → Forall (λ i, i < shape0 X) index →
  ∀ fix_size (n : pynum F) r s1 s2 dataset bs,
    split_bounds count fix_size n r s1 s2 = Ok bs →
    ∃ groups,
      fpmatrix_split_for shuffle count X fix_size false n r s1 s2 index g
        dataset = (Ok (dataset ++ groups), g)
      ∧ Forall2 (λ b G, take_rows X (py_slice index b.1 b.2) = Ok G) bs groups.
Proof.
  intros HX Hindex. induction count as [|count IH];
    intros fix_size n r s1 s2 dataset bs Hbs; simpl in Hbs.
  - injection Hbs as <-. exists []. simpl. by rewrite app_nil_r.
  - apply bind_Ok_inv in Hbs as (lo & Hlo & Hbs).
    apply bind_Ok_inv in Hbs as (hi & Hhi & Hbs).
    apply bind_Ok_inv in Hbs as (bs' & Hbs' & [= <-]).
    destruct (take_rows_valid X (py_slice index lo hi) HX)
      as (G & HG & _); [by apply Forall_py_slice|].
    cbn [fpmatrix_split_for]. rewrite Hlo, bind_Ok, Hhi, bind_Ok, HG.
    destruct fix_size as [fs|].
    + destruct (IH _ _ _ _ _ (dataset ++ [G]) _ Hbs') as (groups & -> & Hgroups).
      exists (G :: groups). rewrite <- app_assoc. split; [done|].
      by constructor.
    + destruct (IH _ _ _ _ _ (dataset ++ [G]) _ Hbs') as (groups & -> & Hgroups).
      exists (G :: groups). rewrite <- app_assoc. split; [done|].
      by constructor.
Qed.
End split_properties.

(** *** Groups as rows of [X] *)

Lemma take_rows_lookup {T : Type} (X G : ndarray T) (idx : list nat) :
  take_rows X idx = Ok G →
  shape0 G = length idx ∧ shape1 G = shape1 X
  ∧ Forall2 (λ i row, data X !! i = Some row) idx (data G).
Proof.
  unfold take_rows. intros H.
  apply bind_Ok_inv in H as (rows & Hrows & [= <-]). simpl.
  split; [done|]. split; [done|].
  apply mapM_result_Forall2 in Hrows.
  eapply Forall2_impl; [exact Hrows|]. intros i row. unfold py_getitem. simpl.
  destruct (data X !! i); [by intros [= ->] | done].
Qed.

Lemma Forall2_concat_2 {A B : Type} (P : A → B → Prop) ls1 ls2 :
  Forall2 (Forall2 P) ls1 ls2 → Forall2 P (concat ls1) (concat ls2).
Proof.
  induction 1 as [|l1 l2 ls1 ls2 H _ IH]; simpl; [constructor|].
  by apply Forall2_app.
Qed.

Lemma Forall2_lookup_seq {A : Type} (l k : list A) :
  Forall2 (λ i x, l !! i = Some x) (seq 0 (length l)) k → k = l.
Proof.
  intros H. apply list_eq. intros i.
  pose proof (Forall2_length _ _ _ H) as Hlen. rewrite length_seq in Hlen.
  destruct (decide (i < length l)) as [Hi|Hi].
  - destruct (lookup_lt_is_Some_2 k i) as [x Hx]; [lia|].
    rewrite Hx. symmetry.
    eapply (Forall2_lookup_lr _ _ _ i i x) in H; [done | | done].
    by rewrite lookup_seq_lt.
  - rewrite !lookup_ge_None_2 by lia. done.
Qed.

(** Row numbers that are a rearrangement of [0 .. len - 1] select a
    rearrangement of the rows. *)
Lemma rows_of_permutation {T : Type} (X : ndarray T) (idx : list nat) rows :
  wf_ndarray X → idx ≡ₚ seq 0 (shape0 X) →
  Forall2 (λ i row, data X !! i = Some row) idx rows →
  rows ≡ₚ data X.
Proof.
  intros [Hn _] Hperm Hrows.
  destruct (Permutation_Forall2 Hperm Hrows) as (rows' & Hp & Hrows').
  rewrite <- Hn in Hrows'. apply Forall2_lookup_seq in Hrows'.
  by rewrite Hp, Hrows'.
Qed.

Lemma Forall2_functional {A B : Type} (f : A → result B) (l : list A) k1 k2 :
  Forall2 (λ x y, f x = Ok y) l k1 → Forall2 (λ x y, f x = Ok y) l k2 →
  k1 = k2.
Proof.
  intros H1. revert k2. induction H1 as [|x y l k1 Hy _ IH]; intros k2 H2.
  - by inversion H2.
  - inversion H2 as [|? y' ? k2' Hy' H2']; subst.
    rewrite Hy in Hy'. injection Hy' as <-. f_equal. by apply IH.
Qed.

Section split_theorems.
Context {T : Type} {rng : Type}.
Variable shuffle : rng → list nat → list nat * rng.

(** [fpmatrix_split] for [fix_size=None], [replacement=False], over any
    float arithmetic: when the division and the bounds come out without an
    exception, the groups are the rows at the slices of the shuffled row
    numbers. *)
Lemma fpmatrix_split_even_bounds {F : float_model} (X : ndarray T)
    (nsplit : Z) (g : rng) (n : pynum F) (bs : list (Z * Z)) :
  shuffle_permutes shuffle → wf_ndarray X →
  py_truediv (Z.of_nat (shape0 X)) nsplit = Ok n →
  split_bounds (Z.to_nat nsplit) None n (Z.of_nat (shape0 X) `mod` nsplit)%Z
    (PyInt 0) (py_add n (PyInt (Z.min 1 (Z.of_nat (shape0 X) `mod` nsplit))))
  = Ok bs →
  ∃ groups,
    fpmatrix_split (F:=F) shuffle X nsplit None false g
    = (Ok groups, (shuffle g (seq 0 (shape0 X))).2)
    ∧ Forall2 (λ b G,
         take_rows X (py_slice (shuffle g (seq 0 (shape0 X))).1 b.1 b.2)
         = Ok G) bs groups.
Proof.
  intros Hsh HX Hn Hbs. unfold fpmatrix_split, py_range.
  rewrite Nat.sub_0_r. pose proof (Hsh g (seq 0 (shape0 X))) as Hperm.
  destruct (shuffle g (seq 0 (shape0 X))) as [index g'] eqn:Hshuf.
  simpl in Hperm. rewrite Hn. cbn [fst snd].
  assert (Hvalid : Forall (λ i, i < shape0 X) index).
  { rewrite Hperm. apply Forall_forall. intros i Hi.
    apply elem_of_seq in Hi. lia. }
  destruct (fpmatrix_split_for_bounds shuffle X index g' (Z.to_nat nsplit)
              HX Hvalid _ _ _ _ _ [] _ Hbs) as (groups & Hrun & Hgroups).
  exists groups. by rewrite Hrun.
Qed.
End split_theorems.

Lemma group_sizes {T : Type} (X : ndarray T) (index : list nat) bs groups :
  Forall2 (λ b G, take_rows X (py_slice index b.1 b.2) = Ok G) bs groups →
  shape0 <$> groups
  = (λ b, slice_bound (length index) b.2 - slice_bound (length index) b.1)
      <$> bs.
Proof.
  induction 1 as [|b G bs groups HG _ IH]; [done|].
  rewrite !fmap_cons, IH. f_equal.
  apply take_rows_lookup in HG as (-> & _ & _).
  by rewrite length_py_slice.
Qed.

Lemma reverse_shuffle_permutes : shuffle_permutes reverse_shuffle.
Proof. intros g l. simpl. apply reverse_Permutation. Qed.

(** Bounds that chain up from 0 and reach the last row cut the shuffled
    row numbers into groups that partition the rows, whatever the float
    arithmetic that produced them. *)
Lemma fpmatrix_split_covering {T rng : Type} {F : float_model}
    (shuffle : rng → list nat → list nat * rng) (X : ndarray T)
    (nsplit : Z) (g : rng) (n : pynum F) (bs : list (Z * Z)) :
  shuffle_permutes shuffle → wf_ndarray X →
  py_truediv (Z.of_nat (shape0 X)) nsplit = Ok n →
  split_bounds (Z.to_nat nsplit) None n (Z.of_nat (shape0 X) `mod` nsplit)%Z
    (PyInt 0) (py_add n (PyInt (Z.min 1 (Z.of_nat (shape0 X) `mod` nsplit))))
  = Ok bs →
  is_chain 0 bs → (Z.of_nat (shape0 X) ≤ chain_end 0 bs)%Z →
  ∃ groups parts,
    fpmatrix_split (F:=F) shuffle X nsplit None false g
    = (Ok groups, (shuffle g (seq 0 (shape0 X))).2)
    ∧ length groups = length bs
    ∧ Forall2 (λ part G, take_rows X part = Ok G) parts groups
    ∧ concat parts ≡ₚ seq 0 (shape0 X)
    ∧ NoDup (concat parts)
    ∧ (∀ i, i < shape0 X ↔ i ∈ concat parts)
    ∧ concat (data <$> groups) ≡ₚ data X.
Proof.
  intros Hsh HX Hn Hbs Hch Hend.
  destruct (fpmatrix_split_even_bounds shuffle X nsplit g n bs Hsh HX Hn Hbs)
    as (groups & Hrun & Hgroups).
  pose proof (Hsh g (seq 0 (shape0 X))) as Hperm.
  set (index := (shuffle g (seq 0 (shape0 X))).1) in *.
  set (parts := (λ b : Z * Z, py_slice index b.1 b.2) <$> bs).
  assert (Hparts : concat parts = index).
  { pose proof (slices_of_chain index bs 0 ltac:(lia) Hch) as Hcat.
    rewrite take_0 in Hcat. simpl in Hcat. fold parts in Hcat.
    rewrite Hcat. apply take_ge.
    apply Permutation_length in Hperm. rewrite length_seq in Hperm. lia. }
  assert (Hpg : Forall2 (λ part G, take_rows X part = Ok G) parts groups).
  { unfold parts. by apply Forall2_fmap_l. }
  exists groups, parts. split; [done|].
  split; [by rewrite <- (Forall2_length _ _ _ Hgroups)|].
  split; [done|]. rewrite Hparts. split; [done|].
  split; [rewrite Hperm; apply NoDup_seq|].
  split.
  - intros i. rewrite Hperm, elem_of_seq. lia.
  - apply (rows_of_permutation X index); [done | done |].
    rewrite <- Hparts. apply Forall2_concat_2, Forall2_fmap_r.
    eapply Forall2_impl; [exact Hpg|]. intros part G HG. simpl.
    by apply take_rows_lookup in HG as (_ & _ & ?).
Qed.

(** C2.  What [fpmatrix_split] does on 6 rows for [nsplit=4] and
    [fix_size=None]: [n = 6 / 4] is the float 1.5, which already carries
    the remainder that [min(1, r)] adds again, so the bounds are 0, 2, 5, 6,
    8 and the groups have 2, 3, 1 and 0 rows.  Binary64 and exact float
    arithmetic agree on this run. *)
Theorem fpmatrix_split_six_rows_in_four {T rng : Type}
    (shuffle : rng → list nat → list nat * rng) (X : ndarray T) (g : rng) :
  shuffle_permutes shuffle → wf_ndarray X → shape0 X = 6 →
  ∃ groups,
    fpmatrix_split (F:=binary64) shuffle X 4 None false g
    = (Ok groups, (shuffle g (seq 0 6)).2)
    ∧ fpmatrix_split (F:=exact_floats) shuffle X 4 None false g
      = (Ok groups, (shuffle g (seq 0 6)).2)
    ∧ shape0 <$> groups = [2; 3; 1; 0].
Proof.
  intros Hsh HX H6.
  pose proof (fpmatrix_split_even_bounds (F:=binary64) shuffle X 4 g
                (@PyFloat binary64 1.5%float) [(0, 2); (2, 5); (5, 6); (6, 8)]%Z Hsh HX)
    as Hb.
  pose proof (fpmatrix_split_even_bounds (F:=exact_floats) shuffle X 4 g
                (@PyFloat exact_floats (inject_Z 6 / inject_Z 4)%Q)
                [(0, 2); (2, 5); (5, 6); (6, 8)]%Z Hsh HX) as He.
  rewrite H6 in Hb, He.
  destruct Hb as (groups & Hrun & Hgroups); [by vm_compute | by vm_compute |].
  destruct He as (groups' & Hrun' & Hgroups'); [by vm_compute | by vm_compute |].
  pose proof (Forall2_functional _ _ _ _ Hgroups Hgroups') as <-.
  exists groups. split; [done|]. split; [done|].
  rewrite (group_sizes _ _ _ _ Hgroups).
  pose proof (Hsh g (seq 0 6)) as Hperm. apply Permutation_length in Hperm.
  rewrite Hperm. reflexivity.
Qed.

Lemma fpmatrix_split_six_rows_in_four_witness :
  ∃ groups,
    fpmatrix_split (F:=binary64) reverse_shuffle
      (NdArray 6 1 [[10]; [11]; [12]; [13]; [14]; [15]]%Z) 4 None false tt
    = (Ok groups, tt)
    ∧ shape0 <$> groups = [2; 3; 1; 0].
Proof.
  destruct (fpmatrix_split_six_rows_in_four reverse_shuffle
              (NdArray 6 1 [[10]; [11]; [12]; [13]; [14]; [15]]%Z) tt)
    as (groups & Hrun & _ & Hsizes).
  - exact reverse_shuffle_permutes.
  - wf_by_computation.
  - reflexivity.
  - exists groups. split; [exact Hrun | exact Hsizes].
Defined.

(** *** Binary64 arithmetic, checked row count by row count *)

Lemma is_chainb_correct lo bs : is_chainb lo bs = true → is_chain lo bs.
Proof.
  revert lo. induction bs as [|b bs IH]; intros lo; simpl; [done|].
  rewrite !andb_true_iff, Z.eqb_eq, Z.leb_le. intros [[? ?] ?]. auto.
Qed.

Lemma b64_covers_upto_64 :
  forallb (λ len, forallb (λ k, b64_covers (Z.of_nat len) (Z.of_nat (S k)))
                    (seq 0 64)) (seq 0 65) = true.
Proof. vm_compute. reflexivity. Qed.

Lemma b64_covers_small (len : nat) (nsplit : Z) :
  len ≤ 64 → (1 ≤ nsplit ≤ 64)%Z → b64_covers (Z.of_nat len) nsplit = true.
Proof.
  intros Hlen Hns. pose proof b64_covers_upto_64 as H.
  rewrite forallb_forall in H. specialize (H len).
  rewrite forallb_forall in H.
  replace nsplit with (Z.of_nat (S (Z.to_nat nsplit - 1))) by lia.
  apply H; apply in_seq; lia.
Qed.

Lemma split_bounds_length {F : float_model} (count : nat) :
  ∀ fix_size (n : pynum F) r s1 s2 bs,
    split_bounds count fix_size n r s1 s2 = Ok bs → length bs = count.
Proof.
  induction count as [|count IH]; intros fix_size n r s1 s2 bs; simpl.
  - by intros [= <-].
  - intros H. apply bind_Ok_inv in H as (lo & _ & H).
    apply bind_Ok_inv in H as (hi & _ & H).
    apply bind_Ok_inv in H as (bs' & Hbs' & [= <-]). simpl. f_equal.
    destruct fix_size; eapply IH; exact Hbs'.
Qed.

(** Every split of at most 64 rows into at most 64 groups partitions the
    rows in binary64 arithmetic too. *)
Lemma fpmatrix_split_partitions_binary64 {T rng : Type}
    (shuffle : rng → list nat → list nat * rng) (X : ndarray T)
    (nsplit : Z) (g : rng) :
  shuffle_permutes shuffle → wf_ndarray X →
  shape0 X ≤ 64 → (1 ≤ nsplit ≤ 64)%Z →
  ∃ groups parts,
    fpmatrix_split (F:=binary64) shuffle X nsplit None false g
    = (Ok groups, (shuffle g (seq 0 (shape0 X))).2)
    ∧ length groups = Z.to_nat nsplit
    ∧ Forall2 (λ part G, take_rows X part = Ok G) parts groups
    ∧ concat parts ≡ₚ seq 0 (shape0 X)
    ∧ NoDup (concat parts)
    ∧ (∀ i, i < shape0 X ↔ i ∈ concat parts)
    ∧ concat (data <$> groups) ≡ₚ data X.
Proof.
  intros Hsh HX Hlen Hns.
  pose proof (b64_covers_small (shape0 X) nsplit Hlen Hns) as Hcov.
  unfold b64_covers, b64_bounds in Hcov.
  destruct (py_truediv (F:=binary64) (Z.of_nat (shape0 X)) nsplit)
    as [n|] eqn:Hn; [|done].
  rewrite bind_Ok in Hcov.
  destruct (split_bounds _ _ _ _ _ _) as [bs|] eqn:Hbs; [|done].
  apply andb_true_iff in Hcov as [Hch Hend].
  apply is_chainb_correct in Hch. apply Z.leb_le in Hend.
  destruct (fpmatrix_split_covering shuffle X nsplit g n bs Hsh HX Hn Hbs
              Hch Hend) as (groups & parts & Hrun & Hlg & Hrest).
  exists groups, parts. split; [done|]. split; [|done].
  rewrite Hlg. by eapply split_bounds_length.
Qed.

Lemma fpmatrix_split_partitions_binary64_witness :
  ∃ groups,
    fpmatrix_split (F:=binary64) reverse_shuffle
      (NdArray 5 1 [[10]; [11]; [12]; [13]; [14]]%Z) 3 None false tt
    = (Ok groups, tt)
    ∧ concat (data <$> groups) ≡ₚ [[10]; [11]; [12]; [13]; [14]]%Z.
Proof.
  destruct (fpmatrix_split_partitions_binary64 reverse_shuffle
              (NdArray 5 1 [[10]; [11]; [12]; [13]; [14]]%Z) 3 tt)
    as (groups & parts & Hrun & _ & _ & _ & _ & _ & Hrows).
  - exact reverse_shuffle_permutes.
  - wf_by_computation.
  - simpl. lia.
  - lia.
  - exists groups. split; [exact Hrun | exact Hrows].
Defined.

(** *** Fixed group size *)

Section fixed_size.
Context {T : Type} {F : float_model} {rng : Type}.
Variable shuffle : rng → list nat → list nat * rng.

(** With or without reshuffling, each round appends the rows at one slice
    of a rearrangement of the row numbers; the group sizes only depend on
    the bounds. *)
Lemma fpmatrix_split_for_sizes (X : ndarray T) (replacement : bool)
    (count : nat) :
  shuffle_permutes shuffle → wf_ndarray X →
  ∀ fix_size (n : pynum F) r s1 s2 index g dataset bs,
    index ≡ₚ seq 0 (shape0 X) →
    split_bounds count fix_size n r s1 s2 = Ok bs →
    ∃ groups g',
      fpmatrix_split_for shuffle count X fix_size replacement n r s1 s2
        index g dataset = (Ok (dataset ++ groups), g')
      ∧ shape0 <$> groups
        = (λ b, slice_bound (shape0 X) b.2 - slice_bound (shape0 X) b.1)
            <$> bs.
Proof.
  intros Hsh HX. induction count as [|count IH];
    intros fix_size n r s1 s2 index g dataset bs Hperm Hbs; simpl in Hbs.
  - injection Hbs as <-. exists [], g. simpl. by rewrite app_nil_r.
  - apply bind_Ok_inv in Hbs as (lo & Hlo & Hbs).
    apply bind_Ok_inv in Hbs as (hi & Hhi & Hbs).
    apply bind_Ok_inv in Hbs as (bs' & Hbs' & [= <-]).
    cbn [fpmatrix_split_for].
    set (st := if replacement then shuffle g index else (index, g)).
    assert (Hst : st.1 ≡ₚ seq 0 (shape0 X)).
    { unfold st. destruct replacement; [|done]. by rewrite Hsh. }
    destruct st as [index1 g1]. simpl in Hst.
    assert (Hvalid : Forall (λ i, i < shape0 X) index1).
    { rewrite Hst. apply Forall_forall. intros i Hi.
      apply elem_of_seq in Hi. lia. }
    destruct (take_rows_valid X (py_slice index1 lo hi) HX)
      as (G & HG & _ & HnG & _); [by apply Forall_py_slice|].
    rewrite Hlo, bind_Ok, Hhi, bind_Ok, HG.
    assert (Hsize : shape0 G
                    = slice_bound (shape0 X) hi - slice_bound (shape0 X) lo).
    { rewrite HnG, length_py_slice.
      apply Permutation_length in Hst. rewrite length_seq in Hst.
      by rewrite Hst. }
    destruct fix_size as [fs|].
    + destruct (IH _ _ _ _ _ index1 g1 (dataset ++ [G]) _ Hst Hbs')
        as (groups & g' & -> & Hsizes).
      exists (G :: groups), g'. rewrite <- app_assoc. split; [done|].
      rewrite !fmap_cons, Hsizes. by rewrite Hsize.
    + destruct (IH _ _ _ _ _ index1 g1 (dataset ++ [G]) _ Hst Hbs')
        as (groups & g' & -> & Hsizes).
      exists (G :: groups), g'. rewrite <- app_assoc. split; [done|].
      rewrite !fmap_cons, Hsizes. by rewrite Hsize.
Qed.

Lemma split_bounds_fixed (count : nat) (fs : Z) :
  ∀ (n : pynum F) r (a : Z),
    split_bounds count (Some fs) n r (PyInt a) (PyInt (a + fs))
    = Ok ((λ k, (a + Z.of_nat k * fs, a + Z.of_nat k * fs + fs)%Z)
            <$> seq 0 count).
Proof.
  induction count as [|count IH]; intros n r a; [done|].
  cbn [split_bounds py_int py_add]. rewrite !bind_Ok, IH, bind_Ok.
  cbn [seq fmap list_fmap]. f_equal. f_equal; [f_equal; lia|].
  rewrite <- fmap_S_seq, <- list_fmap_compose.
  apply list_fmap_ext. intros _ k _. simpl. f_equal; lia.
Qed.

(** [fpmatrix_split] with [fix_size] given: when the rows suffice, [nsplit]
    groups of exactly [fix_size] rows each, with or without replacement;
    otherwise the assertion fails. *)
Lemma fpmatrix_split_fixed_size (X : ndarray T) (nsplit fix_size : Z)
    (replacement : bool) (g : rng) :
  shuffle_permutes shuffle → wf_ndarray X →
  (0 ≤ nsplit)%Z → (0 ≤ fix_size)%Z →
  ((nsplit * fix_size ≤ Z.of_nat (shape0 X))%Z →
     ∃ groups g',
       fpmatrix_split (F:=F) shuffle X nsplit (Some fix_size) replacement g
       = (Ok groups, g')
       ∧ length groups = Z.to_nat nsplit
       ∧ Forall (λ G, shape0 G = Z.to_nat fix_size) groups)
  ∧ ((Z.of_nat (shape0 X) < nsplit * fix_size)%Z →
     fpmatrix_split (F:=F) shuffle X nsplit (Some fix_size) replacement g
     = (Raise AssertionError, g)).
Proof.
  intros Hsh HX Hns Hfs. unfold fpmatrix_split, py_range.
  rewrite Nat.sub_0_r. split; intros Hlen.
  - rewrite bool_decide_true by lia.
    pose proof (Hsh g (seq 0 (shape0 X))) as Hperm.
    destruct (shuffle g (seq 0 (shape0 X))) as [index g1]. simpl in Hperm.
    destruct (fpmatrix_split_for_sizes X replacement (Z.to_nat nsplit) Hsh HX
                (Some fix_size) (PyInt 0) 0%Z (PyInt 0) (PyInt fix_size)
                index g1 [] _ Hperm (split_bounds_fixed _ fix_size _ _ 0%Z))
      as (groups & g' & Hrun & Hsizes).
    exists groups, g'. split; [exact Hrun|].
    assert (Hl : length groups = Z.to_nat nsplit).
    { rewrite <- (length_fmap shape0), Hsizes, !length_fmap. apply length_seq. }
    split; [done|].
    apply Forall_forall. intros G HG.
    apply (list_elem_of_fmap_2 shape0) in HG. rewrite Hsizes in HG.
    apply list_elem_of_fmap in HG as (b & -> & Hb).
    apply list_elem_of_fmap in Hb as (k & -> & Hk).
    apply elem_of_seq in Hk. simpl. unfold slice_bound.
    rewrite !(proj2 (Z.ltb_ge _ 0)) by nia. nia.
  - by rewrite bool_decide_false by lia.
Qed.
End fixed_size.

Lemma fpmatrix_split_fixed_size_witness :
  ∃ groups,
    fpmatrix_split (F:=binary64) reverse_shuffle
      (NdArray 5 1 [[10]; [11]; [12]; [13]; [14]]%Z) 2 (Some 2%Z) true tt
    = (Ok groups, tt)
    ∧ Forall (λ G, shape0 G = 2) groups.
Proof.
  assert (HX : wf_ndarray (NdArray 5 1 [[10]; [11]; [12]; [13]; [14]]%Z))
    by wf_by_computation.
  destruct (fpmatrix_split_fixed_size (F:=binary64) reverse_shuffle
              (NdArray 5 1 [[10]; [11]; [12]; [13]; [14]]%Z) 2 2 true tt
              reverse_shuffle_permutes HX) as [Hok _]; [lia | lia |].
  destruct Hok as (groups & [] & Hrun & _ & Hsizes); [simpl; lia|].
  exists groups. split; [exact Hrun | exact Hsizes].
Defined.

(** ** Binary64 arithmetic: rounding keeps the order

    What [fpmatrix_split] needs of IEEE 754 arithmetic is that a rounded
    sum or quotient is never on the other side of a binary64 number than
    the exact one.  It is derived here from the specification of the
    kernel's floats ([SpecFloat]), for positive numbers in the normal
    range. *)

Section binary64_rounding.
Local Open Scope Z_scope.

Lemma digits2_pos_bounds (p : positive) :
  2 ^ (Z.pos (digits2_pos p) - 1) ≤ Z.pos p < 2 ^ Z.pos (digits2_pos p).
Proof.
  induction p as [p IH|p IH|]; cbn [digits2_pos].
  - rewrite Pos2Z.inj_succ, (Pos2Z.inj_xI p).
    replace (Z.succ (Z.pos (digits2_pos p)) - 1)
      with (Z.succ (Z.pos (digits2_pos p) - 1)) by lia.
    rewrite !Z.pow_succ_r by lia. lia.
  - rewrite Pos2Z.inj_succ, (Pos2Z.inj_xO p).
    replace (Z.succ (Z.pos (digits2_pos p)) - 1)
      with (Z.succ (Z.pos (digits2_pos p) - 1)) by lia.
    rewrite !Z.pow_succ_r by lia. lia.
  - simpl. lia.
Qed.

Lemma digits2_pos_unique (p : positive) (d : Z) :
  2 ^ (d - 1) ≤ Z.pos p < 2 ^ d → Z.pos (digits2_pos p) = d.
Proof.
  intros [Hlo Hhi]. pose proof (digits2_pos_bounds p) as [Hlo' Hhi'].
  assert (0 < d).
  { destruct (Z.lt_trichotomy 0 d) as [?|[<-|Hneg]]; [done | simpl in Hhi; lia |].
    rewrite (Z.pow_neg_r 2 d) in Hhi by lia. lia. }
  assert (d - 1 < Z.pos (digits2_pos p)).
  { apply (Z.pow_lt_mono_r_iff 2); lia. }
  assert (Z.pos (digits2_pos p) - 1 < d).
  { apply (Z.pow_lt_mono_r_iff 2); lia. }
  lia.
Qed.

Lemma iter_pos_nat {A : Type} (f : A → A) (p : positive) (x : A) :
  SpecFloat.iter_pos f p x = Nat.iter (Pos.to_nat p) f x.
Proof.
  revert x. induction p as [p IH|p IH|]; intros x; cbn [SpecFloat.iter_pos].
  - rewrite !IH, Pos2Nat.inj_xI.
    replace (S (2 * Pos.to_nat p))%nat
      with (Pos.to_nat p + (Pos.to_nat p + 1))%nat by lia.
    rewrite !Nat.iter_add. simpl. done.
  - rewrite !IH, Pos2Nat.inj_xO.
    replace (2 * Pos.to_nat p)%nat with (Pos.to_nat p + Pos.to_nat p)%nat by lia.
    by rewrite Nat.iter_add.
  - done.
Qed.

Lemma shr_1_m (mrs : shr_record) :
  0 ≤ shr_m mrs → shr_m (shr_1 mrs) = shr_m mrs / 2.
Proof.
  destruct mrs as [m r s]. cbn [shr_m]. intros Hm.
  destruct m as [|[p|p|]|p]; cbn [shr_1 shr_m]; try done; try lia.
  - rewrite (Pos2Z.inj_xI p). apply (Z.div_unique _ 2 _ 1); lia.
  - rewrite (Pos2Z.inj_xO p). apply (Z.div_unique _ 2 _ 0); lia.
Qed.

Lemma shr_1_exact (mrs : shr_record) :
  0 ≤ shr_m mrs → shr_r mrs = false → shr_s mrs = false →
  (2 | shr_m mrs) →
  shr_r (shr_1 mrs) = false ∧ shr_s (shr_1 mrs) = false.
Proof.
  destruct mrs as [m r s]. cbn [shr_m shr_r shr_s]. intros Hm -> -> [t Ht].
  destruct m as [|[p|p|]|p]; cbn [shr_1 shr_r shr_s orb]; try done; lia.
Qed.

Lemma iter_shr_1 (n : nat) (mrs : shr_record) :
  0 ≤ shr_m mrs →
  0 ≤ shr_m (Nat.iter n shr_1 mrs)
  ∧ shr_m (Nat.iter n shr_1 mrs) = shr_m mrs / 2 ^ Z.of_nat n
  ∧ (shr_r mrs = false → shr_s mrs = false → (2 ^ Z.of_nat n | shr_m mrs) →
     shr_r (Nat.iter n shr_1 mrs) = false
     ∧ shr_s (Nat.iter n shr_1 mrs) = false).
Proof.
  intros Hm. induction n as [|n (IH0 & IHm & IHe)].
  - simpl. rewrite Z.div_1_r. done.
  - cbn [Nat.iter nat_rect]. fold (Nat.iter n shr_1 mrs).
    rewrite shr_1_m by done. rewrite IHm, Nat2Z.inj_succ, Z.pow_succ_r by lia.
    assert (0 < 2 ^ Z.of_nat n) by (apply Z.pow_pos_nonneg; lia).
    split; [apply Z.div_pos; [apply Z.div_pos|]; lia|].
    split; [rewrite Z.div_div by lia; f_equal; lia|].
    intros Hr Hs [t Ht].
    destruct IHe as [Hr' Hs']; [done | done | exists (2 * t); lia |].
    apply shr_1_exact; [done | done | done |].
    rewrite IHm. exists t. rewrite Ht.
    replace (t * (2 * 2 ^ Z.of_nat n)) with (t * 2 * 2 ^ Z.of_nat n) by lia.
    rewrite Z.div_mul by lia. lia.
Qed.

(** [shr]: the mantissa is divided by [2^k], rounding down, and the
    record stays exact when nothing is shifted out. *)
Lemma shr_spec (mrs : shr_record) (e k : Z) :
  0 ≤ shr_m mrs → 0 ≤ k →
  ∃ mrs', shr mrs e k = (mrs', e + k)
        ∧ shr_m mrs' = shr_m mrs / 2 ^ k
        ∧ (shr_r mrs = false → shr_s mrs = false → (2 ^ k | shr_m mrs) →
           shr_r mrs' = false ∧ shr_s mrs' = false).
Proof.
  intros Hm Hk. destruct k as [|p|p]; [| |lia].
  - exists mrs. cbn [shr]. rewrite Z.add_0_r, Z.div_1_r. done.
  - cbn [shr]. rewrite iter_pos_nat.
    destruct (iter_shr_1 (Pos.to_nat p) mrs Hm) as (_ & Hm' & He).
    rewrite positive_nat_Z in Hm', He. eexists. done.
Qed.

Lemma round_nearest_even_cases (m : Z) (l : location) :
  round_nearest_even m l = m ∨ round_nearest_even m l = m + 1.
Proof.
  destruct l as [|[| |]]; cbn [round_nearest_even]; auto.
  destruct (Z.even m); auto.
Qed.

(** No number with a 53 bit mantissa lies strictly between two adjacent
    numbers with a full 53 bit mantissa. *)
Lemma float_gap (M K mc j : Z) :
  2 ^ 52 ≤ M → 0 ≤ K → 0 ≤ mc < 2 ^ 53 → 0 ≤ j →
  mc * 2 ^ j < (M + 1) * 2 ^ K → mc * 2 ^ j ≤ M * 2 ^ K.
Proof.
  intros HM HK Hmc Hj Hlt.
  assert (H52 : 2 ^ 53 = 2 * 2 ^ 52) by done.
  destruct (Z.le_gt_cases K j) as [HKj|HKj].
  - assert (E : 2 ^ j = 2 ^ (j - K) * 2 ^ K)
      by (rewrite <- Z.pow_add_r by lia; f_equal; lia).
    assert (0 < 2 ^ K) by (apply Z.pow_pos_nonneg; lia).
    rewrite E, Z.mul_assoc in Hlt |- *.
    apply Z.mul_lt_mono_pos_r in Hlt; [|done].
    apply Z.mul_le_mono_nonneg_r; lia.
  - assert (E : 2 ^ K = 2 * 2 ^ (K - j - 1) * 2 ^ j).
    { rewrite <- (Z.pow_succ_r 2 (K - j - 1)), <- Z.pow_add_r by lia.
      f_equal. lia. }
    assert (0 < 2 ^ j) by (apply Z.pow_pos_nonneg; lia).
    assert (0 < 2 ^ (K - j - 1)) by (apply Z.pow_pos_nonneg; lia).
    rewrite E. rewrite !Z.mul_assoc.
    apply Z.mul_le_mono_nonneg_r; [lia|]. nia.
Qed.
End binary64_rounding.

Section binary64_round_aux.
Local Open Scope Z_scope.

Lemma fexp_normal (e : Z) : -1021 ≤ e → fexp prec emax e = e - 53.
Proof. unfold fexp, SpecFloat.emin, prec, emax. lia. Qed.

Lemma shr_m_of_loc (m : Z) (l : location) :
  shr_m (shr_record_of_loc m l) = m.
Proof. by destruct l as [|[| |]]. Qed.

Lemma shr_fexp_spec (m e : Z) (l : location) (k : Z) :
  0 ≤ m → k = fexp prec emax (Zdigits2 m + e) - e → 0 ≤ k →
  ∃ mrs', shr_fexp prec emax m e l = (mrs', e + k)
        ∧ shr_m mrs' = m / 2 ^ k
        ∧ (l = loc_Exact → (2 ^ k | m) → loc_of_shr_record mrs' = loc_Exact).
Proof.
  intros Hm -> Hk. unfold shr_fexp.
  destruct (shr_spec (shr_record_of_loc m l) e
              (fexp prec emax (Zdigits2 m + e) - e))
    as (mrs' & Hshr & Hm' & Hex); [by rewrite shr_m_of_loc | done |].
  exists mrs'. rewrite shr_m_of_loc in Hm', Hex. split; [done|].
  split; [done|]. intros -> Hdiv.
  destruct Hex as [Hr Hs]; [done | done | done |].
  destruct mrs' as [m' r s]. cbn [shr_r shr_s] in Hr, Hs. by subst.
Qed.

(** Rounding a mantissa of at least 53 bits in the normal range: the
    result is finite and normal, it is the number below or the number
    above, and the number itself when nothing is cut off. *)
Lemma binary_round_aux_normal (p : positive) (ex : Z) (lx : location) :
  53 ≤ Z.pos (digits2_pos p) → -1074 ≤ ex →
  Z.pos (digits2_pos p) + ex ≤ 1000 →
  ∃ (m' : positive) (e' : Z),
    binary_round_aux prec emax false (Z.pos p) ex lx = S754_finite false m' e'
    ∧ ex ≤ e' ≤ 971
    ∧ 2 ^ 52 ≤ Z.pos m' < 2 ^ 53
    ∧ 2 ^ 52 ≤ Z.pos p / 2 ^ (Z.pos (digits2_pos p) - 53)
    ∧ (Z.pos m' * 2 ^ (e' - ex)
       = Z.pos p / 2 ^ (Z.pos (digits2_pos p) - 53)
         * 2 ^ (Z.pos (digits2_pos p) - 53)
       ∨ Z.pos m' * 2 ^ (e' - ex)
         = (Z.pos p / 2 ^ (Z.pos (digits2_pos p) - 53) + 1)
           * 2 ^ (Z.pos (digits2_pos p) - 53))
    ∧ (lx = loc_Exact → (2 ^ (Z.pos (digits2_pos p) - 53) | Z.pos p) →
       Z.pos m' * 2 ^ (e' - ex) = Z.pos p).
Proof.
  intros Hd Hex Hov. pose proof (digits2_pos_bounds p) as [Hlo Hhi].
  set (dg := Z.pos (digits2_pos p)) in *. set (k := dg - 53).
  assert (Hk : 0 ≤ k) by (unfold k; lia).
  assert (H2k : 0 < 2 ^ k) by (apply Z.pow_pos_nonneg; lia).
  assert (Hpow : 2 ^ dg = 2 ^ 53 * 2 ^ k).
  { rewrite <- Z.pow_add_r by lia. f_equal. unfold k. lia. }
  assert (Hpow' : 2 ^ (dg - 1) = 2 ^ 52 * 2 ^ k).
  { rewrite <- Z.pow_add_r by lia. f_equal. unfold k. lia. }
  set (M := Z.pos p / 2 ^ k).
  assert (HM : 2 ^ 52 ≤ M < 2 ^ 53).
  { unfold M. split.
    - apply Z.div_le_lower_bound; [done|]. lia.
    - apply Z.div_lt_upper_bound; [done|]. lia. }
  destruct (shr_fexp_spec (Z.pos p) ex lx k) as (mrs1 & E1 & Hm1 & Hex1);
    [lia | | done |].
  { cbn [Zdigits2]. fold dg. rewrite fexp_normal by lia. unfold k. lia. }
  fold M in Hm1.
  set (m1 := round_nearest_even (shr_m mrs1) (loc_of_shr_record mrs1)).
  assert (Hm1c : m1 = M ∨ m1 = M + 1).
  { unfold m1. rewrite Hm1. apply round_nearest_even_cases. }
  assert (Hm1e : lx = loc_Exact → (2 ^ k | Z.pos p) → m1 = M).
  { intros Hl Hdiv. unfold m1. by rewrite (Hex1 Hl Hdiv), Hm1. }
  assert (Hcases : (m1 < 2 ^ 53 ∧ Zdigits2 m1 = 53)
                   ∨ (m1 = 2 ^ 53 ∧ Zdigits2 m1 = 54)).
  { destruct (Z.lt_ge_cases m1 (2 ^ 53)) as [Hlt|Hge].
    - left. split; [done|]. destruct m1 as [|q|q] eqn:Hq; [lia| |lia].
      cbn [Zdigits2]. apply digits2_pos_unique. lia.
    - right. assert (m1 = 2 ^ 53) as -> by lia. done. }
  unfold binary_round_aux. rewrite E1. cbv beta iota zeta. fold m1.
  destruct Hcases as [[Hlt Hdig]|[Heq Hdig]].
  - destruct (shr_fexp_spec m1 (ex + k) loc_Exact 0)
      as (mrs2 & E2 & Hm2 & _); [lia | | done |].
    { rewrite Hdig, fexp_normal by lia. lia. }
    rewrite E2. cbv beta iota zeta. rewrite Hm2, Z.div_1_r.
    destruct m1 as [|q|q] eqn:Hq; [lia| |lia].
    rewrite (proj2 (Z.leb_le _ _)) by (unfold emax, prec, k; lia).
    exists q, (ex + k + 0). split; [done|]. split; [unfold k; lia|].
    split; [lia|]. split; [exact (proj1 HM)|].
    replace (ex + k + 0 - ex) with k by lia. split.
    + destruct Hm1c as [->| ->]; auto.
    + intros Hl Hdiv. rewrite (Hm1e Hl Hdiv). unfold M.
      destruct Hdiv as [t Ht]. rewrite Ht, Z.div_mul by lia. done.
  - destruct (shr_fexp_spec m1 (ex + k) loc_Exact 1)
      as (mrs2 & E2 & Hm2 & _); [lia | | done |].
    { rewrite Hdig, fexp_normal by lia. lia. }
    rewrite E2. cbv beta iota zeta. rewrite Hm2, Heq.
    change (2 ^ 53 / 2 ^ 1) with (Z.pos (Z.to_pos (2 ^ 52))).
    cbv beta iota zeta.
    rewrite (proj2 (Z.leb_le _ _)) by (unfold emax, prec, k; lia).
    exists (Z.to_pos (2 ^ 52)), (ex + k + 1). split; [done|].
    split; [unfold k; lia|]. split; [done|]. split; [exact (proj1 HM)|].
    replace (ex + k + 1 - ex) with (k + 1) by lia.
    rewrite Z.pow_add_r by lia.
    change (Z.pos (Z.to_pos (2 ^ 52)) * (2 ^ k * 2 ^ 1)) with
      (2 ^ 52 * (2 ^ k * 2)).
    assert (HM1 : M + 1 = 2 ^ 53) by lia.
    split.
    + right. rewrite HM1. change (2 ^ 53) with (2 ^ 52 * 2). lia.
    + intros Hl Hdiv. specialize (Hm1e Hl Hdiv). lia.
Qed.
End binary64_round_aux.

Section binary64_monotone.
Local Open Scope Z_scope.

(** The rounding of the rational [N/D * 2^ex] against any 53 bit number
    [mc * 2^j], both counted in units of [2^-1074]: whatever is below the
    exact value is below the rounded one, and whatever is above is
    above. *)
Lemma binary_round_aux_mono (N D : Z) (p : positive) (ex : Z) (lx : location) :
  0 < D → Z.pos p = N / D → (N mod D = 0 → lx = loc_Exact) →
  53 ≤ Z.pos (digits2_pos p) → -1074 ≤ ex →
  Z.pos (digits2_pos p) + ex ≤ 1000 →
  ∃ (m' : positive) (e' : Z),
    binary_round_aux prec emax false (Z.pos p) ex lx = S754_finite false m' e'
    ∧ -1074 ≤ e' ≤ 971
    ∧ 2 ^ 52 ≤ Z.pos m' < 2 ^ 53
    ∧ ∀ mc j, 0 ≤ mc < 2 ^ 53 → 0 ≤ j →
        (mc * 2 ^ j * D ≤ N * 2 ^ (ex + 1074) →
         mc * 2 ^ j ≤ Z.pos m' * 2 ^ (e' + 1074))
        ∧ (N * 2 ^ (ex + 1074) ≤ mc * 2 ^ j * D →
           Z.pos m' * 2 ^ (e' + 1074) ≤ mc * 2 ^ j).
Proof.
  intros HD Hp Hexact Hdg Hex Hov.
  destruct (binary_round_aux_normal p ex lx Hdg Hex Hov)
    as (m' & e' & Hrun & He' & Hm' & HM & Hcase & Hex').
  exists m', e'. split; [done|]. split; [lia|]. split; [done|].
  set (k := Z.pos (digits2_pos p) - 53) in *.
  set (M := Z.pos p / 2 ^ k) in *.
  set (W := Z.pos m' * 2 ^ (e' - ex)) in *.
  set (S := 2 ^ (ex + 1074)).
  assert (Hk : 0 ≤ k) by (unfold k; lia).
  assert (H2k : 0 < 2 ^ k) by (apply Z.pow_pos_nonneg; lia).
  assert (HS : 0 < S) by (apply Z.pow_pos_nonneg; lia).
  assert (HV : Z.pos m' * 2 ^ (e' + 1074) = W * S).
  { unfold W, S. rewrite <- Z.mul_assoc, <- Z.pow_add_r by lia.
    do 2 f_equal. lia. }
  assert (HK : 2 ^ (k + (ex + 1074)) = 2 ^ k * S).
  { unfold S. by rewrite Z.pow_add_r by lia. }
  pose proof (Z.mul_div_le N D HD) as HNlo.
  pose proof (Z.mul_succ_div_gt N D HD) as HNhi.
  rewrite <- Hp in HNlo, HNhi.
  pose proof (Z.mul_div_le (Z.pos p) (2 ^ k) H2k) as Hplo.
  pose proof (Z.mul_succ_div_gt (Z.pos p) (2 ^ k) H2k) as Hphi.
  fold M in Hplo, Hphi.
  assert (HWlo : M * 2 ^ k ≤ W) by (destruct Hcase as [->| ->]; lia).
  assert (HWhi : W ≤ (M + 1) * 2 ^ k) by (destruct Hcase as [->| ->]; lia).
  intros mc j Hmc Hj. rewrite HV. set (c := mc * 2 ^ j).
  assert (Hgap : c < (M + 1) * 2 ^ (k + (ex + 1074)) →
                 c ≤ M * 2 ^ (k + (ex + 1074))).
  { apply float_gap; lia. }
  rewrite HK in Hgap.
  split.
  - intros Hc.
    assert (Hlt : c * D < (M + 1) * (2 ^ k * S) * D).
    { apply Z.le_lt_trans with (N * S); [done|].
      apply Z.lt_le_trans with (D * Z.succ (Z.pos p) * S).
      - apply Z.mul_lt_mono_pos_r; lia.
      - replace ((M + 1) * (2 ^ k * S) * D)
          with (D * ((M + 1) * 2 ^ k) * S) by ring.
        apply Z.mul_le_mono_nonneg_r; [lia|].
        apply Z.mul_le_mono_nonneg_l; lia. }
    apply Z.mul_lt_mono_pos_r in Hlt; [|done].
    apply Z.le_trans with (M * (2 ^ k * S)); [by apply Hgap|].
    rewrite Z.mul_assoc. apply Z.mul_le_mono_nonneg_r; lia.
  - intros Hc.
    assert (Hle : M * (2 ^ k * S) * D ≤ c * D).
    { apply Z.le_trans with (N * S); [|done].
      apply Z.le_trans with (D * Z.pos p * S).
      - replace (M * (2 ^ k * S) * D) with (D * (2 ^ k * M) * S) by ring.
        apply Z.mul_le_mono_nonneg_r; [lia|].
        apply Z.mul_le_mono_nonneg_l; lia.
      - apply Z.mul_le_mono_nonneg_r; lia. }
    apply Z.mul_le_mono_pos_r in Hle; [|done].
    destruct (Z.eq_dec (M * (2 ^ k * S)) c) as [Heq|Hne].
    + assert (HpM : Z.pos p = 2 ^ k * M).
      { apply Z.le_antisymm; [|done].
        apply (Z.mul_le_mono_pos_r _ _ (S * D)); [lia|].
        apply Z.le_trans with (N * S).
        - replace (Z.pos p * (S * D)) with (D * Z.pos p * S) by ring.
          apply Z.mul_le_mono_nonneg_r; lia.
        - rewrite <- Heq in Hc. etrans; [exact Hc|]. apply Z.eq_le_incl. ring. }
      assert (HN : N = D * Z.pos p).
      { apply Z.le_antisymm; [|done].
        apply (Z.mul_le_mono_pos_r _ _ S); [done|].
        rewrite <- Heq in Hc. etrans; [exact Hc|]. rewrite HpM.
        apply Z.eq_le_incl. ring. }
      assert (HW : W = Z.pos p).
      { apply Hex'.
        - apply Hexact. rewrite HN, Z.mul_comm. apply Z.mod_mul. lia.
        - exists M. lia. }
      rewrite HW, <- Heq, HpM. apply Z.eq_le_incl. ring.
    + assert (Hge : (M + 1) * (2 ^ k * S) ≤ c).
      { destruct (Z.le_gt_cases ((M + 1) * (2 ^ k * S)) c) as [?|Hlt]; [done|].
        specialize (Hgap Hlt). lia. }
      etrans; [|exact Hge]. rewrite Z.mul_assoc.
      apply Z.mul_le_mono_nonneg_r; lia.
Qed.

Lemma pos_iter_xO (p d : positive) :
  Z.pos (Pos.iter xO p d) = Z.pos p * 2 ^ Z.pos d.
Proof.
  change (Pos.iter xO p d) with (shift_pos d p).
  rewrite shift_pos_correct. change (Z.pow_pos 2 d) with (2 ^ Z.pos d). lia.
Qed.

Lemma shl_align_fst (m : positive) (e ez : Z) :
  ez ≤ e → Z.pos (fst (shl_align m e ez)) = Z.pos m * 2 ^ (e - ez).
Proof.
  intros Hle. unfold shl_align. destruct (ez - e) as [|d|d] eqn:Hd; cbn [fst].
  - replace (e - ez) with 0 by lia. simpl. lia.
  - lia.
  - rewrite pos_iter_xO. f_equal. f_equal. lia.
Qed.

(** [binary_round] of a positive number in the normal range. *)
Lemma binary_round_mono (p : positive) (ez : Z) :
  -1074 ≤ ez → 2 ^ 52 ≤ Z.pos p * 2 ^ (ez + 1074) < 2 ^ 2000 →
  ∃ (m' : positive) (e' : Z),
    binary_round prec emax false p ez = S754_finite false m' e'
    ∧ -1074 ≤ e' ≤ 971
    ∧ 2 ^ 52 ≤ Z.pos m' < 2 ^ 53
    ∧ ∀ mc j, 0 ≤ mc < 2 ^ 53 → 0 ≤ j →
        (mc * 2 ^ j ≤ Z.pos p * 2 ^ (ez + 1074) →
         mc * 2 ^ j ≤ Z.pos m' * 2 ^ (e' + 1074))
        ∧ (Z.pos p * 2 ^ (ez + 1074) ≤ mc * 2 ^ j →
           Z.pos m' * 2 ^ (e' + 1074) ≤ mc * 2 ^ j).
Proof.
  intros Hez [Hlo Hhi]. pose proof (digits2_pos_bounds p) as [Hdlo Hdhi].
  set (dg := Z.pos (digits2_pos p)) in *.
  assert (HS : 0 < 2 ^ (ez + 1074)) by (apply Z.pow_pos_nonneg; lia).
  assert (Hnormal : -1021 ≤ dg + ez).
  { assert (2 ^ 52 < 2 ^ (dg + (ez + 1074))).
    { rewrite Z.pow_add_r by lia. nia. }
    apply Z.pow_lt_mono_r_iff in H; lia. }
  assert (Hsmall : dg + ez ≤ 1000).
  { assert (2 ^ (dg - 1 + (ez + 1074)) < 2 ^ 2000).
    { rewrite Z.pow_add_r by lia. nia. }
    apply Z.pow_lt_mono_r_iff in H; lia. }
  unfold binary_round. fold dg. rewrite fexp_normal by done.
  unfold shl_align. destruct (dg + ez - 53 - ez) as [|d|d] eqn:Hd.
  - destruct (binary_round_aux_mono (Z.pos p) 1 p ez loc_Exact)
      as (m' & e' & Hrun & He' & Hm' & Hmono);
      [lia | by rewrite Z.div_1_r | done | fold dg; lia | done | fold dg; lia |].
    exists m', e'. split; [done|]. split; [done|]. split; [done|].
    intros mc j Hmc Hj. specialize (Hmono mc j Hmc Hj).
    by rewrite Z.mul_1_r in Hmono.
  - destruct (binary_round_aux_mono (Z.pos p) 1 p ez loc_Exact)
      as (m' & e' & Hrun & He' & Hm' & Hmono);
      [lia | by rewrite Z.div_1_r | done | fold dg; lia | done | fold dg; lia |].
    exists m', e'. split; [done|]. split; [done|]. split; [done|].
    intros mc j Hmc Hj. specialize (Hmono mc j Hmc Hj).
    by rewrite Z.mul_1_r in Hmono.
  - assert (Hq : Z.pos (Pos.iter xO p d) = Z.pos p * 2 ^ Z.pos d)
      by apply pos_iter_xO.
    assert (H2d : 0 < 2 ^ Z.pos d) by (apply Z.pow_pos_nonneg; lia).
    assert (Hdq : Z.pos (digits2_pos (Pos.iter xO p d)) = 53).
    { apply digits2_pos_unique. rewrite Hq. split.
      - replace (53 - 1) with (dg - 1 + Z.pos d) by lia.
        rewrite Z.pow_add_r by lia. nia.
      - replace 53 with (dg + Z.pos d) by lia.
        rewrite Z.pow_add_r by lia. nia. }
    destruct (binary_round_aux_mono (Z.pos (Pos.iter xO p d)) 1
                (Pos.iter xO p d) (dg + ez - 53) loc_Exact)
      as (m' & e' & Hrun & He' & Hm' & Hmono);
      [lia | by rewrite Z.div_1_r | done | lia | lia | lia |].
    exists m', e'. split; [done|]. split; [done|]. split; [done|].
    intros mc j Hmc Hj. specialize (Hmono mc j Hmc Hj).
    rewrite Z.mul_1_r, Hq in Hmono.
    replace (Z.pos p * 2 ^ Z.pos d * 2 ^ (dg + ez - 53 + 1074))
      with (Z.pos p * 2 ^ (ez + 1074)) in Hmono; [done|].
    rewrite <- Z.mul_assoc, <- Z.pow_add_r by lia. do 2 f_equal. lia.
Qed.

(** The sum of two positive binary64 numbers, in the normal range. *)
Lemma SFadd_finite_mono (m1 : positive) (e1 : Z) (m2 : positive) (e2 : Z) :
  -1074 ≤ e1 → -1074 ≤ e2 →
  2 ^ 52 ≤ Z.pos m1 * 2 ^ (e1 + 1074) + Z.pos m2 * 2 ^ (e2 + 1074) < 2 ^ 2000 →
  ∃ (m' : positive) (e' : Z),
    SFadd prec emax (S754_finite false m1 e1) (S754_finite false m2 e2)
    = S754_finite false m' e'
    ∧ -1074 ≤ e' ≤ 971
    ∧ 2 ^ 52 ≤ Z.pos m' < 2 ^ 53
    ∧ ∀ mc j, 0 ≤ mc < 2 ^ 53 → 0 ≤ j →
        (mc * 2 ^ j
         ≤ Z.pos m1 * 2 ^ (e1 + 1074) + Z.pos m2 * 2 ^ (e2 + 1074) →
         mc * 2 ^ j ≤ Z.pos m' * 2 ^ (e' + 1074))
        ∧ (Z.pos m1 * 2 ^ (e1 + 1074) + Z.pos m2 * 2 ^ (e2 + 1074)
           ≤ mc * 2 ^ j →
           Z.pos m' * 2 ^ (e' + 1074) ≤ mc * 2 ^ j).
Proof.
  intros He1 He2 Hsum. cbn [SFadd cond_Zopp].
  set (ez := Z.min e1 e2).
  set (a := fst (shl_align m1 e1 ez)). set (b := fst (shl_align m2 e2 ez)).
  assert (Ha : Z.pos a = Z.pos m1 * 2 ^ (e1 - ez))
    by (apply shl_align_fst; unfold ez; lia).
  assert (Hb : Z.pos b = Z.pos m2 * 2 ^ (e2 - ez))
    by (apply shl_align_fst; unfold ez; lia).
  assert (Hval : Z.pos (a + b) * 2 ^ (ez + 1074)
                 = Z.pos m1 * 2 ^ (e1 + 1074) + Z.pos m2 * 2 ^ (e2 + 1074)).
  { rewrite Pos2Z.inj_add, Ha, Hb, Z.mul_add_distr_r.
    rewrite <- !Z.mul_assoc, <- !Z.pow_add_r by (unfold ez; lia).
    do 3 f_equal; lia. }
  change (Z.pos a + Z.pos b) with (Z.pos (a + b)). cbn [binary_normalize].
  destruct (binary_round_mono (a + b) ez) as (m' & e' & Hrun & Hrest);
    [unfold ez; lia | by rewrite Hval |].
  exists m', e'. split; [done|]. by rewrite Hval in Hrest.
Qed.

(** The quotient of two binary64 numbers with a full mantissa and a small
    exponent. *)
Lemma SFdiv_finite_mono (m1 : positive) (e1 : Z) (m2 : positive) (e2 : Z) :
  2 ^ 52 ≤ Z.pos m1 < 2 ^ 53 → 2 ^ 52 ≤ Z.pos m2 < 2 ^ 53 →
  -100 ≤ e1 ≤ 100 → -100 ≤ e2 ≤ 100 →
  ∃ (m' : positive) (e' : Z),
    SFdiv prec emax (S754_finite false m1 e1) (S754_finite false m2 e2)
    = S754_finite false m' e'
    ∧ -1074 ≤ e' ≤ 971
    ∧ 2 ^ 52 ≤ Z.pos m' < 2 ^ 53
    ∧ ∀ mc j, 0 ≤ mc < 2 ^ 53 → 0 ≤ j →
        (mc * 2 ^ j * (Z.pos m2 * 2 ^ (e2 + 1074))
         ≤ Z.pos m1 * 2 ^ (e1 + 1074) * 2 ^ 1074 →
         mc * 2 ^ j ≤ Z.pos m' * 2 ^ (e' + 1074))
        ∧ (Z.pos m1 * 2 ^ (e1 + 1074) * 2 ^ 1074
           ≤ mc * 2 ^ j * (Z.pos m2 * 2 ^ (e2 + 1074)) →
           Z.pos m' * 2 ^ (e' + 1074) ≤ mc * 2 ^ j).
Proof.
  intros Hm1 Hm2 He1 He2.
  assert (Hd1 : Z.pos (digits2_pos m1) = 53)
    by (apply digits2_pos_unique; done).
  assert (Hd2 : Z.pos (digits2_pos m2) = 53)
    by (apply digits2_pos_unique; done).
  cbn [SFdiv xorb]. unfold SFdiv_core_binary. cbn [Zdigits2].
  rewrite Hd1, Hd2, fexp_normal by lia.
  replace (Z.min (53 + e1 - (53 + e2) - 53) (e1 - e2)) with (e1 - e2 - 53)
    by lia.
  replace (e1 - e2 - (e1 - e2 - 53)) with 53 by lia.
  set (N := Z.shiftl (Z.pos m1) 53).
  assert (HN : N = Z.pos m1 * 2 ^ 53) by (unfold N; by rewrite Z.shiftl_mul_pow2).
  pose proof (Z.div_eucl_eq N (Z.pos m2) ltac:(lia)) as Heucl.
  assert (Hq : fst (Z.div_eucl N (Z.pos m2)) = N / Z.pos m2) by done.
  assert (Hr : snd (Z.div_eucl N (Z.pos m2)) = N mod Z.pos m2) by done.
  destruct (Z.div_eucl N (Z.pos m2)) as [q r]. cbn [fst snd] in Hq, Hr.
  assert (Hqb : 2 ^ 52 ≤ q < 2 ^ 54).
  { rewrite Hq, HN. split.
    - apply Z.div_le_lower_bound; [lia|].
      change (2 ^ 53) with (2 * 2 ^ 52) in *. nia.
    - apply Z.div_lt_upper_bound; [lia|].
      change (2 ^ 54) with (2 * 2 ^ 53). change (2 ^ 53) with (2 * 2 ^ 52) in *.
      nia. }
  destruct q as [|p|p]; [lia| |lia].
  pose proof (digits2_pos_bounds p) as [Hdlo Hdhi].
  assert (Hdp : 53 ≤ Z.pos (digits2_pos p) ≤ 54).
  { split.
    - assert (H : 2 ^ 52 < 2 ^ Z.pos (digits2_pos p)) by lia.
      apply Z.pow_lt_mono_r_iff in H; lia.
    - assert (H : 2 ^ (Z.pos (digits2_pos p) - 1) < 2 ^ 54) by lia.
      apply Z.pow_lt_mono_r_iff in H; lia. }
  destruct (binary_round_aux_mono N (Z.pos m2) p (e1 - e2 - 53)
              (new_location (Z.pos m2) r))
    as (m' & e' & Hrun & He' & Hm' & Hmono); [lia | done | | lia | lia | lia |].
  { rewrite <- Hr. intros ->.
    unfold new_location, new_location_even, new_location_odd.
    by destruct (Z.even (Z.pos m2)). }
  exists m', e'. split; [done|]. split; [done|]. split; [done|].
  intros mc j Hmc Hj. specialize (Hmono mc j Hmc Hj).
  set (T := 2 ^ (e2 + 1074)).
  assert (HT : 0 < T) by (apply Z.pow_pos_nonneg; lia).
  assert (Hscale : N * 2 ^ (e1 - e2 - 53 + 1074) * T
                   = Z.pos m1 * 2 ^ (e1 + 1074) * 2 ^ 1074).
  { unfold T. rewrite HN, <- !Z.mul_assoc, <- !Z.pow_add_r by lia.
    do 2 f_equal. lia. }
  rewrite <- Hscale.
  replace (mc * 2 ^ j * (Z.pos m2 * T)) with (mc * 2 ^ j * Z.pos m2 * T) by ring.
  destruct Hmono as [Hlo Hhi]. split; intros H.
  - apply Hlo. by apply Z.mul_le_mono_pos_r in H.
  - apply Hhi. by apply Z.mul_le_mono_pos_r in H.
Qed.
End binary64_monotone.

Section binary64_values.
Local Open Scope Z_scope.

Lemma Prim2SF_finite_valid (x : float) s m e :
  Prim2SF x = S754_finite s m e → Z.pos m < 2 ^ 53 ∧ -1074 ≤ e ≤ 971.
Proof.
  intros Hx. pose proof (Prim2SF_valid x) as Hvalid. rewrite Hx in Hvalid.
  cbn [SpecFloat.valid_binary] in Hvalid. unfold bounded in Hvalid.
  apply andb_prop in Hvalid as [Hcan Hle].
  unfold canonical_mantissa in Hcan. apply Z.eqb_eq in Hcan.
  apply Z.leb_le in Hle. unfold fexp, SpecFloat.emin, prec, emax in *.
  pose proof (digits2_pos_bounds m) as [_ Hhi].
  split; [|lia].
  apply Z.lt_le_trans with (2 ^ Z.pos (digits2_pos m)); [done|].
  apply Z.pow_le_mono_r; lia.
Qed.

Lemma b64_grid_int (z : Z) : 0 ≤ z < 2 ^ 53 → b64_grid (z * 2 ^ 1074).
Proof. intros Hz. by exists z, 1074. Qed.

Lemma b64_scaled_grid (x : float) (v : Z) :
  b64_scaled x = Some v → 0 ≤ v ∧ b64_grid v.
Proof.
  unfold b64_scaled. destruct (Prim2SF x) as [s|s| |[|] m e] eqn:Hx;
    cbn [sf_scaled]; intros [= <-].
  - split; [done|]. by exists 0, 0.
  - apply Prim2SF_finite_valid in Hx as [Hm He].
    assert (0 < 2 ^ (e + 1074)) by (apply Z.pow_pos_nonneg; lia).
    split; [lia|]. exists (Z.pos m), (e + 1074). lia.
Qed.

(** Addition: the rounded sum is on the same side of every number of the
    grid as the exact sum. *)
Lemma b64_add_mono (a b : float) (va vb : Z) :
  b64_scaled a = Some va → b64_scaled b = Some vb →
  va = 0 ∨ vb = 0 ∨ 2 ^ 52 ≤ va + vb → va + vb < 2 ^ 2000 →
  ∃ vc, b64_scaled (a + b)%float = Some vc
      ∧ ∀ c, b64_grid c →
          (c ≤ va + vb → c ≤ vc) ∧ (va + vb ≤ c → vc ≤ c).
Proof.
  unfold b64_scaled. rewrite FloatAxioms.add_spec. unfold SF64add.
  intros Ha Hb Hnormal Hsmall.
  destruct (Prim2SF a) as [sa|sa| |[|] ma ea] eqn:Hpa; try done;
    destruct (Prim2SF b) as [sb|sb| |[|] mb eb] eqn:Hpb; try done;
    cbn [sf_scaled] in Ha, Hb; injection Ha as <-; injection Hb as <-.
  - exists 0. split; [by destruct sa, sb|]. intros c _. lia.
  - eexists. split; [done|]. intros c _. lia.
  - eexists. split; [done|]. intros c _. lia.
  - apply Prim2SF_finite_valid in Hpa as [Hma Hea].
    apply Prim2SF_finite_valid in Hpb as [Hmb Heb].
    assert (0 < 2 ^ (ea + 1074)) by (apply Z.pow_pos_nonneg; lia).
    assert (0 < 2 ^ (eb + 1074)) by (apply Z.pow_pos_nonneg; lia).
    destruct (SFadd_finite_mono ma ea mb eb)
      as (m' & e' & -> & He' & Hm' & Hmono); [lia | lia | nia |].
    eexists. split; [done|]. intros c (mc & j & Hmc & Hj & ->).
    by apply Hmono.
Qed.

(** [float(z)] is exact for an int of at most 53 bits. *)
Lemma b64_of_int_finite (z : Z) :
  1 ≤ z < 2 ^ 53 →
  ∃ (m : positive) (e : Z),
    Prim2SF (b64_of_int z) = S754_finite false m e
    ∧ 2 ^ 52 ≤ Z.pos m < 2 ^ 53 ∧ -52 ≤ e ≤ 0
    ∧ Z.pos m * 2 ^ (e + 1074) = z * 2 ^ 1074.
Proof.
  intros Hz. unfold b64_of_int. rewrite (proj2 (Z.ltb_ge z 0)) by lia.
  rewrite FloatAxioms.of_uint63_spec, Uint63.of_Z_spec.
  rewrite Z.mod_small
    by (split; [lia|]; apply Z.lt_trans with (2 ^ 53); [lia | done]).
  destruct z as [|p|p]; [lia| |lia]. cbn [binary_normalize].
  assert (H1074 : 0 < 2 ^ 1074) by (apply Z.pow_pos_nonneg; lia).
  destruct (binary_round_mono p 0) as (m & e & Hrun & He & Hm & Hmono); [lia | |].
  { change (0 + 1074) with 1074. split.
    - apply Z.le_trans with (1 * 2 ^ 1074); [|nia].
      rewrite Z.mul_1_l. apply Z.pow_le_mono_r; lia.
    - apply Z.lt_le_trans with (2 ^ 53 * 2 ^ 1074); [nia|].
      rewrite <- Z.pow_add_r by lia. apply Z.pow_le_mono_r; lia. }
  exists m, e. split; [done|]. split; [done|].
  destruct (Hmono (Z.pos p) 1074) as [Hlo Hhi]; [lia | lia |].
  change (0 + 1074) with 1074 in Hlo, Hhi.
  assert (Hval : Z.pos m * 2 ^ (e + 1074) = Z.pos p * 2 ^ 1074) by lia.
  split; [|done].
  assert (He1 : 2 ^ (52 + (e + 1074)) < 2 ^ (53 + 1074)).
  { rewrite !Z.pow_add_r by lia.
    assert (0 < 2 ^ (e + 1074)) by (apply Z.pow_pos_nonneg; lia). nia. }
  assert (He2 : 2 ^ 1074 < 2 ^ (53 + (e + 1074))).
  { rewrite (Z.pow_add_r 2 53) by lia.
    assert (0 < 2 ^ (e + 1074)) by (apply Z.pow_pos_nonneg; lia). nia. }
  apply Z.pow_lt_mono_r_iff in He1; [|lia|lia].
  apply Z.pow_lt_mono_r_iff in He2; [|lia|lia]. lia.
Qed.

Lemma b64_of_int_scaled (z : Z) :
  0 ≤ z < 2 ^ 53 → b64_scaled (b64_of_int z) = Some (z * 2 ^ 1074).
Proof.
  intros Hz. destruct (Z.eq_dec z 0) as [->|Hne]; [done|].
  destruct (b64_of_int_finite z) as (m & e & Hrun & _ & _ & Hval); [lia|].
  unfold b64_scaled. rewrite Hrun. cbn [sf_scaled]. by rewrite Hval.
Qed.

(** Division of two ints of at most 53 bits: the rounded quotient is on
    the same side of every number of the grid as the exact one. *)
Lemma b64_div_mono (a b : Z) :
  0 ≤ a < 2 ^ 53 → 1 ≤ b < 2 ^ 53 →
  ∃ vc, b64_scaled (b64_of_int a / b64_of_int b)%float = Some vc
      ∧ (a = 0 → vc = 0)
      ∧ ∀ c, b64_grid c →
          (c * b ≤ a * 2 ^ 1074 → c ≤ vc) ∧ (a * 2 ^ 1074 ≤ c * b → vc ≤ c).
Proof.
  intros Ha Hb. unfold b64_scaled. rewrite FloatAxioms.div_spec. unfold SF64div.
  assert (H1074 : 0 < 2 ^ 1074) by (apply Z.pow_pos_nonneg; lia).
  destruct (b64_of_int_finite b) as (m2 & e2 & -> & Hm2 & He2 & Hv2); [lia|].
  destruct (Z.eq_dec a 0) as [->|Hne].
  - exists 0. split; [done|]. split; [done|].
    intros c (mc & j & Hmc & Hj & ->).
    assert (0 ≤ 2 ^ j) by (apply Z.pow_nonneg; lia). nia.
  - destruct (b64_of_int_finite a) as (m1 & e1 & -> & Hm1 & He1 & Hv1); [lia|].
    destruct (SFdiv_finite_mono m1 e1 m2 e2)
      as (m' & e' & -> & He' & Hm' & Hmono); [done | done | lia | lia |].
    eexists. split; [done|]. split; [done|].
    intros c (mc & j & Hmc & Hj & ->). specialize (Hmono mc j Hmc Hj).
    rewrite Hv1, Hv2 in Hmono. destruct Hmono as [Hlo Hhi].
    split; intros H.
    + apply Hlo. replace (mc * 2 ^ j * (b * 2 ^ 1074))
        with (mc * 2 ^ j * b * 2 ^ 1074) by ring.
      by apply Z.mul_le_mono_pos_r.
    + apply Hhi. replace (mc * 2 ^ j * (b * 2 ^ 1074))
        with (mc * 2 ^ j * b * 2 ^ 1074) by ring.
      by apply Z.mul_le_mono_pos_r.
Qed.

(** [int(x)] cuts the fraction off. *)
Lemma b64_trunc_scaled (x : float) (v : Z) :
  b64_scaled x = Some v → b64_trunc x = Ok (v / 2 ^ 1074).
Proof.
  unfold b64_scaled, b64_trunc.
  destruct (Prim2SF x) as [s|s| |[|] m e] eqn:Hx; cbn [sf_scaled];
    intros [= <-]; [done|].
  apply Prim2SF_finite_valid in Hx as [Hm He]. do 2 f_equal.
  destruct e as [|p|p].
  - rewrite Z.shiftl_0_r. change (0 + 1074) with 1074.
    rewrite Z.div_mul; [done|]. apply Z.pow_nonzero; lia.
  - rewrite Z.shiftl_mul_pow2 by lia. rewrite Z.pow_add_r by lia.
    rewrite Z.mul_assoc, Z.div_mul; [done|]. apply Z.pow_nonzero; lia.
  - rewrite Z.shiftr_div_pow2 by lia.
    replace (2 ^ 1074) with (2 ^ Z.pos p * 2 ^ (Z.neg p + 1074)).
    + rewrite Z.div_mul_cancel_r; [done | |]; apply Z.pow_nonzero; lia.
    + rewrite <- Z.pow_add_r by lia. f_equal. lia.
Qed.

Lemma py_int_scaled (s : pynum binary64) (v : Z) :
  py_scaled s = Some v → py_int s = Ok (v / 2 ^ 1074).
Proof.
  destruct s as [z|x]; cbn [py_scaled py_int].
  - destruct (Z.leb_spec 0 z); [|done]. intros [= <-].
    rewrite Z.div_mul; [done|]. apply Z.pow_nonzero; lia.
  - apply b64_trunc_scaled.
Qed.
End binary64_values.

(** *** The cut points of [fpmatrix_split] in binary64 *)

Section binary64_split.
Local Open Scope Z_scope.

Lemma chain_end_last (bs : list (Z * Z)) (lo : Z) (b : Z * Z) :
  last bs = Some b → chain_end lo bs = b.2.
Proof.
  revert lo. induction bs as [|b' bs IH]; intros lo; [done|].
  destruct bs as [|b'' bs]; [by intros [= ->]|].
  intros Hlast. cbn [chain_end]. by apply (IH b'.2).
Qed.

Variables (len nsplit : Z).
Hypothesis len_nonneg : 0 ≤ len.
Hypothesis nsplit_pos : 1 ≤ nsplit.

Lemma cut_high_mono (a b : Z) :
  0 ≤ a ≤ b → cut_high len nsplit a ≤ cut_high len nsplit b.
Proof.
  intros Hab. unfold cut_high.
  pose proof (Z.div_pos len nsplit ltac:(lia) ltac:(lia)) as Hq.
  destruct (len `mod` nsplit =? 0); nia.
Qed.

Lemma cut_low_high (k : Z) :
  0 ≤ k → 0 ≤ cut_low len nsplit k ≤ cut_high len nsplit k.
Proof.
  intros Hk. unfold cut_low, cut_high.
  pose proof (Z.div_pos len nsplit ltac:(lia) ltac:(lia)) as Hq.
  pose proof (Z.mod_pos_bound len nsplit ltac:(lia)) as Hr.
  destruct (len `mod` nsplit =? 0); nia.
Qed.

Variables (n : float) (vn : Z).
Hypothesis n_value : b64_scaled n = Some vn.
Hypothesis n_low : len `div` nsplit * 2 ^ 1074 ≤ vn.
Hypothesis n_high :
  vn ≤ (if len `mod` nsplit =? 0 then len `div` nsplit
        else len `div` nsplit + 1) * 2 ^ 1074.
Hypothesis n_normal : vn = 0 ∨ 2 ^ 52 ≤ vn.

(** The rounds of the loop from round [k] on.  Rounding never moves a
    sum across an int, so every cut stays between [cut_low] and
    [cut_high], and the cuts never decrease. *)
Lemma split_bounds_binary64 (count : nat) :
  ∀ (k : nat) (s1 : pynum binary64) (x2 : float) (r v1 v2 : Z),
    py_scaled s1 = Some v1 → b64_scaled x2 = Some v2 → v1 ≤ v2 →
    r = Z.max 0 (len `mod` nsplit - Z.of_nat k) →
    cut_low len nsplit (Z.of_nat k + 1) * 2 ^ 1074 ≤ v2 →
    v2 ≤ cut_high len nsplit (Z.of_nat k + 1) * 2 ^ 1074 →
    cut_high len nsplit (Z.of_nat k + Z.of_nat count + 1) < 2 ^ 53 →
    ∃ bs, split_bounds count None (@PyFloat binary64 n) r s1
            (@PyFloat binary64 x2) = Ok bs
        ∧ length bs = count
        ∧ is_chain (v1 / 2 ^ 1074) bs
        ∧ ∀ (j : nat) lo hi, bs !! j = Some (lo, hi) →
            cut_low len nsplit (Z.of_nat k + Z.of_nat j + 1) ≤ hi
            ∧ hi ≤ cut_high len nsplit (Z.of_nat k + Z.of_nat j + 1).
Proof.
  assert (HB : 0 < 2 ^ 1074) by (apply Z.pow_pos_nonneg; lia).
  assert (Hbig : 2 ^ 53 * 2 ^ 1074 < 2 ^ 1999).
  { rewrite <- Z.pow_add_r by lia. apply Z.pow_lt_mono_r; lia. }
  assert (H52 : 2 ^ 52 ≤ 2 ^ 1074) by (apply Z.pow_le_mono_r; lia).
  assert (H2000 : 2 ^ 2000 = 2 * 2 ^ 1999)
    by (rewrite <- (Z.pow_succ_r 2 1999) by lia; done).
  pose proof (Z.div_pos len nsplit ltac:(lia) ltac:(lia)) as Hq.
  pose proof (Z.mod_pos_bound len nsplit ltac:(lia)) as Hr0.
  set (q := len `div` nsplit) in *. set (r0 := len `mod` nsplit) in *.
  set (qU := if r0 =? 0 then q else q + 1) in *.
  assert (HqU : q ≤ qU) by (unfold qU; destruct (r0 =? 0); lia).
  destruct (b64_scaled_grid n vn n_value) as [Hvn0 Hvngrid].
  induction count as [|count IH];
    intros k s1 x2 r v1 v2 Hs1 Hx2 Hv12 Hr Hlo Hhi Hroom.
  { exists []. done. }
  destruct (b64_scaled_grid x2 v2 Hx2) as [Hv20 Hv2grid].
  pose proof (cut_low_high (Z.of_nat k + 1) ltac:(lia)) as HLU1.
  pose proof (cut_low_high (Z.of_nat k + 1 + 1) ltac:(lia)) as HLU2.
  pose proof (cut_high_mono (Z.of_nat k + 1)
                (Z.of_nat k + Z.of_nat (S count) + 1) ltac:(lia)) as Hm1.
  pose proof (cut_high_mono (Z.of_nat k + 1 + 1)
                (Z.of_nat k + Z.of_nat (S count) + 1) ltac:(lia)) as Hm2.
  set (r' := Z.max 0 (r - 1)). set (m' := Z.min 1 r').
  assert (Hm' : m' = 0 ∨ m' = 1) by (unfold m', r'; lia).
  assert (HL2 : cut_low len nsplit (Z.of_nat k + 1 + 1)
                = cut_low len nsplit (Z.of_nat k + 1) + q + m').
  { unfold cut_low, m', r'. fold q r0. lia. }
  assert (HU2 : cut_high len nsplit (Z.of_nat k + 1 + 1)
                = cut_high len nsplit (Z.of_nat k + 1) + qU + m').
  { unfold cut_high, m', r'. fold q r0 qU. lia. }
  (* t = s2 + n *)
  destruct (b64_add_mono x2 n v2 vn Hx2 n_value) as (vt & Ht & Htmono);
    [lia | nia |].
  destruct (b64_scaled_grid _ vt Ht) as [Hvt0 Hvtgrid].
  assert (Htlo : (cut_low len nsplit (Z.of_nat k + 1) + q) * 2 ^ 1074 ≤ vt).
  { apply Htmono; [apply b64_grid_int; lia | nia]. }
  assert (Hthi : vt ≤ (cut_high len nsplit (Z.of_nat k + 1) + qU) * 2 ^ 1074).
  { apply Htmono; [apply b64_grid_int; lia | nia]. }
  assert (Htge : v2 ≤ vt) by (apply Htmono; [done | lia]).
  (* s2' = t + min(1, r) *)
  assert (Hvm : b64_scaled (b64_of_int m') = Some (m' * 2 ^ 1074))
    by (apply b64_of_int_scaled; lia).
  destruct (b64_add_mono _ _ vt (m' * 2 ^ 1074) Ht Hvm) as (v3 & H3 & H3mono);
    [destruct Hm' as [->| ->]; lia | nia |].
  assert (H3lo : cut_low len nsplit (Z.of_nat k + 1 + 1) * 2 ^ 1074 ≤ v3).
  { apply H3mono; [apply b64_grid_int; lia | nia]. }
  assert (H3hi : v3 ≤ cut_high len nsplit (Z.of_nat k + 1 + 1) * 2 ^ 1074).
  { apply H3mono; [apply b64_grid_int; lia | nia]. }
  assert (H3ge : v2 ≤ v3).
  { apply Z.le_trans with vt; [done|]. apply H3mono; [done | lia]. }
  destruct (IH (S k) (@PyFloat binary64 x2)
              (PrimFloat.add (PrimFloat.add x2 n) (b64_of_int m')) r' v2 v3)
    as (bs & Hbs & Hlen & Hchain & Hcuts).
  { done. }
  { done. }
  { done. }
  { unfold r'. lia. }
  { by replace (Z.of_nat (S k) + 1) with (Z.of_nat k + 1 + 1) by lia. }
  { by replace (Z.of_nat (S k) + 1) with (Z.of_nat k + 1 + 1) by lia. }
  { by replace (Z.of_nat (S k) + Z.of_nat count + 1)
      with (Z.of_nat k + Z.of_nat (S count) + 1) by lia. }
  exists ((v1 / 2 ^ 1074, v2 / 2 ^ 1074) :: bs).
  split; [|split; [|split]].
  - cbn [split_bounds]. rewrite (py_int_scaled s1 v1 Hs1), bind_Ok.
    rewrite (py_int_scaled (@PyFloat binary64 x2) v2 Hx2), bind_Ok.
    fold r'. fold m'.
    change (py_add (py_add (@PyFloat binary64 x2) (@PyFloat binary64 n))
              (PyInt m'))
      with (@PyFloat binary64
              (PrimFloat.add (PrimFloat.add x2 n) (b64_of_int m'))).
    by rewrite Hbs.
  - simpl. by rewrite Hlen.
  - cbn [is_chain fst snd]. split; [done|]. split; [|done].
    apply Z.div_le_mono; lia.
  - intros [|j] lo hi Hj.
    + injection Hj as <- <-. rewrite Z.add_0_r. split.
      * apply Z.div_le_lower_bound; lia.
      * apply Z.div_le_upper_bound; lia.
    + cbn [lookup list_lookup] in Hj. apply Hcuts in Hj.
      by replace (Z.of_nat k + Z.of_nat (S j) + 1)
        with (Z.of_nat (S k) + Z.of_nat j + 1) by lia.
Qed.
End binary64_split.

Section binary64_split_even.
Local Open Scope Z_scope.

(** The bounds of [fpmatrix_split] for [fix_size=None] in binary64, for
    at most [2^50] rows and groups: [nsplit] slices that chain up from 0,
    reach the last row, and stay between [cut_low] and [cut_high]. *)
Lemma split_bounds_binary64_even (len nsplit : Z) :
  0 ≤ len ≤ 2 ^ 50 → 1 ≤ nsplit ≤ 2 ^ 50 →
  ∃ n bs,
    py_truediv (F:=binary64) len nsplit = Ok n
    ∧ split_bounds (Z.to_nat nsplit) None n (len `mod` nsplit) (PyInt 0)
        (py_add n (PyInt (Z.min 1 (len `mod` nsplit)))) = Ok bs
    ∧ length bs = Z.to_nat nsplit
    ∧ is_chain 0 bs
    ∧ len ≤ chain_end 0 bs
    ∧ ∀ (j : nat) lo hi, bs !! j = Some (lo, hi) →
        cut_low len nsplit (Z.of_nat j + 1) ≤ hi
        ∧ hi ≤ cut_high len nsplit (Z.of_nat j + 1).
Proof.
  intros Hlen Hns.
  assert (HB : 0 < 2 ^ 1074) by (apply Z.pow_pos_nonneg; lia).
  assert (H50 : 2 ^ 53 = 8 * 2 ^ 50) by done.
  assert (H52 : 2 ^ 52 ≤ 2 ^ 1021) by (apply Z.pow_le_mono_r; lia).
  assert (H1074 : 2 ^ 1074 = 2 ^ 1021 * 2 ^ 53)
    by (rewrite <- Z.pow_add_r by lia; done).
  assert (H1999 : 2 ^ 53 * 2 ^ 1074 < 2 ^ 1999).
  { rewrite <- Z.pow_add_r by lia. apply Z.pow_lt_mono_r; lia. }
  assert (H2000 : 2 ^ 2000 = 2 * 2 ^ 1999)
    by (rewrite <- (Z.pow_succ_r 2 1999) by lia; done).
  pose proof (Z.div_pos len nsplit ltac:(lia) ltac:(lia)) as Hq.
  pose proof (Z.mod_pos_bound len nsplit ltac:(lia)) as Hr0.
  pose proof (Z_div_mod_eq_full len nsplit) as Hdm.
  set (q := len `div` nsplit) in *. set (r0 := len `mod` nsplit) in *.
  set (qU := if r0 =? 0 then q else q + 1).
  assert (HqU : q ≤ qU ≤ q + 1) by (unfold qU; destruct (r0 =? 0); lia).
  assert (Hqlen : q ≤ len) by nia.
  assert (HlenU : len ≤ nsplit * qU).
  { unfold qU. destruct (Z.eqb_spec r0 0); nia. }
  unfold py_truediv. rewrite bool_decide_false by lia.
  destruct (b64_div_mono len nsplit) as (vn & Hvn & Hzero & Hmono);
    [lia | lia |].
  cbn [float_div float_of_int binary64].
  destruct (b64_scaled_grid _ vn Hvn) as [Hvn0 Hvngrid].
  assert (Hnlo : q * 2 ^ 1074 ≤ vn).
  { apply Hmono; [apply b64_grid_int; lia | nia]. }
  assert (Hnhi : vn ≤ qU * 2 ^ 1074).
  { apply Hmono; [apply b64_grid_int; lia | nia]. }
  assert (Hnnormal : vn = 0 ∨ 2 ^ 52 ≤ vn).
  { destruct (Z.eq_dec len 0) as [H0|H0]; [left; by apply Hzero|].
    right. apply Z.le_trans with (2 ^ 1021); [done|].
    apply Hmono; [exists 1, 1021; lia | nia]. }
  set (m0 := Z.min 1 r0). assert (Hm0 : m0 = 0 ∨ m0 = 1) by (unfold m0; lia).
  assert (Hvm : b64_scaled (b64_of_int m0) = Some (m0 * 2 ^ 1074))
    by (apply b64_of_int_scaled; lia).
  destruct (b64_add_mono _ _ vn (m0 * 2 ^ 1074) Hvn Hvm) as (v2 & Hv2 & H2mono);
    [destruct Hm0 as [->| ->]; lia | nia |].
  destruct (b64_scaled_grid _ v2 Hv2) as [Hv20 _].
  assert (HL1 : cut_low len nsplit (Z.of_nat 0 + 1) = q + m0).
  { unfold cut_low, m0. fold q r0. lia. }
  assert (HU1 : cut_high len nsplit (Z.of_nat 0 + 1) = qU + m0).
  { unfold cut_high, m0. fold q r0 qU. lia. }
  assert (Hroom : cut_high len nsplit
                    (Z.of_nat 0 + Z.of_nat (Z.to_nat nsplit) + 1) < 2 ^ 53).
  { unfold cut_high. fold q r0 qU. rewrite Z2Nat.id by lia. nia. }
  destruct (split_bounds_binary64 len nsplit ltac:(lia) ltac:(lia) _ vn
              Hvn Hnlo Hnhi Hnnormal (Z.to_nat nsplit) 0 (PyInt 0)
              (PrimFloat.add
                 (PrimFloat.div (b64_of_int len) (b64_of_int nsplit))
                 (b64_of_int m0))
              r0 (0 * 2 ^ 1074) v2)
    as (bs & Hbs & Hlenbs & Hchain & Hcuts).
  { done. }
  { done. }
  { lia. }
  { lia. }
  { rewrite HL1. apply H2mono; [apply b64_grid_int; lia | nia]. }
  { rewrite HU1. apply H2mono; [apply b64_grid_int; lia | nia]. }
  { done. }
  eexists _, bs. split; [done|]. split; [exact Hbs|]. split; [done|].
  rewrite Z.mul_0_l, Z.div_0_l in Hchain by lia. split; [done|].
  split.
  - destruct (last bs) as [[lo hi]|] eqn:Hlast.
    + rewrite (chain_end_last bs 0 (lo, hi) Hlast). cbn [snd].
      rewrite last_lookup, Hlenbs in Hlast.
      destruct (Hcuts _ lo hi Hlast) as [Hlow _].
      etrans; [|exact Hlow]. unfold cut_low. fold q r0. nia.
    + apply last_None in Hlast. subst bs. simpl in Hlenbs. lia.
  - intros j lo hi Hj. destruct (Hcuts j lo hi Hj) as [H1 H2].
    by rewrite Z.add_0_l in H1, H2.
Qed.
End binary64_split_even.

(** C3.  For every matrix [X] and every [nsplit >= 1], [fpmatrix_split]
    with [fix_size=None] and [replacement=False], run in IEEE 754 binary64
    arithmetic, returns [nsplit] groups that partition the rows of [X]:
    group k holds the rows of [X] at the row numbers [parts[k]], and the
    row numbers of all groups together are [0 .. len(X) - 1], each exactly
    once.  The statement covers every matrix of at most [2^50] rows and
    every [nsplit] up to [2^50]: the range in which [len(X)], [nsplit] and
    the ints next to the cut points are held exactly by binary64. *)
Theorem fpmatrix_split_partitions {T rng : Type}
    (shuffle : rng → list nat → list nat * rng) (X : ndarray T)
    (nsplit : Z) (g : rng) :
  shuffle_permutes shuffle → wf_ndarray X →
  (Z.of_nat (shape0 X) ≤ 2 ^ 50)%Z → (1 ≤ nsplit ≤ 2 ^ 50)%Z →
  ∃ groups parts,
    fpmatrix_split (F:=binary64) shuffle X nsplit None false g
    = (Ok groups, (shuffle g (seq 0 (shape0 X))).2)
    ∧ length groups = Z.to_nat nsplit
    ∧ Forall2 (λ part G, take_rows X part = Ok G) parts groups
    ∧ concat parts ≡ₚ seq 0 (shape0 X)
    ∧ NoDup (concat parts)
    ∧ (∀ i, i < shape0 X ↔ i ∈ concat parts)
    ∧ concat (data <$> groups) ≡ₚ data X.
Proof.
  intros Hsh HX Hrows Hnsplit.
  destruct (split_bounds_binary64_even (Z.of_nat (shape0 X)) nsplit)
    as (n & bs & Hn & Hbs & Hlen & Hch & Hend & _); [lia | done |].
  destruct (fpmatrix_split_covering shuffle X nsplit g n bs Hsh HX Hn Hbs
              Hch Hend) as (groups & parts & Hrun & Hlg & Hrest).
  exists groups, parts. split; [done|]. split; [congruence | done].
Qed.

Lemma fpmatrix_split_partitions_witness :
  ∃ groups,
    fpmatrix_split (F:=binary64) reverse_shuffle
      (NdArray 8 1 [[10]; [11]; [12]; [13]; [14]; [15]; [16]; [17]]%Z)
      6 None false tt
    = (Ok groups, tt)
    ∧ length groups = 6
    ∧ concat (data <$> groups)
      ≡ₚ [[10]; [11]; [12]; [13]; [14]; [15]; [16]; [17]]%Z.
Proof.
  destruct (fpmatrix_split_partitions reverse_shuffle
              (NdArray 8 1 [[10]; [11]; [12]; [13]; [14]; [15]; [16]; [17]]%Z)
              6 tt)
    as (groups & parts & Hrun & Hlen & _ & _ & _ & _ & Hrows).
  - exact reverse_shuffle_permutes.
  - wf_by_computation.
  - vm_compute. discriminate.
  - split; [lia | vm_compute; discriminate].
  - exists groups. split; [exact Hrun | split; [exact Hlen | exact Hrows]].
Defined.

(** ** DatasetPartitioner in binary64: failure modes and cut points *)

Lemma is_chain_lookup (bs : list (Z * Z)) (lo : Z) (j : nat) (b : Z * Z) :
  is_chain lo bs → bs !! j = Some b →
  b.1 = match j with
        | 0 => lo
        | S j' => from_option snd lo (bs !! j')
        end.
Proof.
  revert lo j. induction bs as [|b0 bs IH]; intros lo j Hch Hj; [done|].
  destruct Hch as (Hlo & _ & Hch). destruct j as [|j].
  - by injection Hj as <-.
  - cbn [lookup list_lookup] in Hj. rewrite (IH _ _ Hch Hj).
    destruct j as [|j]; [done|].
    change ((b0 :: bs) !! S j) with (bs !! j).
    destruct (bs !! j) as [b'|] eqn:Hb'; [done|].
    apply lookup_ge_None in Hb'. apply lookup_lt_Some in Hj. lia.
Qed.

Section split_binary64.
Context {T : Type} {rng : Type}.
Variable shuffle : rng → list nat → list nat * rng.
Hypothesis shuffle_ok : shuffle_permutes shuffle.

(** The run for [fix_size=None] and [nsplit >= 1] in binary64, with or
    without replacement: it returns, and the group sizes are those of the
    slices between the cut points. *)
Lemma fpmatrix_split_binary64_sizes (X : ndarray T) (nsplit : Z)
    (replacement : bool) (g : rng) :
  wf_ndarray X →
  (Z.of_nat (shape0 X) ≤ 2 ^ 50)%Z → (1 ≤ nsplit ≤ 2 ^ 50)%Z →
  ∃ groups g' bs,
    fpmatrix_split (F:=binary64) shuffle X nsplit None replacement g
    = (Ok groups, g')
    ∧ shape0 <$> groups
      = (λ b, slice_bound (shape0 X) b.2 - slice_bound (shape0 X) b.1) <$> bs
    ∧ length bs = Z.to_nat nsplit
    ∧ is_chain 0 bs
    ∧ (Z.of_nat (shape0 X) ≤ chain_end 0 bs)%Z
    ∧ ∀ (j : nat) lo hi, bs !! j = Some (lo, hi) →
        (cut_low (Z.of_nat (shape0 X)) nsplit (Z.of_nat j + 1) ≤ hi)%Z
        ∧ (hi ≤ cut_high (Z.of_nat (shape0 X)) nsplit (Z.of_nat j + 1))%Z.
Proof.
  intros HX Hrows Hns.
  destruct (split_bounds_binary64_even (Z.of_nat (shape0 X)) nsplit)
    as (n & bs & Hn & Hbs & Hlen & Hch & Hend & Hcuts); [lia | done |].
  unfold fpmatrix_split, py_range. rewrite Nat.sub_0_r.
  pose proof (shuffle_ok g (seq 0 (shape0 X))) as Hperm.
  destruct (shuffle g (seq 0 (shape0 X))) as [index g1]. simpl in Hperm.
  rewrite Hn.
  destruct (fpmatrix_split_for_sizes shuffle X replacement _ shuffle_ok HX
              _ _ _ _ _ index g1 [] _ Hperm Hbs)
    as (groups & g' & Hrun & Hsizes).
  exists groups, g', bs. done.
Qed.


(** In binary64, for [fix_size=None] and [nsplit >= 1], with or without
    replacement: the cut points never decrease, the cut after group k is
    an int between k shares of [len(X) // nsplit] and k shares of that
    rounded up, plus one for each of the first [len(X) % nsplit] groups up
    to k, and the last cut reaches the last row; group k has the rows
    between the cuts k and k+1, each capped at [len(X)]. *)
Lemma fpmatrix_split_cut_points (X : ndarray T) (nsplit : Z)
    (replacement : bool) (g : rng) :
  wf_ndarray X →
  (Z.of_nat (shape0 X) ≤ 2 ^ 50)%Z → (1 ≤ nsplit ≤ 2 ^ 50)%Z →
  ∃ groups g' bs,
    fpmatrix_split (F:=binary64) shuffle X nsplit None replacement g
    = (Ok groups, g')
    ∧ shape0 <$> groups
      = (λ b, slice_bound (shape0 X) b.2 - slice_bound (shape0 X) b.1) <$> bs
    ∧ length bs = Z.to_nat nsplit
    ∧ is_chain 0 bs
    ∧ (Z.of_nat (shape0 X) ≤ chain_end 0 bs)%Z
    ∧ ∀ (j : nat) lo hi, bs !! j = Some (lo, hi) →
        (cut_low (Z.of_nat (shape0 X)) nsplit (Z.of_nat j + 1) ≤ hi)%Z
        ∧ (hi ≤ cut_high (Z.of_nat (shape0 X)) nsplit (Z.of_nat j + 1))%Z.
Proof. apply fpmatrix_split_binary64_sizes. Qed.

(** In binary64, when [nsplit] divides the number of rows, the groups have
    the same number of rows, [len(X) / nsplit] each, with or without
    replacement. *)
Lemma fpmatrix_split_equal_groups (X : ndarray T) (nsplit : Z)
    (replacement : bool) (g : rng) :
  wf_ndarray X →
  (Z.of_nat (shape0 X) ≤ 2 ^ 50)%Z → (1 ≤ nsplit ≤ 2 ^ 50)%Z →
  (nsplit | Z.of_nat (shape0 X))%Z →
  ∃ groups g',
    fpmatrix_split (F:=binary64) shuffle X nsplit None replacement g
    = (Ok groups, g')
    ∧ length groups = Z.to_nat nsplit
    ∧ Forall (λ G, Z.of_nat (shape0 G) = (Z.of_nat (shape0 X) `div` nsplit)%Z)
        groups.
Proof.
  intros HX Hrows Hns [q Hq].
  destruct (fpmatrix_split_binary64_sizes X nsplit replacement g HX Hrows Hns)
    as (groups & g' & bs & Hrun & Hsizes & Hlen & Hch & _ & Hcuts).
  exists groups, g'. split; [exact Hrun|].
  split; [by rewrite <- (length_fmap shape0), Hsizes, length_fmap|].
  set (len := Z.of_nat (shape0 X)) in *.
  assert (Hmod : (len `mod` nsplit = 0)%Z).
  { rewrite Hq. apply Z.mod_mul. lia. }
  assert (Hdiv : (len `div` nsplit = q)%Z).
  { rewrite Hq. apply Z.div_mul. lia. }
  assert (Hq0 : (0 ≤ q)%Z) by nia.
  assert (Hcut : ∀ (j : nat) lo hi, bs !! j = Some (lo, hi) →
            hi = ((Z.of_nat j + 1) * q)%Z).
  { intros j lo hi Hj. destruct (Hcuts j lo hi Hj) as [H1 H2].
    unfold cut_low, cut_high in H1, H2. rewrite Hmod, Hdiv in H1, H2.
    simpl in H2. lia. }
  apply Forall_lookup. intros j G HG.
  assert (HGs : (shape0 <$> groups) !! j = Some (shape0 G))
    by (by rewrite list_lookup_fmap, HG).
  rewrite Hsizes, list_lookup_fmap in HGs.
  destruct (bs !! j) as [[lo hi]|] eqn:Hj; [|done].
  injection HGs as <-. cbn [fst snd].
  pose proof (Hcut j lo hi Hj) as Hhi.
  assert (Hlo : lo = (Z.of_nat j * q)%Z).
  { pose proof (is_chain_lookup bs 0 j (lo, hi) Hch Hj) as Hlo.
    cbn [fst] in Hlo. rewrite Hlo. destruct j as [|j]; [lia|].
    destruct (bs !! j) as [[lo' hi']|] eqn:Hj'.
    - cbn [from_option snd]. rewrite (Hcut j lo' hi' Hj'). lia.
    - apply lookup_ge_None in Hj'. apply lookup_lt_Some in Hj. lia. }
  subst lo hi. apply lookup_lt_Some in Hj.
  unfold slice_bound. rewrite !(proj2 (Z.ltb_ge _ 0)) by nia.
  fold len. nia.
Qed.
End split_binary64.


Lemma fpmatrix_split_cut_points_witness :
  ∃ groups,
    fpmatrix_split (F:=binary64) reverse_shuffle
      (NdArray 8 1 [[10]; [11]; [12]; [13]; [14]; [15]; [16]; [17]]%Z)
      6 None true tt
    = (Ok groups, tt)
    ∧ length groups = 6.
Proof.
  assert (HX : wf_ndarray
                 (NdArray 8 1
                    [[10]; [11]; [12]; [13]; [14]; [15]; [16]; [17]]%Z))
    by wf_by_computation.
  assert (Hrows : (Z.of_nat 8 ≤ 2 ^ 50)%Z) by (vm_compute; discriminate).
  assert (Hns : (1 ≤ 6 ≤ 2 ^ 50)%Z)
    by (split; [lia | vm_compute; discriminate]).
  destruct (fpmatrix_split_cut_points reverse_shuffle reverse_shuffle_permutes
              (NdArray 8 1 [[10]; [11]; [12]; [13]; [14]; [15]; [16]; [17]]%Z)
              6 true tt HX Hrows Hns)
    as (groups & [] & bs & Hrun & Hsizes & Hlen & _).
  exists groups. split; [exact Hrun|].
  rewrite <- (length_fmap shape0), Hsizes, length_fmap. exact Hlen.
Defined.

Lemma fpmatrix_split_equal_groups_witness :
  ∃ groups,
    fpmatrix_split (F:=binary64) reverse_shuffle
      (NdArray 6 1 [[10]; [11]; [12]; [13]; [14]; [15]]%Z) 3 None true tt
    = (Ok groups, tt)
    ∧ Forall (λ G, Z.of_nat (shape0 G) = 2%Z) groups.
Proof.
  assert (HX : wf_ndarray (NdArray 6 1 [[10]; [11]; [12]; [13]; [14]; [15]]%Z))
    by wf_by_computation.
  assert (Hrows : (Z.of_nat 6 ≤ 2 ^ 50)%Z) by (vm_compute; discriminate).
  assert (Hns : (1 ≤ 3 ≤ 2 ^ 50)%Z)
    by (split; [lia | vm_compute; discriminate]).
  destruct (fpmatrix_split_equal_groups reverse_shuffle
              reverse_shuffle_permutes
              (NdArray 6 1 [[10]; [11]; [12]; [13]; [14]; [15]]%Z) 3 true tt
              HX Hrows Hns) as (groups & [] & Hrun & _ & Hsizes);
    [by exists 2%Z |].
  exists groups. split; [exact Hrun | exact Hsizes].
Defined.

(** ** FeatureAssembler *)

(** A loop over [range(len(l))] that only reads [l[j]] is a loop over the
    items of [l]. *)
Lemma for_each_range_getitem {St A : Type} (l : list A)
    (body : St → A → result St) (s : St) :
  for_each (py_range 0 (length l)) (λ st j, x ← py_getitem l j; body st x) s
  = for_each l body s.
Proof.
  unfold py_range. rewrite Nat.sub_0_r.
  assert (H : ∀ l1 l2 s,
    for_each (seq (length l1) (length l2))
      (λ st j, x ← py_getitem (l1 ++ l2) j; body st x) s
    = for_each l2 body s).
  { intros l1 l2. revert l1. induction l2 as [|x l2 IH]; intros l1 s'; [done|].
    assert (Hx : py_getitem (l1 ++ x :: l2) (length l1) = Ok x).
    { unfold py_getitem. by rewrite list_lookup_middle. }
    cbn [length seq for_each]. rewrite Hx, bind_Ok.
    destruct (body s' x) as [s''|e]; [|done]. rewrite !bind_Ok.
    replace (l1 ++ x :: l2) with ((l1 ++ [x]) ++ l2) by by rewrite <- app_assoc.
    replace (S (length l1)) with (length (l1 ++ [x]))
      by (rewrite length_app; simpl; lia).
    apply IH. }
  apply (H [] l s).
Qed.

Section combined_descriptors.
Context {T W : Type}.

Lemma for_each_invoke (fs : list (@callable T W)) (acc : list (list T)) (w : W) :
  for_each fs (λ st f, let '(v, w') := f st.2 in Ok (st.1 ++ [v], w')) (acc, w)
  = Ok (acc ++ (invoke_all fs w).1, (invoke_all fs w).2).
Proof.
  revert acc w. induction fs as [|f fs IH]; intros acc w; simpl.
  - by rewrite app_nil_r.
  - destruct (f w) as [v w1]. rewrite bind_Ok, IH.
    destruct (invoke_all fs w1) as [vs w2]. simpl. by rewrite <- app_assoc.
Qed.

End combined_descriptors.

(** C7.  Given at least 2 callables, [get_combined_descriptors] calls them
    in the reverse of the list order, each once, and returns their results
    concatenated in that same reversed order; given fewer than 2 it fails
    the assertion. *)
Theorem get_combined_descriptors_reversed {T W : Type}
    (vec_list : list (@callable T W)) (w : W) :
  (2 ≤ length vec_list →
     get_combined_descriptors vec_list w
     = Ok (concat (invoke_all (reverse vec_list) w).1,
           (invoke_all (reverse vec_list) w).2))
  ∧ (length vec_list < 2 →
     get_combined_descriptors vec_list w = Raise AssertionError).
Proof.
  unfold get_combined_descriptors. split; intros Hlen.
  - rewrite bool_decide_true by done.
    rewrite (for_each_ext _ _
               (λ st j, f ← py_getitem (reverse vec_list) j;
                        let '(v, w') := f st.2 in Ok (st.1 ++ [v], w')))
      by (by intros [L_F w'] j _).
    rewrite (for_each_range_getitem (reverse vec_list)
               (λ st f, let '(v, w') := f st.2 in Ok (st.1 ++ [v], w'))).
    by rewrite for_each_invoke.
  - by rewrite bool_decide_false by lia.
Qed.

Lemma get_combined_descriptors_reversed_witness :
  get_combined_descriptors
    [probe 0 [1%Z]; probe 1 [2%Z; 3%Z]; probe 2 [4%Z]] []
  = Ok ([4; 2; 3; 1]%Z, [2; 1; 0]).
Proof.
  exact (proj1 (get_combined_descriptors_reversed
                  [probe 0 [1%Z]; probe 1 [2%Z; 3%Z]; probe 2 [4%Z]] [])
           (le_S _ _ (le_n 2))).
Defined.

Lemma mapM_result_cons {A B : Type} (f : A → result B) (x : A) (l : list A) :
  mapM f (x :: l) = y ← f x; k ← mapM f l; Ok (y :: k).
Proof. reflexivity. Qed.

Section keyvaluepair.
Context {scalar float : Type}.
Variable py_float : scalar → float + float_failure.
Implicit Types (a : @atoms scalar) (c : list (@atoms scalar)).

Lemma get_keyvaluepair_nonempty c name :
  c ≠ [] →
  get_keyvaluepair py_float c name
  = out ← mapM (read_field py_float name) c; Ok (KvpValues out).
Proof.
  intros Hc. unfold get_keyvaluepair.
  rewrite bool_decide_false by (by destruct c).
  rewrite (for_each_ext _ _ (λ out a, y ← read_field py_float name a; Ok (out ++ [y]))).
  - rewrite for_each_append. by destruct (mapM (read_field py_float name) c).
  - intros out a _. unfold read_field, field.
    destruct (key_value_pairs a) as [m|]; [|done]. simpl.
    destruct (m !! name) as [x|]; [|done]. simpl.
    by destruct (py_float x).
Qed.

Lemma read_field_KeyError name a :
  read_field py_float name a = Raise KeyError ↔ field a name = None.
Proof.
  unfold read_field. destruct (field a name) as [x|]; [|done].
  destruct (py_float x) as [v|[]]; simpl; split; intros; done.
Qed.

Lemma mapM_read_field_KeyError name c :
  mapM (read_field py_float name) c = Raise KeyError →
  ∃ a, a ∈ c ∧ field a name = None.
Proof.
  induction c as [|a c IH]; [done|]. rewrite mapM_result_cons.
  destruct (read_field py_float name a) as [v|e] eqn:Ha; simpl.
  - destruct (mapM (read_field py_float name) c) as [vs|e]; simpl; [done|].
    intros [= ->]. destruct IH as (a' & Hin & Hf); [done|].
    exists a'. split; [by right | done].
  - intros [= ->]. exists a. split; [by left|].
    by apply read_field_KeyError.
Qed.

Lemma mapM_read_field_missing name c :
  numeric_field py_float c name → (∃ a, a ∈ c ∧ field a name = None) →
  mapM (read_field py_float name) c = Raise KeyError.
Proof.
  intros Hnum (a & Hin & Hf). induction c as [|a0 c IH]; [by inversion Hin|].
  rewrite mapM_result_cons. destruct (field a0 name) as [x|] eqn:Hx.
  - destruct (Hnum a0 x) as [v Hv]; [by left | done |].
    assert (Ha0 : read_field py_float name a0 = Ok v)
      by (unfold read_field; by rewrite Hx, Hv).
    rewrite Ha0, bind_Ok.
    apply elem_of_cons in Hin as [->|Hin]; [congruence|].
    rewrite IH; [done | | done].
    intros a' x' Hin'. apply Hnum. by right.
  - assert (Ha0 : read_field py_float name a0 = Raise KeyError)
      by (unfold read_field; by rewrite Hx).
    by rewrite Ha0.
Qed.

Lemma mapM_read_field_present name c :
  numeric_field py_float c name → (∀ a, a ∈ c → is_Some (field a name)) →
  ∃ values,
    mapM (read_field py_float name) c = Ok values
    ∧ Forall2 (λ a v, ∃ x, field a name = Some x ∧ py_float x = inl v) c values.
Proof.
  intros Hnum Hall. induction c as [|a c IH].
  - exists []. split; [done | constructor].
  - destruct (Hall a) as [x Hx]; [by left|].
    destruct (Hnum a x) as [v Hv]; [by left | done |].
    destruct IH as (values & Hrun & Hval).
    { intros a' x' Hin'. apply Hnum. by right. }
    { intros a' Hin'. apply Hall. by right. }
    assert (Ha : read_field py_float name a = Ok v)
      by (unfold read_field; by rewrite Hx, Hv).
    exists (v :: values). rewrite mapM_result_cons, Ha, bind_Ok, Hrun.
    split; [done|]. constructor; [eauto | done].
Qed.
End keyvaluepair.

(** C9.  On an empty collection [get_keyvaluepair] returns the one label
    ['kvp_' + vec_name].  On a non-empty one whose stored field values are
    all convertible by [float]: it returns, structure by structure and in
    order, the float of the value under [vec_name]; it raises [KeyError]
    exactly when some structure's metadata lacks the field.  (Without the
    assumption on the values, a [KeyError] still only comes from a missing
    field.) *)
Theorem get_keyvaluepair_values_or_KeyError {scalar float : Type}
    (py_float : scalar → float + float_failure)
    (c : list (@atoms scalar)) (vec_name : string) :
  (c = [] →
     get_keyvaluepair py_float c vec_name
     = Ok (KvpLabels ["kvp_" +:+ vec_name]))
  ∧ (c ≠ [] →
     get_keyvaluepair py_float c vec_name = Raise KeyError →
     ∃ a, a ∈ c ∧ field a vec_name = None)
  ∧ (c ≠ [] → numeric_field py_float c vec_name →
     ((∀ a, a ∈ c → is_Some (field a vec_name)) →
        ∃ values,
          get_keyvaluepair py_float c vec_name = Ok (KvpValues values)
          ∧ Forall2 (λ a v, ∃ x, field a vec_name = Some x
                                 ∧ py_float x = inl v) c values)
     ∧ (get_keyvaluepair py_float c vec_name = Raise KeyError
        ↔ ∃ a, a ∈ c ∧ field a vec_name = None)).
Proof.
  split; [by intros ->|]. split.
  - intros Hc. rewrite get_keyvaluepair_nonempty by done.
    destruct (mapM (read_field py_float vec_name) c) as [vs|e] eqn:Hrun;
      simpl; [done|].
    intros [= ->]. by eapply mapM_read_field_KeyError.
  - intros Hc Hnum. rewrite get_keyvaluepair_nonempty by done. split.
    + intros Hall.
      destruct (mapM_read_field_present py_float vec_name c Hnum Hall)
        as (values & -> & Hval).
      by exists values.
    + split.
      * destruct (mapM (read_field py_float vec_name) c) as [vs|e] eqn:Hrun;
          simpl; [done|].
        intros [= ->]. by eapply mapM_read_field_KeyError.
      * intros Hmiss.
        by rewrite (mapM_read_field_missing py_float vec_name c Hnum Hmiss).
Qed.

Lemma get_keyvaluepair_values_or_KeyError_witness :
  get_keyvaluepair (λ z : Z, inl (inject_Z z))
    [Atoms [1; 8]%Z (Some {[ "energy" := 3%Z ]}); Atoms [1]%Z None] "energy"
  = Raise KeyError.
Proof.
  apply (proj2 (proj2 (get_keyvaluepair_values_or_KeyError
                         (λ z : Z, inl (inject_Z z))
                         [Atoms [1; 8]%Z (Some {[ "energy" := 3%Z ]});
                          Atoms [1]%Z None] "energy"))).
  - discriminate.
  - intros a x _ _. exists (inject_Z x). reflexivity.
  - exists (Atoms [1]%Z None). split; [|reflexivity].
    apply list_elem_of_further, list_elem_of_here.
Defined.

Lemma for_each_total {St I : Type} (xs : list I) (body : St → I → result St) s :
  (∀ st x, x ∈ xs → ∃ st', body st x = Ok st') →
  ∃ s', for_each xs body s = Ok s'.
Proof.
  revert s. induction xs as [|x xs IH]; intros s Hbody; simpl; [eauto|].
  destruct (Hbody s x) as [s1 ->]; [by left|]. rewrite bind_Ok.
  apply IH. intros st y Hy. apply Hbody. by right.
Qed.

Section return_vec_properties.
Context {T scalar : Type}.
Implicit Types (self : FeatureGenerator) (a : @atoms scalar)
  (fs : list (@fingerprint T scalar)).

(** [_get_vec] concatenates what the fingerprint functions return, in the
    order of [vec_names]. *)
Lemma _get_vec_concat self (obj : @pyobj scalar) fs (vs : list (list T)) :
  Forall2 (λ f v, f self obj = Ok v) fs vs →
  _get_vec self obj fs = Ok (concat vs).
Proof.
  intros Hfs.
  assert (Hcat : ∀ acc, for_each fs (λ fv name, v ← name self obj; Ok (fv ++ v))
                          acc = Ok (acc ++ concat vs)).
  { induction Hfs as [|f v fs vs Hv _ IH]; intros acc; cbn [for_each concat].
    - by rewrite app_nil_r.
    - rewrite Hv, !bind_Ok, IH. by rewrite <- app_assoc. }
  unfold _get_vec. case_bool_decide as Hlen.
  - destruct Hfs as [|f v fs vs Hv Hfs]; [done|].
    destruct Hfs; [|done]. simpl. by rewrite Hv, app_nil_r.
  - unfold _concatenate_vec. by rewrite Hcat.
Qed.

Lemma infer_atom_types self (structures : list (@atoms scalar)) :
  ∃ self', _get_atom_types self (PyList (ObjAtoms <$> structures)) None
           = Ok self'.
Proof.
  unfold _get_atom_types. cbn [py_iter].
  destruct (for_each_total (ObjAtoms <$> structures)
              (λ (atom_types : gset Z) (obj : @pyobj scalar),
                 nums ← get_atomic_numbers obj;
                 Ok (atom_types ∪ list_to_set nums)) ∅) as [s Hs].
  - intros st obj Hobj. apply list_elem_of_fmap in Hobj as (a & -> & _).
    simpl. eauto.
  - rewrite Hs. simpl. eauto.
Qed.

Lemma infer_atom_length self (structures : list (@atoms scalar)) :
  ∃ self', _get_atom_length self (PyList (ObjAtoms <$> structures)) None
           = Ok self'.
Proof.
  unfold _get_atom_length. cbn [py_iter].
  destruct (for_each_total (ObjAtoms <$> structures)
              (λ (max_len : nat) (obj : @pyobj scalar),
                 len_a ← obj_len obj;
                 Ok (if bool_decide (max_len < len_a) then len_a else max_len))
              0) as [s Hs].
  - intros st obj Hobj. apply list_elem_of_fmap in Hobj as (a & -> & _).
    simpl. eauto.
  - rewrite Hs. simpl. eauto.
Qed.

Lemma np_asarray_uniform (rows : list (list T)) (m : nat) :
  Forall (λ r, length r = m) rows →
  ∃ M, np_asarray rows = Ok M ∧ shape0 M = length rows ∧ data M = rows.
Proof.
  intros Hrows. unfold np_asarray. destruct Hrows as [|r rows Hr Hrows].
  - rewrite bool_decide_true by constructor. eauto.
  - rewrite bool_decide_true.
    + eauto.
    + constructor; [done|]. eapply Forall_impl; [exact Hrows|].
      simpl. congruence.
Qed.

(** On a list of structures [return_vec] stacks one row per structure, in
    list order: row k is what [_get_vec] assembles for the k-th structure
    (with the generator's attributes as the call leaves them), provided
    those rows come out and agree in length. *)
Lemma return_vec_list self (structures : list (@atoms scalar))
    (vec_names : @vec_names_arg T scalar) :
  ∃ self',
    ∀ m, (∀ a, a ∈ structures →
            ∃ v, _get_vec self' (ObjAtoms a)
                   (match vec_names with VecList fs => fs | VecSingle f => [f] end)
                 = Ok v ∧ length v = m) →
      ∃ M, return_vec self (PyList (ObjAtoms <$> structures)) vec_names
           = (Ok M, self')
         ∧ shape0 M = length structures
         ∧ Forall2 (λ a row,
              _get_vec self' (ObjAtoms a)
                (match vec_names with VecList fs => fs | VecSingle f => [f] end)
              = Ok row) structures (data M).
Proof.
  unfold return_vec. cbn [is_list_or_defaultdict negb py_iter].
  set (fs := match vec_names with VecList fs => fs | VecSingle f => [f] end).
  assert (H1 : ∃ self1,
    match atom_types self with
    | None => _get_atom_types self (PyList (ObjAtoms <$> structures)) None
    | Some _ => Ok self
    end = Ok self1).
  { destruct (atom_types self); [eauto | apply infer_atom_types]. }
  destruct H1 as [self1 ->].
  assert (H2 : ∃ self2,
    match atom_len self1 with
    | None => _get_atom_length self1 (PyList (ObjAtoms <$> structures)) None
    | Some _ => Ok self1
    end = Ok self2).
  { destruct (atom_len self1); [eauto | apply infer_atom_length]. }
  destruct H2 as [self2 ->].
  exists self2. intros m Hgen.
  rewrite (for_each_append (λ obj, _get_vec self2 obj fs)).
  destruct (mapM_result_Forall (λ obj, _get_vec self2 obj fs)
              (λ v, length v = m) (ObjAtoms <$> structures))
    as (rows & Hrun & Hlen & Hcount).
  { apply Forall_fmap, Forall_forall. intros a Ha. by apply Hgen. }
  rewrite Hrun, bind_Ok. simpl.
  destruct (np_asarray_uniform rows m Hlen) as (M & -> & Hn & Hdata).
  exists M. split; [done|]. split.
  - by rewrite Hn, Hcount, length_fmap.
  - rewrite Hdata. apply mapM_result_Forall2 in Hrun.
    by apply Forall2_fmap_l in Hrun.
Qed.
End return_vec_properties.

(** C8.  What [return_vec] does with a default mapping: [for atoms in
    candidates] iterates over the mapping's keys, so the result is the one
    for the list of keys and the stored structures are never read; with
    [atom_types] unset and a string key, the call raises [AttributeError]
    while inferring the atom types.  A tuple or a plain dict is refused
    with [TypeError]. *)
Theorem return_vec_defaultdict_reads_keys {T scalar : Type}
    (self : FeatureGenerator) (d : list (@pyobj scalar * @pyobj scalar))
    (vec_names : @vec_names_arg T scalar) :
  return_vec self (PyDefaultDict d) vec_names
  = return_vec self (PyList d.*1) vec_names
  ∧ (∀ key value al,
       return_vec {| atom_types := None; atom_len := al |}
         (PyDefaultDict ((ObjStr key, value) :: d)) vec_names
       = (Raise AttributeError, {| atom_types := None; atom_len := al |}))
  ∧ (∀ l, return_vec self (PyTuple l) vec_names = (Raise TypeError, self))
  ∧ return_vec self (PyDict d) vec_names = (Raise TypeError, self).
Proof. repeat split. Qed.

(** ** FeatureAssembler: the cached attributes *)

Lemma sorted_le_NoDup_lt (l : list Z) :
  StronglySorted Z.le l → NoDup l → StronglySorted Z.lt l.
Proof.
  induction 1 as [|x l _ IH Hx]; intros Hnd; [constructor|].
  apply NoDup_cons in Hnd as [Hnotin Hnd]. constructor; [by apply IH|].
  apply Forall_forall. intros y Hy.
  rewrite Forall_forall in Hx. specialize (Hx y Hy).
  assert (x ≠ y) by (intros ->; done). lia.
Qed.

Section atom_attributes.
Context {scalar : Type}.
Implicit Types (self : FeatureGenerator) (a : @atoms scalar)
  (structures : list (@atoms scalar)) (train : @container scalar)
  (test : option (@container scalar)).

Lemma collect_atom_types structures (acc : gset Z) :
  ∃ s : gset Z,
    for_each (ObjAtoms <$> structures)
      (λ (atom_types : gset Z) (obj : @pyobj scalar),
         nums ← get_atomic_numbers obj; Ok (atom_types ∪ list_to_set nums)) acc
    = Ok s
    ∧ ∀ z, z ∈ s ↔ z ∈ acc ∨ ∃ a, a ∈ structures ∧ z ∈ atomic_numbers a.
Proof.
  revert acc. induction structures as [|a structures IH]; intros acc.
  - exists acc. split; [done|]. intros z. split; [auto|].
    intros [?|(a & Ha & _)]; [done | by apply elem_of_nil in Ha].
  - destruct (IH (acc ∪ list_to_set (atomic_numbers a))) as (s & Hs & Hin).
    exists s. split; [exact Hs|]. intros z. rewrite Hin.
    rewrite elem_of_union, elem_of_list_to_set. split.
    + intros [[?|?]|(a' & Ha' & ?)]; [by left | right | right].
      * exists a. split; [by left | done].
      * exists a'. split; [by right | done].
    + intros [?|(a' & Ha' & ?)]; [by left; left|].
      apply elem_of_cons in Ha' as [->|Ha']; [by left; right|].
      right. by exists a'.
Qed.

Lemma collect_atom_length structures (acc : nat) :
  for_each (ObjAtoms <$> structures)
    (λ (max_len : nat) (obj : @pyobj scalar),
       len_a ← obj_len obj;
       Ok (if bool_decide (max_len < len_a) then len_a else max_len)) acc
  = Ok (acc `max` max_list ((λ a, length (atomic_numbers a)) <$> structures)).
Proof.
  revert acc. induction structures as [|a structures IH]; intros acc.
  - simpl. f_equal. lia.
  - cbn [fmap list_fmap for_each obj_len]. rewrite bind_Ok, bind_Ok, IH.
    f_equal. simpl. case_bool_decide; lia.
Qed.

(** The first candidate that is not an atoms object stops the inference of
    the atom types with an [AttributeError]. *)
Lemma collect_atom_types_stranger (objs : list (@pyobj scalar)) (acc : gset Z) :
  (∃ obj, obj ∈ objs ∧ ∀ a, obj ≠ ObjAtoms a) →
  for_each objs
    (λ (atom_types : gset Z) (obj : @pyobj scalar),
       nums ← get_atomic_numbers obj; Ok (atom_types ∪ list_to_set nums)) acc
  = Raise AttributeError.
Proof.
  intros (obj & Hin & Hobj). revert acc.
  induction objs as [|o objs IH]; intros acc; [by apply elem_of_nil in Hin|].
  cbn [for_each]. destruct o as [a|s|z]; try done.
  apply elem_of_cons in Hin as [->|Hin]; [by destruct (Hobj a)|].
  cbn [get_atomic_numbers]. rewrite !bind_Ok. by apply IH.
Qed.

Lemma candidates_all train test :
  match test with
  | Some t => py_iter train ++ py_iter t
  | None => py_iter train
  end = py_iter train ++ from_option py_iter [] test.
Proof. destruct test; simpl; [done | by rewrite app_nil_r]. Qed.

Lemma sorted_elements (s : gset Z) :
  StronglySorted Z.lt (merge_sort Z.le (elements s))
  ∧ ∀ z, z ∈ merge_sort Z.le (elements s) ↔ z ∈ s.
Proof.
  split.
  - apply sorted_le_NoDup_lt.
    + apply StronglySorted_merge_sort; apply _.
    + rewrite merge_sort_Permutation. apply NoDup_elements.
  - intros z. by rewrite merge_sort_Permutation, elem_of_elements.
Qed.

Lemma max_list_attained (ns : list nat) :
  (∀ n, n ∈ ns → n ≤ max_list ns) ∧ (ns ≠ [] → max_list ns ∈ ns).
Proof. split; [intros n; apply max_list_elem_of_le | apply max_list_elem_of]. Qed.

(** [_get_atom_types] stores the sorted, duplicate-free list of exactly
    the atomic numbers that occur in the train and test structures, and
    leaves [atom_len] alone; a candidate that is not an atoms object makes
    it raise [AttributeError]. *)
Lemma _get_atom_types_vocabulary self train test :
  (∀ structures,
     py_iter train ++ from_option py_iter [] test = ObjAtoms <$> structures →
     ∃ ts, _get_atom_types self train test
           = Ok {| atom_types := Some ts; atom_len := atom_len self |}
         ∧ StronglySorted Z.lt ts
         ∧ ∀ z, z ∈ ts ↔ ∃ a, a ∈ structures ∧ z ∈ atomic_numbers a)
  ∧ ((∃ obj, obj ∈ py_iter train ++ from_option py_iter [] test
             ∧ ∀ a, obj ≠ ObjAtoms a) →
     _get_atom_types self train test = Raise AttributeError).
Proof.
  unfold _get_atom_types. rewrite candidates_all. split.
  - intros structures ->.
    destruct (collect_atom_types structures ∅) as (s & -> & Hs).
    rewrite bind_Ok. eexists. split; [done|].
    destruct (sorted_elements s) as [Hsorted Hin]. split; [done|].
    intros z. rewrite Hin, Hs.
    split; [intros [?|?]; [set_solver | done] | auto].
  - intros Hobj. by rewrite collect_atom_types_stranger.
Qed.

(** [_get_atom_length] stores the largest atom count among the train and
    test structures (0 when there are none) and leaves [atom_types]
    alone. *)
Lemma _get_atom_length_max self train test structures :
  py_iter train ++ from_option py_iter [] test = ObjAtoms <$> structures →
  ∃ m, _get_atom_length self train test
       = Ok {| atom_types := atom_types self; atom_len := Some m |}
     ∧ (∀ a, a ∈ structures → length (atomic_numbers a) ≤ m)
     ∧ (structures = [] → m = 0)
     ∧ (structures ≠ [] → ∃ a, a ∈ structures ∧ length (atomic_numbers a) = m).
Proof.
  intros Hall. unfold _get_atom_length. rewrite candidates_all, Hall.
  rewrite collect_atom_length, bind_Ok. rewrite Nat.max_0_l.
  eexists. split; [done|]. split; [|split].
  - intros a Ha. apply max_list_elem_of_le.
    apply list_elem_of_fmap. by exists a.
  - by intros ->.
  - intros Hne.
    pose proof (max_list_elem_of ((λ a, length (atomic_numbers a)) <$> structures))
      as Hmax.
    destruct (list_elem_of_fmap_1 _ _ _ (Hmax ltac:(by destruct structures)))
      as (a & Ha & Hin).
    by exists a.
Qed.

(** [normalize_features] recomputes both attributes from the train and
    test structures together, whatever was cached before: the joint sorted
    vocabulary and the joint largest atom count. *)
Lemma normalize_features_joint self train test structures :
  py_iter train ++ from_option py_iter [] test = ObjAtoms <$> structures →
  ∃ ts m,
    normalize_features self train test
    = Ok {| atom_types := Some ts; atom_len := Some m |}
    ∧ StronglySorted Z.lt ts
    ∧ (∀ z, z ∈ ts ↔ ∃ a, a ∈ structures ∧ z ∈ atomic_numbers a)
    ∧ (∀ a, a ∈ structures → length (atomic_numbers a) ≤ m)
    ∧ (structures ≠ [] → ∃ a, a ∈ structures ∧ length (atomic_numbers a) = m).
Proof.
  intros Hall. unfold normalize_features, _get_atom_types, _get_atom_length.
  rewrite !candidates_all, Hall.
  destruct (collect_atom_types structures ∅) as (s & -> & Hs).
  rewrite !bind_Ok, collect_atom_length, bind_Ok, Nat.max_0_l. cbn [atom_types].
  destruct (sorted_elements s) as [Hsorted Hin].
  destruct (max_list_attained ((λ a, length (atomic_numbers a)) <$> structures))
    as [Hle Hmax].
  eexists _, _. split; [done|]. split; [done|]. split; [|split].
  - intros z. rewrite Hin, Hs.
    split; [intros [?|?]; [set_solver | done] | auto].
  - intros a Ha. apply Hle, list_elem_of_fmap. by exists a.
  - intros Hne.
    destruct (list_elem_of_fmap_1 _ _ _ (Hmax ltac:(by destruct structures)))
      as (a & Ha & Hina).
    by exists a.
Qed.

Lemma _get_atom_types_Ok self train test self' :
  _get_atom_types self train test = Ok self' →
  is_Some (atom_types self') ∧ atom_len self' = atom_len self.
Proof.
  unfold _get_atom_types. intros H.
  apply bind_Ok_inv in H as (s & _ & [= <-]). by split.
Qed.

Lemma _get_atom_length_Ok self train test self' :
  _get_atom_length self train test = Ok self' →
  is_Some (atom_len self') ∧ atom_types self' = atom_types self.
Proof.
  unfold _get_atom_length. intros H.
  apply bind_Ok_inv in H as (s & _ & [= <-]). by split.
Qed.
End atom_attributes.

Section return_vec_cache.
Context {T scalar : Type}.
Implicit Types (self : FeatureGenerator) (cand : @container scalar)
  (vec_names : @vec_names_arg T scalar).

(** [return_vec] never changes an attribute that is already set, whether
    it returns or raises. *)
Lemma return_vec_keeps_cached self cand vec_names :
  (∀ ts, atom_types self = Some ts →
         atom_types (return_vec self cand vec_names).2 = Some ts)
  ∧ (∀ n, atom_len self = Some n →
          atom_len (return_vec self cand vec_names).2 = Some n).
Proof.
  unfold return_vec. destruct (is_list_or_defaultdict cand); [|done].
  cbn [negb]. destruct self as [[ts|] [n|]]; cbn [atom_types atom_len].
  - split; intros ? [= <-]; done.
  - destruct (_get_atom_length _ cand None) as [s|e] eqn:Hs; [|by split].
    apply _get_atom_length_Ok in Hs as [_ Hts]. simpl in Hts.
    split; [|done]. intros ? [= <-]. done.
  - destruct (_get_atom_types _ cand None) as [s|e] eqn:Hs; [|by split].
    apply _get_atom_types_Ok in Hs as [[ts Hts] Hn]. simpl in Hn.
    rewrite Hn. cbn [atom_len]. split; [done|]. intros ? [= <-].
    simpl. done.
  - split; done.
Qed.

(** With both attributes set, [return_vec] on a list or default mapping
    is the stacking of the [_get_vec] rows and leaves the generator as it
    is. *)
Lemma return_vec_cached self cand vec_names :
  is_Some (atom_types self) → is_Some (atom_len self) →
  is_list_or_defaultdict cand = true →
  return_vec self cand vec_names
  = (rows ← mapM (λ obj, _get_vec self obj
                    (match vec_names with VecList fs => fs | VecSingle f => [f] end))
             (py_iter cand);
     np_asarray rows, self).
Proof.
  intros [ts Hts] [n Hn] Hc. unfold return_vec. rewrite Hc, Hts. cbn [negb].
  rewrite Hn. rewrite for_each_append. f_equal.
  by destruct (mapM _ _).
Qed.

Lemma np_asarray_width (rows : list (list T)) (r : list T) M :
  np_asarray (r :: rows) = Ok M → shape1 M = length r.
Proof.
  unfold np_asarray. case_bool_decide; [|done]. by intros [= <-].
Qed.

(** After [normalize_features], every [return_vec] call leaves the cached
    attributes as they are, so the fingerprint functions see the same
    generator for the train and for the test set; when the length of a row
    only depends on the generator, the two matrices have the same number
    of columns. *)
Lemma normalize_features_same_width self0 self
    (train test : @container scalar) vec_names :
  normalize_features self0 train (Some test) = Ok self →
  (∀ cand, (return_vec self cand vec_names).2 = self)
  ∧ ∀ m M1 M2,
      (∀ obj v, _get_vec self obj
                  (match vec_names with VecList fs => fs | VecSingle f => [f] end)
                = Ok v → length v = m) →
      py_iter train ≠ [] → py_iter test ≠ [] →
      (return_vec self train vec_names).1 = Ok M1 →
      (return_vec self test vec_names).1 = Ok M2 →
      shape1 M1 = m ∧ shape1 M2 = m.
Proof.
  intros Hnorm. unfold normalize_features in Hnorm.
  apply bind_Ok_inv in Hnorm as (self1 & H1 & H2).
  apply _get_atom_types_Ok in H1 as [Hts1 _].
  apply _get_atom_length_Ok in H2 as [Hn Hts]. rewrite <- Hts in Hts1.
  assert (Hwidth : ∀ cand m M,
    (∀ obj v, _get_vec self obj
                (match vec_names with VecList fs => fs | VecSingle f => [f] end)
              = Ok v → length v = m) →
    py_iter cand ≠ [] → (return_vec self cand vec_names).1 = Ok M →
    shape1 M = m).
  { intros cand m M Hm Hne Hrun.
    destruct (is_list_or_defaultdict cand) eqn:Hc.
    - rewrite return_vec_cached in Hrun by done. cbn [fst] in Hrun.
      destruct (py_iter cand) as [|obj objs]; [done|].
      rewrite mapM_result_cons in Hrun.
      apply bind_Ok_inv in Hrun as (rows & Hrows & Harr).
      apply bind_Ok_inv in Hrows as (r & Hr & Hrows).
      apply bind_Ok_inv in Hrows as (rs & _ & [= <-]).
      apply np_asarray_width in Harr. rewrite Harr. by eapply Hm.
    - unfold return_vec in Hrun. by rewrite Hc in Hrun. }
  split.
  - intros cand. destruct (is_list_or_defaultdict cand) eqn:Hc.
    + by rewrite return_vec_cached.
    + unfold return_vec. by rewrite Hc.
  - intros m M1 M2 Hm Htrain Htest Hrun1 Hrun2.
    split; [exact (Hwidth train m M1 Hm Htrain Hrun1)
           | exact (Hwidth test m M2 Hm Htest Hrun2)].
Qed.
End return_vec_cache.

Section get_vec_properties.
Context {T scalar : Type}.
Implicit Types (self : FeatureGenerator) (obj : @pyobj scalar)
  (fs : list (@fingerprint T scalar)).

Lemma _concatenate_vec_from self obj fs (acc : list T) :
  (∀ vs, Forall2 (λ f v, f self obj = Ok v) fs vs →
     for_each fs (λ fv name, v ← name self obj; Ok (fv ++ v)) acc
     = Ok (acc ++ concat vs))
  ∧ (∀ fs1 f fs2 vs e,
       fs = fs1 ++ f :: fs2 → Forall2 (λ f v, f self obj = Ok v) fs1 vs →
       f self obj = Raise e →
       for_each fs (λ fv name, v ← name self obj; Ok (fv ++ v)) acc
       = Raise e).
Proof.
  split.
  - intros vs Hfs. revert acc.
    induction Hfs as [|f v fs vs Hv _ IH]; intros acc; cbn [for_each concat].
    + by rewrite app_nil_r.
    + rewrite Hv, !bind_Ok, IH. by rewrite <- app_assoc.
  - intros fs1 f fs2 vs e -> Hfs1 He. revert acc.
    induction Hfs1 as [|f1 v fs1 vs Hv _ IH]; intros acc; cbn [for_each app].
    + by rewrite He.
    + rewrite Hv, !bind_Ok. apply IH.
Qed.

(** [_get_vec] returns the entries the fingerprint functions return,
    joined in the order of [vec_names], for one function as for several;
    the first function that raises decides the exception, whatever the
    functions after it would return. *)
Lemma _get_vec_joins_in_order self obj fs :
  (∀ vs, Forall2 (λ f v, f self obj = Ok v) fs vs →
     _get_vec self obj fs = Ok (concat vs))
  ∧ (∀ fs1 f fs2 vs e,
       fs = fs1 ++ f :: fs2 → Forall2 (λ f v, f self obj = Ok v) fs1 vs →
       f self obj = Raise e → _get_vec self obj fs = Raise e).
Proof.
  assert (Heq : _get_vec self obj fs = _concatenate_vec self obj fs).
  { unfold _get_vec, _concatenate_vec. case_bool_decide as Hlen; [|done].
    destruct fs as [|f [|??]]; try done. simpl.
    by destruct (f self obj). }
  rewrite Heq. unfold _concatenate_vec.
  destruct (_concatenate_vec_from self obj fs []) as [Hok Herr].
  split.
  - intros vs Hvs. by rewrite (Hok vs Hvs).
  - intros fs1 f fs2 vs e Hfs Hfs1 He. by eapply Herr.
Qed.
End get_vec_properties.

Lemma _get_atom_length_max_witness :
  ∃ m, _get_atom_length {| atom_types := None; atom_len := Some 7 |}
         (PyList [ObjAtoms (Atoms [1; 8; 1]%Z (@None (gmap string Z)))])
         (Some (PyList [ObjAtoms (Atoms [6]%Z None)]))
       = Ok {| atom_types := None; atom_len := Some m |}
     ∧ 3 ≤ m.
Proof.
  destruct (_get_atom_length_max {| atom_types := None; atom_len := Some 7 |}
              (PyList [ObjAtoms (Atoms [1; 8; 1]%Z (@None (gmap string Z)))])
              (Some (PyList [ObjAtoms (Atoms [6]%Z None)]))
              [Atoms [1; 8; 1]%Z None; Atoms [6]%Z None] eq_refl)
    as (m & Hrun & Hle & _).
  exists m. split; [exact Hrun|].
  apply (Hle (Atoms [1; 8; 1]%Z None)), list_elem_of_here.
Defined.

Lemma normalize_features_joint_witness :
  ∃ ts m,
    normalize_features {| atom_types := Some [99]%Z; atom_len := Some 7 |}
      (PyList [ObjAtoms (Atoms [1; 8; 1]%Z (@None (gmap string Z)))])
      (Some (PyList [ObjAtoms (Atoms [6]%Z None)]))
    = Ok {| atom_types := Some ts; atom_len := Some m |}
    ∧ (6%Z ∈ ts) ∧ 3 ≤ m.
Proof.
  destruct (normalize_features_joint
              {| atom_types := Some [99]%Z; atom_len := Some 7 |}
              (PyList [ObjAtoms (Atoms [1; 8; 1]%Z (@None (gmap string Z)))])
              (Some (PyList [ObjAtoms (Atoms [6]%Z None)]))
              [Atoms [1; 8; 1]%Z None; Atoms [6]%Z None] eq_refl)
    as (ts & m & Hrun & _ & Hts & Hle & _).
  exists ts, m. split; [exact Hrun|]. split.
  - apply Hts. exists (Atoms [6]%Z None).
    split; [apply list_elem_of_further, list_elem_of_here | apply list_elem_of_here].
  - apply (Hle (Atoms [1; 8; 1]%Z None)), list_elem_of_here.
Defined.

Lemma normalize_features_same_width_witness :
  (return_vec (T:=Z) {| atom_types := Some [1; 6; 8]%Z; atom_len := Some 3 |}
     (PyList [ObjAtoms (Atoms [6]%Z (@None (gmap string Z)))])
     (VecSingle (λ self obj, Ok [0%Z]))).2
  = {| atom_types := Some [1; 6; 8]%Z; atom_len := Some 3 |}.
Proof.
  apply (proj1 (normalize_features_same_width (T:=Z)
                  {| atom_types := None; atom_len := None |}
                  {| atom_types := Some [1; 6; 8]%Z; atom_len := Some 3 |}
                  (PyList [ObjAtoms (Atoms [1; 8; 1]%Z (@None (gmap string Z)))])
                  (PyList [ObjAtoms (Atoms [6]%Z None)])
                  (VecSingle (λ self obj, Ok [0%Z]))
                  ltac:(vm_compute; reflexivity))).
Defined.

(** ** ScreeningReducer: alignment of labels, and loops that never end *)

Lemma np_index_inv (m : nat) (z : Z) (i : nat) :
  np_index m z = Ok i → i < m.
Proof. unfold np_index. case_bool_decide; [|done]. intros [= <-]. lia. Qed.

Lemma py_getitem_Ok {A : Type} (l : list A) (i : nat) (x : A) :
  py_getitem l i = Ok x ↔ l !! i = Some x.
Proof. unfold py_getitem. destruct (l !! i); split; by intros [= ->]. Qed.

Section selection.
Context {T : Type}.
Implicit Types (X : ndarray T) (l : list string).

Lemma selects_refl X l :
  wf_ndarray X → length l = shape1 X → selects X l X l.
Proof.
  intros HX Hl. exists (seq 0 (shape1 X)).
  split; [apply length_seq|]. split; [done|].
  intros k i Hk. apply lookup_seq in Hk as [-> Hk]. simpl.
  destruct (col_Ok X k HX Hk) as (c & Hc & _).
  destruct (lookup_lt_is_Some_2 l k) as [s Hs]; [lia|]. by exists c, s.
Qed.

Lemma selects_trans X0 l0 X1 l1 X2 l2 :
  selects X0 l0 X1 l1 → selects X1 l1 X2 l2 → selects X0 l0 X2 l2.
Proof.
  intros (idx1 & Hlen1 & Hl1 & H1) (idx2 & Hlen2 & Hl2 & H2).
  exists (omap (λ i, idx1 !! i) idx2).
  assert (Hall : ∀ k j, idx2 !! k = Some j → is_Some (idx1 !! j)).
  { intros k j Hk. destruct (H2 k j Hk) as (c & s & Hc & _ & Hs & _).
    apply lookup_lt_is_Some_2. rewrite Hlen1, <- Hl1.
    by eapply lookup_lt_Some. }
  assert (Hmap : omap (λ i, idx1 !! i) idx2
                 = (λ j, default 0 (idx1 !! j)) <$> idx2).
  { clear -Hall. induction idx2 as [|j idx2 IH]; [done|]. simpl.
    destruct (Hall 0 j eq_refl) as [i ->]. simpl. f_equal.
    apply IH. intros k j' Hk. by apply (Hall (S k)). }
  rewrite Hmap, length_fmap. split; [done|]. split; [done|].
  intros k i Hk. rewrite list_lookup_fmap in Hk.
  destruct (idx2 !! k) as [j|] eqn:Hj; [|done]. simpl in Hk.
  destruct (Hall k j Hj) as [i' Hi']. rewrite Hi' in Hk. simpl in Hk.
  injection Hk as <-.
  destruct (H2 k j Hj) as (c & s & Hc1 & Hc2 & Hs1 & Hs2).
  destruct (H1 j i' Hi') as (c' & s' & Hc0 & Hc1' & Hs0 & Hs1').
  rewrite Hc1 in Hc1'. injection Hc1' as <-.
  rewrite Hs1 in Hs1'. injection Hs1' as <-.
  by exists c, s.
Qed.

(** One reduction step: the columns and the labels are taken at the same
    places. *)
Lemma take_cols_items_selects X l (sel : list Z) X1 l1 :
  wf_ndarray X → length l = shape1 X →
  take_cols X sel = Ok X1 → take_items l sel = Ok l1 →
  wf_ndarray X1 ∧ shape0 X1 = shape0 X ∧ selects X l X1 l1.
Proof.
  intros HX Hl Hcols Hitems. pose proof HX as [Hn Hrows].
  unfold take_cols in Hcols.
  apply bind_Ok_inv in Hcols as (idx & Hidx & Hcols).
  apply bind_Ok_inv in Hcols as (rows & Hrs & [= <-]).
  pose proof (mapM_result_length _ _ _ Hidx) as Hlidx.
  apply mapM_result_Forall2 in Hidx.
  pose proof (mapM_result_length _ _ _ Hrs) as Hlrows.
  apply mapM_result_Forall2 in Hrs.
  unfold take_items in Hitems.
  pose proof (mapM_result_length _ _ _ Hitems) as Hll1.
  apply mapM_result_Forall2 in Hitems.
  assert (Hrow : ∀ a row row', data X !! a = Some row → rows !! a = Some row' →
            length row' = length sel
            ∧ ∀ k i, idx !! k = Some i → row' !! k = row !! i).
  { intros a row row' Ha Ha'.
    pose proof (Forall2_lookup_lr _ _ _ _ _ _ Hrs Ha Ha') as Hr. simpl in Hr.
    pose proof (mapM_result_length _ _ _ Hr) as Hlr.
    apply mapM_result_Forall2 in Hr. split; [congruence|].
    intros k i Hk.
    destruct (Forall2_lookup_l _ _ _ _ _ Hr Hk) as (x & Hx & Hget).
    apply py_getitem_Ok in Hget. congruence. }
  split; [|split; [done|]].
  - split; simpl; [congruence|]. apply Forall_lookup. intros a row' Ha'.
    destruct (lookup_lt_is_Some_2 (data X) a) as [row Ha].
    { rewrite <- Hlrows. by eapply lookup_lt_Some. }
    by destruct (Hrow a row row' Ha Ha') as [-> _].
  - exists idx. simpl. split; [done|]. split; [done|].
    intros k i Hk.
    destruct (Forall2_lookup_r _ _ _ _ _ Hidx Hk) as (z & Hz & Hzi).
    pose proof (np_index_inv _ _ _ Hzi) as Hi.
    destruct (col_Ok X i HX Hi) as (c & Hc & Hlc).
    destruct (Forall2_lookup_l _ _ _ _ _ Hitems Hz) as (s & Hs & Hget).
    simpl in Hget. rewrite Hl, Hzi, bind_Ok in Hget.
    apply py_getitem_Ok in Hget.
    exists c, s. split; [done|]. split; [|done].
    unfold col. simpl. rewrite bool_decide_true
      by (rewrite <- Hlidx; by eapply lookup_lt_Some).
    unfold col in Hc. rewrite bool_decide_true in Hc by done.
    destruct (mapM (λ row : list T, row !! i) (data X)) as [c'|] eqn:Hc';
      [|done].
    injection Hc as ->. apply mapM_Some in Hc'.
    assert (Hc1 : mapM (λ row : list T, row !! k) rows = Some c); [|by rewrite Hc1].
    apply mapM_Some, Forall2_same_length_lookup.
    split; [rewrite Hlrows; by eapply Forall2_length|].
    intros a row' y Ha' Hy.
    destruct (lookup_lt_is_Some_2 (data X) a) as [row Ha].
    { rewrite <- Hlrows. by eapply lookup_lt_Some. }
    destruct (Hrow a row row' Ha Ha') as [_ Hrk]. rewrite (Hrk k i Hk).
    by eapply (Forall2_lookup_lr _ _ _ _ _ _ Hc').
Qed.

Variable sis : list T → ndarray T → Z → list Z.

Lemma do_sis_while_selects X0 l0 (fuel : nat) :
  ∀ y size increment shape X lv calls r calls',
    wf_ndarray X → shape0 X = shape0 X0 → selects X0 l0 X lv →
    do_sis_while sis fuel y size increment shape X (Some lv) calls
    = Some (Ok r, calls') →
    ∃ lv', r.2 = Some lv' ∧ wf_ndarray r.1 ∧ shape0 r.1 = shape0 X0
           ∧ selects X0 l0 r.1 lv'.
Proof.
  induction fuel as [|fuel IH];
    intros y size increment shape X lv calls r calls' HX Hn Hsel Hrun;
    cbn [do_sis_while] in Hrun; case_bool_decide; try done.
  - injection Hrun as <- <-. by exists lv.
  - destruct (take_cols X _) as [X1|] eqn:Hcols; [|done].
    destruct (take_items lv _) as [l1|] eqn:Hitems; [|done].
    destruct Hsel as (idx & Hidx & Hlv & Hsel').
    destruct (take_cols_items_selects X lv _ X1 l1 HX Hlv Hcols Hitems)
      as (HX1 & Hn1 & Hstep).
    eapply IH; [exact HX1 | congruence | | exact Hrun].
    eapply selects_trans; [|exact Hstep]. by exists idx.
  - injection Hrun as <- <-. by exists lv.
Qed.

(** Whatever the oracle does, a result of [do_sis] holds a selection of the
    columns of the input, with as many rows, and the returned labels are
    the labels of exactly those columns, in the same order. *)
Lemma do_sis_keeps_labels_aligned (fuel : nat) (X : ndarray T) (y : list T)
    (lv : list string) (size : option Z) (increment : Z) r calls :
  wf_ndarray X →
  do_sis sis fuel X y (Some lv) size increment = Some (Ok r, calls) →
  ∃ lv', r.2 = Some lv' ∧ wf_ndarray r.1 ∧ shape0 r.1 = shape0 X
         ∧ selects X lv r.1 lv'.
Proof.
  intros HX. unfold do_sis. cbn [len_labels np_shape fst snd].
  case_bool_decide as Hlen; [|done]. intros Hrun.
  eapply do_sis_while_selects; [exact HX | done | | exact Hrun].
  by apply selects_refl.
Qed.

Lemma do_sis_while_forever (y : list T) (size increment : Z) (fuel : nat) :
  drops_nothing sis increment →
  ∀ shape X lv calls,
    wf_ndarray X → length lv = shape1 X →
    (size < Z.of_nat shape.2)%Z → (size < Z.of_nat (shape1 X))%Z →
    do_sis_while sis fuel y size increment shape X (Some lv) calls = None.
Proof.
  intros Hsis. induction fuel as [|fuel IH];
    intros shape X lv calls HX Hlv Hshape Hm; cbn [do_sis_while];
    rewrite bool_decide_true by lia; [done|].
  cbn [np_shape snd]. destruct (Hsis y X) as [Hlen Hvalid].
  destruct (take_cols_valid X _ HX Hvalid) as (X1 & -> & HX1 & Hn1 & Hm1).
  destruct (take_items_valid lv (sis y X (Z.of_nat (shape1 X) - increment)%Z))
    as (lv1 & -> & Hlv1); [by rewrite Hlv|].
  apply IH; [done | congruence | simpl; lia | lia].
Qed.
End selection.

(** With an oracle that hands back as many columns as it was given, the
    loop of [do_sis] on a matrix wider than [size] never ends: no amount of
    fuel yields a result. *)
Lemma do_sis_never_returns {T : Type} (sis : list T → ndarray T → Z → list Z)
    (X : ndarray T) (y : list T) (lv : list string) (size increment : Z) :
  drops_nothing sis increment →
  wf_ndarray X → length lv = shape1 X → (size < Z.of_nat (shape1 X))%Z →
  ∀ fuel, do_sis sis fuel X y (Some lv) (Some size) increment = None.
Proof.
  intros Hsis HX Hlv Hm fuel. unfold do_sis. cbn [len_labels np_shape fst snd].
  rewrite bool_decide_true by done.
  by apply do_sis_while_forever.
Qed.

Lemma accept_all_drops_nothing {T : Type} (increment : Z) :
  drops_nothing (@accept_all T) increment.
Proof.
  intros y X. unfold accept_all. split.
  - by rewrite length_fmap, length_seq.
  - apply Forall_fmap, Forall_forall. intros i Hi.
    apply elem_of_seq in Hi. simpl. lia.
Qed.

Lemma do_sis_never_returns_witness :
  do_sis accept_all 100 (NdArray 1 3 [[10; 11; 12]]%Z) [7%Z]
    (Some ["a"; "b"; "c"]) (Some 2%Z) 1 = None.
Proof.
  apply (do_sis_never_returns accept_all (NdArray 1 3 [[10; 11; 12]]%Z) [7%Z]
           ["a"; "b"; "c"] 2 1).
  - apply accept_all_drops_nothing.
  - wf_by_computation.
  - reflexivity.
  - simpl. lia.
Defined.

(** With [increment=0] even an oracle that honours its contract is asked
    for all the columns each time, so [do_sis] on a matrix wider than
    [size] never ends. *)
Lemma do_sis_zero_increment_never_returns {T : Type}
    (sis : list T → ndarray T → Z → list Z)
    (X : ndarray T) (y : list T) (lv : list string) (size : Z) :
  honours_contract sis →
  wf_ndarray X → length lv = shape1 X → (size < Z.of_nat (shape1 X))%Z →
  ∀ fuel, do_sis sis fuel X y (Some lv) (Some size) 0 = None.
Proof.
  intros Hsis HX Hlv Hm fuel. unfold do_sis. cbn [len_labels np_shape fst snd].
  rewrite bool_decide_true by done.
  apply do_sis_while_forever; [|done..].
  intros y' X'. rewrite Z.sub_0_r.
  destruct (Hsis y' X' (Z.of_nat (shape1 X'))) as [Hlen Hvalid]; [lia|].
  split; [lia | done].
Qed.

Lemma do_sis_zero_increment_never_returns_witness :
  do_sis accept_first 100 (NdArray 1 3 [[10; 11; 12]]%Z) [7%Z]
    (Some ["a"; "b"; "c"]) (Some 2%Z) 0 = None.
Proof.
  apply (do_sis_zero_increment_never_returns accept_first
           (NdArray 1 3 [[10; 11; 12]]%Z) [7%Z] ["a"; "b"; "c"] 2).
  - apply accept_first_honours_contract.
  - wf_by_computation.
  - reflexivity.
  - simpl. lia.
Defined.

Lemma do_sis_keeps_labels_aligned_witness :
  ∃ lv', selects (NdArray 1 4 [[10; 11; 12; 13]]%Z) ["a"; "b"; "c"; "d"]
           (NdArray 1 2 [[10; 11]]%Z) lv'.
Proof.
  destruct (do_sis_keeps_labels_aligned accept_first 3
              (NdArray 1 4 [[10; 11; 12; 13]]%Z) [7%Z] ["a"; "b"; "c"; "d"]
              (Some 3%Z) 1 (NdArray 1 2 [[10; 11]]%Z, Some ["a"; "b"])
              [3; 2]%Z) as (lv' & _ & _ & _ & Hsel).
  - wf_by_computation.
  - reflexivity.
  - exists lv'. exact Hsel.
Defined.

(** The checks before the loop: labels that do not match the columns in
    number fail the assertion before any oracle call; and with [size]
    omitted the target is the number of rows, so a matrix with no more
    columns than rows comes back as it is. *)
Lemma do_sis_checks_first {T : Type} (sis : list T → ndarray T → Z → list Z)
    (fuel : nat) (X : ndarray T) (y : list T) (lv : list string)
    (size : option Z) (increment : Z) :
  (length lv ≠ shape1 X →
     do_sis sis fuel X y (Some lv) size increment
     = Some (Raise AssertionError, []))
  ∧ (length lv = shape1 X → shape1 X ≤ shape0 X →
     do_sis sis fuel X y (Some lv) None increment
     = Some (Ok (X, Some lv), [])).
Proof.
  unfold do_sis. cbn [len_labels np_shape fst snd]. split.
  - intros Hlen. by rewrite bool_decide_false by congruence.
  - intros Hlen Hm. rewrite bool_decide_true by done.
    destruct fuel; simpl; by rewrite bool_decide_false by lia.
Qed.

Section do_sis_increment.
Context {T : Type}.
Variable sis : list T → ndarray T → Z → list Z.
Hypothesis sis_ok : honours_contract sis.

(** The loop with any [increment >= 1], from a state in which [shape] is
    one round behind [X]: [d] more rounds run, [d] being the number of
    steps that bring the old [shape[1]] down to [size]. *)
Lemma do_sis_while_behind_by (increment : Z) (d : nat) :
  (1 ≤ increment)%Z →
  ∀ fuel y size shape X lv calls,
    d ≤ fuel → wf_ndarray X → length lv = shape1 X →
    (Z.of_nat shape.2 = Z.of_nat (shape1 X) + increment)%Z →
    (Z.of_nat shape.2 - Z.of_nat d * increment ≤ size)%Z →
    (d ≠ 0 → (size < Z.of_nat shape.2 - (Z.of_nat d - 1) * increment)%Z) →
    (0 ≤ Z.of_nat (shape1 X) - Z.of_nat d * increment)%Z →
    ∃ X' lv',
      do_sis_while sis fuel y size increment shape X (Some lv) calls
        = Some (Ok (X', Some lv'),
                calls ++ ((λ t, Z.of_nat (shape1 X)
                                - (Z.of_nat t + 1) * increment)%Z
                            <$> seq 0 d))
      ∧ wf_ndarray X' ∧ shape0 X' = shape0 X
      ∧ Z.of_nat (shape1 X')
        = (Z.of_nat (shape1 X) - Z.of_nat d * increment)%Z
      ∧ length lv' = shape1 X'.
Proof.
  intros Hinc. induction d as [|d IH];
    intros fuel y size shape X lv calls Hfuel HX Hlv Hshape Hlow Hhigh Hpos.
  - exists X, lv. simpl. rewrite app_nil_r.
    assert (Hstop : do_sis_while sis fuel y size increment shape X (Some lv)
                      calls = Some (Ok (X, Some lv), calls)).
    { destruct fuel; simpl; by rewrite bool_decide_false by lia. }
    rewrite Hstop. split; [done|]. split; [done|]. split; [done|].
    split; [lia | done].
  - destruct fuel as [|fuel]; [lia|]. cbn [do_sis_while].
    specialize (Hhigh ltac:(done)).
    rewrite bool_decide_true by nia. cbn [np_shape snd].
    destruct (sis_ok y X (Z.of_nat (shape1 X) - increment)%Z)
      as [Hlen Hvalid]; [nia|].
    destruct (take_cols_valid X _ HX Hvalid) as (X1 & -> & HX1 & Hn1 & Hm1).
    destruct (take_items_valid lv
                (sis y X (Z.of_nat (shape1 X) - increment)%Z))
      as (lv1 & -> & Hlv1); [by rewrite Hlv|].
    assert (Hw1 : (Z.of_nat (shape1 X1) = Z.of_nat (shape1 X) - increment)%Z)
      by nia.
    destruct (IH fuel y size (shape0 X, shape1 X) X1 lv1
                (calls ++ [(Z.of_nat (shape1 X) - increment)%Z]))
      as (X' & lv' & Hrun & HX' & Hn' & Hm' & Hlv');
      [lia | done | lia | simpl; lia | simpl; nia | simpl; intros; nia | nia |].
    exists X', lv'. change (np_shape X) with (shape0 X, shape1 X). rewrite Hrun.
    split; [|split; [done|split; [congruence|split; [nia | done]]]].
    rewrite <- app_assoc. do 3 f_equal.
    cbn [seq fmap list_fmap app]. f_equal; [lia|].
    rewrite <- fmap_S_seq, <- list_fmap_compose.
    apply list_fmap_ext. intros _ t _. simpl. nia.
Qed.

Lemma do_sis_by_increment (fuel : nat) (X : ndarray T) (y : list T)
    (lv : list string) (size increment : Z) (k : nat) :
  wf_ndarray X → length lv = shape1 X → (1 ≤ increment)%Z →
  (size < Z.of_nat (shape1 X))%Z →
  (Z.of_nat (shape1 X) - Z.of_nat k * increment ≤ size)%Z →
  (size < Z.of_nat (shape1 X) - (Z.of_nat k - 1) * increment)%Z →
  ((Z.of_nat k + 1) * increment ≤ Z.of_nat (shape1 X))%Z →
  k + 1 ≤ fuel →
  ∃ X' lv',
    do_sis sis fuel X y (Some lv) (Some size) increment
    = Some (Ok (X', Some lv'),
            (λ t, Z.of_nat (shape1 X) - (Z.of_nat t + 1) * increment)%Z
              <$> seq 0 (k + 1))
    ∧ wf_ndarray X' ∧ shape0 X' = shape0 X
    ∧ Z.of_nat (shape1 X')
      = (Z.of_nat (shape1 X) - (Z.of_nat k + 1) * increment)%Z
    ∧ length lv' = shape1 X'.
Proof.
  intros HX Hlv Hinc Hm Hlow Hhigh Hpos Hfuel.
  unfold do_sis. cbn [len_labels np_shape snd fst].
  rewrite bool_decide_true by done.
  destruct fuel as [|fuel]; [lia|]. cbn [do_sis_while snd].
  unfold np_shape. cbn [fst snd]. rewrite bool_decide_true by lia.
  destruct (sis_ok y X (Z.of_nat (shape1 X) - increment)%Z)
    as [Hlen Hvalid]; [nia|].
  destruct (take_cols_valid X _ HX Hvalid) as (X1 & -> & HX1 & Hn1 & Hm1).
  destruct (take_items_valid lv (sis y X (Z.of_nat (shape1 X) - increment)%Z))
    as (lv1 & -> & Hlv1); [by rewrite Hlv|].
  assert (Hw1 : (Z.of_nat (shape1 X1) = Z.of_nat (shape1 X) - increment)%Z)
    by nia.
  destruct (do_sis_while_behind_by increment k Hinc fuel y size
              (shape0 X, shape1 X) X1 lv1
              ([] ++ [(Z.of_nat (shape1 X) - increment)%Z]))
    as (X' & lv' & Hrun & HX' & Hn' & Hm' & Hlv');
    [lia | done | lia | simpl; lia | simpl; lia | simpl; intros; lia | nia |].
  exists X', lv'. rewrite Hrun.
  split; [|split; [done|split; [congruence|split; [nia | done]]]].
  do 2 f_equal. rewrite Nat.add_1_r.
  cbn [seq fmap list_fmap app]. f_equal; [lia|].
  rewrite <- fmap_S_seq, <- list_fmap_compose.
  apply list_fmap_ext. intros _ t _. simpl. nia.
Qed.
End do_sis_increment.

(** [do_sis] for any [increment >= 1], with an oracle that honours its
    contract, on a matrix wider than [size]: where [k] steps of
    [increment] columns are the first to reach [size] or less, the loop
    runs [k + 1] rounds, asking for [increment] columns fewer each time,
    and returns [(k + 1) * increment] columns fewer than it was given: at
    most [size - increment] columns. *)
Lemma do_sis_overshoots_by_increment {T : Type}
    (sis : list T → ndarray T → Z → list Z) (fuel : nat) (X : ndarray T)
    (y : list T) (lv : list string) (size increment : Z) (k : nat) :
  honours_contract sis → wf_ndarray X → length lv = shape1 X →
  (1 ≤ increment)%Z → (size < Z.of_nat (shape1 X))%Z →
  (Z.of_nat (shape1 X) - Z.of_nat k * increment ≤ size)%Z →
  (size < Z.of_nat (shape1 X) - (Z.of_nat k - 1) * increment)%Z →
  ((Z.of_nat k + 1) * increment ≤ Z.of_nat (shape1 X))%Z →
  k + 1 ≤ fuel →
  ∃ X' lv',
    do_sis sis fuel X y (Some lv) (Some size) increment
    = Some (Ok (X', Some lv'),
            (λ t, Z.of_nat (shape1 X) - (Z.of_nat t + 1) * increment)%Z
              <$> seq 0 (k + 1))
    ∧ wf_ndarray X' ∧ shape0 X' = shape0 X
    ∧ Z.of_nat (shape1 X')
      = (Z.of_nat (shape1 X) - (Z.of_nat k + 1) * increment)%Z
    ∧ (Z.of_nat (shape1 X') ≤ size - increment)%Z
    ∧ length lv' = shape1 X'.
Proof.
  intros Hsis HX Hlv Hinc Hm Hlow Hhigh Hpos Hfuel.
  destruct (do_sis_by_increment sis Hsis fuel X y lv size increment k
              HX Hlv Hinc Hm Hlow Hhigh Hpos Hfuel)
    as (X' & lv' & Hrun & HX' & Hn' & Hm' & Hlv').
  exists X', lv'. split; [exact Hrun|]. split; [done|]. split; [done|].
  split; [done|]. split; [nia | done].
Qed.

Lemma do_sis_overshoots_by_increment_witness :
  ∃ X' lv',
    do_sis accept_first 3 (NdArray 1 7 [[10; 11; 12; 13; 14; 15; 16]]%Z) [7%Z]
      (Some ["a"; "b"; "c"; "d"; "e"; "f"; "g"]) (Some 3%Z) 2
    = Some (Ok (X', Some lv'), [5; 3; 1]%Z)
    ∧ Z.of_nat (shape1 X') = 1%Z.
Proof.
  destruct (do_sis_overshoots_by_increment accept_first 3
              (NdArray 1 7 [[10; 11; 12; 13; 14; 15; 16]]%Z) [7%Z]
              ["a"; "b"; "c"; "d"; "e"; "f"; "g"] 3 2 2)
    as (X' & lv' & Hrun & _ & _ & Hm & _).
  - apply accept_first_honours_contract.
  - wf_by_computation.
  - reflexivity.
  - lia.
  - simpl. lia.
  - simpl. lia.
  - simpl. lia.
  - simpl. lia.
  - lia.
  - exists X', lv'. split; [exact Hrun | exact Hm].
Defined.

(** ** DatasetPartitioner: the origin of the rows, and no groups *)

Lemma take_rows_drawn_from {T : Type} (X G : ndarray T) (idx : list nat) :
  wf_ndarray X → take_rows X idx = Ok G → drawn_from X G.
Proof.
  intros [Hn Hrows] HG. pose proof HG as Hdata.
  apply take_rows_lookup in Hdata as (Hn' & Hm' & Hlook).
  assert (Hin : ∀ row, row ∈ data G → row ∈ data X).
  { intros row Hrow. apply list_elem_of_lookup in Hrow as [a Ha].
    destruct (Forall2_lookup_r _ _ _ _ _ Hlook Ha) as (i & _ & Hi).
    by eapply list_elem_of_lookup_2. }
  split; [|done]. split.
  - rewrite Hn'. symmetry. by eapply Forall2_length.
  - rewrite Hm'. apply Forall_forall. intros row Hrow.
    rewrite Forall_forall in Hrows. by apply Hrows, Hin.
Qed.

Section split_outcomes.
Context {T : Type} {rng : Type}.
Variable shuffle : rng → list nat → list nat * rng.

Lemma fpmatrix_split_for_drawn {F : float_model} (X : ndarray T) (count : nat) :
  wf_ndarray X →
  ∀ fix_size replacement (n : pynum F) r s1 s2 index g dataset groups g',
    fpmatrix_split_for shuffle count X fix_size replacement n r s1 s2 index g
      dataset = (Ok groups, g') →
    ∃ new, groups = dataset ++ new ∧ length new = count
           ∧ Forall (drawn_from X) new.
Proof.
  intros HX. induction count as [|count IH];
    intros fix_size replacement n r s1 s2 index g dataset groups g' Hrun.
  - injection Hrun as <- <-. exists []. by rewrite app_nil_r.
  - cbn [fpmatrix_split_for] in Hrun.
    destruct (if replacement then shuffle g index else (index, g))
      as [index1 g1].
    destruct (py_int s1) as [lo|]; [|done]. rewrite bind_Ok in Hrun.
    destruct (py_int s2) as [hi|]; [|done]. rewrite bind_Ok in Hrun.
    destruct (take_rows X (py_slice index1 lo hi)) as [G|] eqn:HG; [|done].
    pose proof (take_rows_drawn_from X G _ HX HG) as HGX.
    destruct fix_size as [fs|];
      apply IH in Hrun as (new & -> & Hlen & Hnew);
      exists (G :: new); rewrite <- app_assoc;
      (split; [done|]; split; [simpl; by rewrite Hlen | by constructor]).
Qed.

(** Whatever the arguments, the float arithmetic and the shuffle, the
    groups [fpmatrix_split] returns are [nsplit] matrices as wide as [X]
    whose rows are all rows of [X]. *)
Lemma fpmatrix_split_rows_of_X {F : float_model} (X : ndarray T) (nsplit : Z)
    (fix_size : option Z) (replacement : bool) (g g' : rng) groups :
  wf_ndarray X →
  fpmatrix_split (F:=F) shuffle X nsplit fix_size replacement g
  = (Ok groups, g') →
  length groups = Z.to_nat nsplit ∧ Forall (drawn_from X) groups.
Proof.
  intros HX. unfold fpmatrix_split.
  destruct (match fix_size with
            | Some fs => bool_decide (Z.of_nat (shape0 X) >= nsplit * fs)%Z
            | None => true
            end); [|done].
  destruct (shuffle g (py_range 0 (shape0 X))) as [index g1].
  destruct fix_size as [fs|].
  - intros Hrun.
    apply (fpmatrix_split_for_drawn X _ HX) in Hrun as (new & -> & ? & ?).
    done.
  - destruct (py_truediv (Z.of_nat (shape0 X)) nsplit) as [n|]; [|done].
    intros Hrun.
    apply (fpmatrix_split_for_drawn X _ HX) in Hrun as (new & -> & ? & ?).
    done.
Qed.


End split_outcomes.

Lemma fpmatrix_split_rows_of_X_witness :
  Forall (drawn_from (NdArray 5 1 [[10]; [11]; [12]; [13]; [14]]%Z))
    [NdArray 2 1 [[10]; [11]]%Z; NdArray 2 1 [[12]; [11]]%Z].
Proof.
  apply (fpmatrix_split_rows_of_X (F:=binary64) reverse_shuffle
           (NdArray 5 1 [[10]; [11]; [12]; [13]; [14]]%Z) 2 (Some 2%Z) true
           tt tt).
  - wf_by_computation.
  - vm_compute. reflexivity.
Defined.

(** ** InteractionExpander: the expansions row by row *)

Lemma mapM_result_of_Forall2 {A B : Type} (f : A → result B) (l : list A) k :
  Forall2 (λ x y, f x = Ok y) l k → mapM f l = Ok k.
Proof.
  induction 1 as [|x y l k Hy _ IH]; [done|].
  cbn [mapM]. by rewrite Hy, bind_Ok, IH.
Qed.

Section rowwise.
Context {T : Type}.
Implicit Types (X R G : ndarray T).

Lemma col_lookup X f c a row :
  col X f = Ok c → data X !! a = Some row →
  ∃ x, c !! a = Some x ∧ row !! f = Some x.
Proof.
  unfold col. case_bool_decide; [|done].
  destruct (mapM (λ row : list T, row !! f) (data X)) as [c'|] eqn:Hc; [|done].
  intros [= <-] Ha. apply mapM_Some in Hc.
  destruct (Forall2_lookup_l _ _ _ _ _ Hc Ha) as (x & Hx & Hrow).
  by exists x.
Qed.

(** A matrix whose column k combines the columns i and j of [X] entry by
    entry, for the k-th pair (i, j), holds the expanded rows of [X]. *)
Lemma rows_of_pair_columns (zero : T) (f : T → T → T) X R :
  wf_ndarray X → wf_ndarray R → shape0 R = shape0 X →
  shape1 R = triangular (shape1 X) →
  (∀ k i j, order2_pairs (shape1 X) !! k = Some (i, j) →
     ∃ ci cj, col X i = Ok ci ∧ col X j = Ok cj
              ∧ col R k = Ok (zip_with f ci cj)) →
  R = NdArray (shape0 X) (triangular (shape1 X))
        (expand_row zero f (shape1 X) <$> data X).
Proof.
  intros [HnX HrowsX] [HnR HrowsR] Hn Hm Hcols.
  destruct R as [n m rows]. simpl in *. subst n m. f_equal; [done|].
  apply list_eq_same_length with (length rows);
    [rewrite length_fmap; congruence | done |].
  intros a r r' Ha Hr Hr'. rewrite list_lookup_fmap in Hr'.
  destruct (data X !! a) as [row|] eqn:Hrow; [|done].
  injection Hr' as <-.
  apply list_eq_same_length with (triangular (shape1 X)).
  { unfold expand_row. by rewrite length_fmap, order2_pairs_length. }
  { eapply Forall_lookup_1 in HrowsR; [|exact Hr]. done. }
  intros k x x' Hk Hx Hx'. unfold expand_row in Hx'.
  rewrite list_lookup_fmap in Hx'.
  destruct (order2_pairs (shape1 X) !! k) as [[i j]|] eqn:Hp; [|done].
  injection Hx' as <-. simpl.
  destruct (Hcols k i j Hp) as (ci & cj & Hci & Hcj & Hc).
  destruct (col_lookup X i ci a row Hci Hrow) as (xi & Hxi & ->).
  destruct (col_lookup X j cj a row Hcj Hrow) as (xj & Hxj & ->).
  destruct (col_lookup (NdArray (length rows) (triangular (shape1 X)) rows)
              k _ a r Hc Hr) as (y & Hy & Hry).
  rewrite lookup_zip_with, Hxi, Hxj in Hy. simpl in Hy.
  injection Hy as <-. simpl. congruence.
Qed.

Lemma wf_expand (zero : T) (f : T → T → T) X :
  wf_ndarray X →
  wf_ndarray (NdArray (shape0 X) (triangular (shape1 X))
                (expand_row zero f (shape1 X) <$> data X)).
Proof.
  intros [Hn _]. split; simpl; [by rewrite length_fmap|].
  apply Forall_fmap, Forall_forall. intros row _. simpl.
  unfold expand_row. by rewrite length_fmap, order2_pairs_length.
Qed.

(** Selecting rows of the expanded matrix gives the expansion of the
    selected rows. *)
Lemma take_rows_expand (zero : T) (f : T → T → T) X G (idx : list nat) :
  take_rows X idx = Ok G →
  take_rows (NdArray (shape0 X) (triangular (shape1 X))
               (expand_row zero f (shape1 X) <$> data X)) idx
  = Ok (NdArray (shape0 G) (triangular (shape1 G))
          (expand_row zero f (shape1 G) <$> data G)).
Proof.
  unfold take_rows. intros HG.
  apply bind_Ok_inv in HG as (rows & Hrows & [= <-]). simpl.
  apply mapM_result_Forall2 in Hrows.
  rewrite (mapM_result_of_Forall2 _ idx
             (expand_row zero f (shape1 X) <$> rows)); [done|].
  apply Forall2_fmap_r. eapply Forall2_impl; [exact Hrows|].
  intros i row. unfold py_getitem. simpl. rewrite list_lookup_fmap.
  destruct (data X !! i); [by intros [= ->] | done].
Qed.
End rowwise.

Section rowwise_functions.
Context {T : Type}.
Variables (zero : T) (mul add pow : T → T → T) (log : T → T).
Implicit Types (X R G : ndarray T).

Lemma get_order_2_rows X :
  wf_ndarray X →
  get_order_2 zero mul X
  = Ok (NdArray (shape0 X) (triangular (shape1 X))
          (expand_row zero mul (shape1 X) <$> data X)).
Proof.
  intros HX.
  destruct (get_order_2_columns zero mul X HX)
    as (R & -> & HR & Hn & Hm & Hcols).
  f_equal. by apply rows_of_pair_columns.
Qed.

(** [get_order_2] works row by row: row r of the result is made of the
    products [X[r,i] * X[r,j]] of the entries of row r of [X], for the pairs
    i <= j in the order of the loops, and of nothing else. *)
Lemma get_order_2_rowwise X :
  wf_ndarray X →
  get_order_2 zero mul X
  = Ok (NdArray (shape0 X) (shape1 X * (shape1 X + 1) / 2)
          (expand_row zero mul (shape1 X) <$> data X)).
Proof.
  intros HX. rewrite <- triangular_closed.
  destruct (get_order_2_columns zero mul X HX)
    as (R & -> & HR & Hn & Hm & Hcols).
  f_equal. by apply rows_of_pair_columns.
Qed.

(** [get_order_2ab] and [get_ablog] work row by row too: the entry for the
    pair (i, j) in row r is [X[r,i]**a * X[r,j]**b], respectively
    [a*log(X[r,i]) + b*log(X[r,j])]. *)
Lemma get_order_2ab_get_ablog_rowwise X (a b : T) :
  wf_ndarray X →
  get_order_2ab zero mul pow X a b
  = Ok (NdArray (shape0 X) (shape1 X * (shape1 X + 1) / 2)
          (expand_row zero (λ x y, mul (pow x a) (pow y b)) (shape1 X)
             <$> data X))
  ∧ get_ablog zero mul add log X a b
    = Ok (NdArray (shape0 X) (shape1 X * (shape1 X + 1) / 2)
            (expand_row zero (λ x y, add (mul a (log x)) (mul b (log y)))
               (shape1 X) <$> data X)).
Proof.
  intros HX. rewrite <- triangular_closed. split.
  - destruct (get_order_2ab_columns zero mul pow X a b HX)
      as (R & -> & HR & Hn & Hm & Hcols).
    f_equal. apply rows_of_pair_columns; [done..|].
    intros k i j Hp. destruct (Hcols k i j Hp) as (ci & cj & Hci & Hcj & Hc).
    exists ci, cj. by rewrite Hc, zip_with_fmap_l, zip_with_fmap_r.
  - destruct (get_ablog_columns zero mul add log X a b HX)
      as (R & -> & HR & Hn & Hm & Hcols).
    f_equal. apply rows_of_pair_columns; [done..|].
    intros k i j Hp. destruct (Hcols k i j Hp) as (ci & cj & Hci & Hcj & Hc).
    exists ci, cj. by rewrite Hc, zip_with_fmap_l, zip_with_fmap_r.
Qed.

Context {F : float_model} {rng : Type}.
Variable shuffle : rng → list nat → list nat * rng.

Lemma fpmatrix_split_for_expand X (count : nat) :
  wf_ndarray X →
  ∀ fix_size replacement (n : pynum F) r s1 s2 index g dataset dataset'
    groups g',
    Forall2 (λ G G', get_order_2 zero mul G = Ok G') dataset dataset' →
    fpmatrix_split_for shuffle count X fix_size replacement n r s1 s2 index g
      dataset = (Ok groups, g') →
    ∃ groups',
      fpmatrix_split_for shuffle count
        (NdArray (shape0 X) (triangular (shape1 X))
           (expand_row zero mul (shape1 X) <$> data X))
        fix_size replacement n r s1 s2 index g dataset' = (Ok groups', g')
      ∧ Forall2 (λ G G', get_order_2 zero mul G = Ok G') groups groups'.
Proof.
  intros HX. induction count as [|count IH];
    intros fix_size replacement n r s1 s2 index g dataset dataset' groups g'
      Hds Hrun.
  - injection Hrun as <- <-. by exists dataset'.
  - cbn [fpmatrix_split_for] in Hrun |- *.
    destruct (if replacement then shuffle g index else (index, g))
      as [index1 g1].
    destruct (py_int s1) as [lo|]; [|done]. rewrite bind_Ok in Hrun |- *.
    destruct (py_int s2) as [hi|]; [|done]. rewrite bind_Ok in Hrun |- *.
    destruct (take_rows X (py_slice index1 lo hi)) as [G|] eqn:HG; [|done].
    rewrite (take_rows_expand zero mul X G _ HG).
    pose proof (take_rows_drawn_from X G _ HX HG) as (HGwf & _ & _).
    assert (Hds' : Forall2 (λ G G', get_order_2 zero mul G = Ok G')
              (dataset ++ [G])
              (dataset' ++ [NdArray (shape0 G) (triangular (shape1 G))
                              (expand_row zero mul (shape1 G) <$> data G)])).
    { apply Forall2_app; [done|]. constructor; [|constructor].
      by apply get_order_2_rows. }
    destruct fix_size as [fs|]; by eapply IH.
Qed.

(** Expanding and splitting commute: splitting the expanded matrix gives,
    from the same random source, the expansions of the groups that
    splitting [X] gives, and leaves the random source in the same state. *)
Lemma fpmatrix_split_of_get_order_2 X (nsplit : Z) (fix_size : option Z)
    (replacement : bool) (g g' : rng) groups :
  wf_ndarray X →
  fpmatrix_split (F:=F) shuffle X nsplit fix_size replacement g
  = (Ok groups, g') →
  ∃ R groups',
    get_order_2 zero mul X = Ok R
    ∧ fpmatrix_split (F:=F) shuffle R nsplit fix_size replacement g
      = (Ok groups', g')
    ∧ Forall2 (λ G G', get_order_2 zero mul G = Ok G') groups groups'.
Proof.
  intros HX Hrun. eexists. rewrite get_order_2_rows by done.
  cut (∃ groups',
         fpmatrix_split (F:=F) shuffle
           (NdArray (shape0 X) (triangular (shape1 X))
              (expand_row zero mul (shape1 X) <$> data X))
           nsplit fix_size replacement g = (Ok groups', g')
         ∧ Forall2 (λ G G', get_order_2 zero mul G = Ok G') groups groups').
  { intros (groups' & H1 & H2). exists groups'. split; [reflexivity|].
    split; [exact H1 | exact H2]. }
  unfold fpmatrix_split in Hrun |- *. cbn [shape0].
  destruct (match fix_size with
            | Some fs => bool_decide (Z.of_nat (shape0 X) >= nsplit * fs)%Z
            | None => true
            end); [|done].
  destruct (shuffle g (py_range 0 (shape0 X))) as [index g1].
  destruct fix_size as [fs|].
  - eapply fpmatrix_split_for_expand; [done | constructor | exact Hrun].
  - destruct (py_truediv (Z.of_nat (shape0 X)) nsplit) as [n|]; [|done].
    eapply fpmatrix_split_for_expand; [done | constructor | exact Hrun].
Qed.
End rowwise_functions.

(** [triangular(n)], the sum of [range(n+1)], is the n-th triangular
    number: n(n+1)/2, the number of pairs i <= j below n, and it grows by
    n+1 from n to n+1. *)
Lemma triangular_counts_pairs (n : nat) :
  triangular n = n * (n + 1) / 2
  ∧ triangular n = length (order2_pairs n)
  ∧ triangular (S n) = triangular n + S n.
Proof.
  split; [apply triangular_closed|].
  split; [symmetry; apply order2_pairs_length | apply triangular_S].
Qed.

Lemma get_order_2_rowwise_witness :
  get_order_2 0%Z Z.mul (NdArray 2 2 [[1; 2]; [3; 4]]%Z)
  = Ok (NdArray 2 3 [[1; 2; 4]; [9; 12; 16]]%Z).
Proof.
  apply (get_order_2_rowwise 0%Z Z.mul (NdArray 2 2 [[1; 2]; [3; 4]]%Z)).
  wf_by_computation.
Defined.

Lemma get_order_2ab_get_ablog_rowwise_witness :
  get_order_2ab 0%Z Z.mul Z.pow (NdArray 2 2 [[1; 2]; [3; 4]]%Z) 2%Z 1%Z
  = Ok (NdArray 2 3 [[1; 2; 8]; [27; 36; 64]]%Z).
Proof.
  assert (HX : wf_ndarray (NdArray 2 2 [[1; 2]; [3; 4]]%Z))
    by wf_by_computation.
  exact (proj1 (get_order_2ab_get_ablog_rowwise 0%Z Z.mul Z.add Z.pow Z.log2
                  (NdArray 2 2 [[1; 2]; [3; 4]]%Z) 2%Z 1%Z HX)).
Defined.

Lemma fpmatrix_split_of_get_order_2_witness :
  ∃ R groups',
    get_order_2 0%Z Z.mul (NdArray 3 2 [[1; 2]; [3; 4]; [5; 6]]%Z) = Ok R
    ∧ fpmatrix_split (F:=binary64) reverse_shuffle R 3 None false tt
      = (Ok groups', tt)
    ∧ Forall2 (λ G G', get_order_2 0%Z Z.mul G = Ok G')
        [NdArray 1 2 [[5; 6]]%Z; NdArray 1 2 [[3; 4]]%Z;
         NdArray 1 2 [[1; 2]]%Z] groups'.
Proof.
  apply (fpmatrix_split_of_get_order_2 0%Z Z.mul reverse_shuffle
           (NdArray 3 2 [[1; 2]; [3; 4]; [5; 6]]%Z) 3 None false tt tt).
  - wf_by_computation.
  - vm_compute. reflexivity.
Defined.
